(** * pilot: an HTTP-to-gRPC gateway

    A shallow embedding of the gateway's control and data plane:
    the radix route tree, the service pool's round-robin selector, the
    request transcoder, the gRPC-to-HTTP error mapping, the discovery
    watcher's metadata handler and the route registry.

    Go strings are byte strings and are embedded as [string]; Go maps are
    embedded as [gmap], whose equality is extensional like the structural
    comparison of two Go maps; [int64] arithmetic is embedded in [Z] with
    the wrap-around written out. *)

From Stdlib Require Import ZArith Lia Ascii String.
From stdpp Require Import base gmap sets list strings.

Set Warnings "-register-all".
Local Open Scope Z_scope.

(** ** Go's [strings] package, as far as the sources use it *)
Module GoStrings.

Definition slash : ascii := "/"%char.
Definition colon : ascii := ":"%char.
Definition star : ascii := "*"%char.
Definition blank : ascii := " "%char.

(** [s[0] == c] on a non-empty string; [false] on the empty one, where
    every caller has tested the length before. *)
Definition headIs (c : ascii) (s : string) : bool :=
  match s with
  | String a _ => bool_decide (a = c)
  | EmptyString => false
  end.

(** [s[1:]] *)
Definition tail1 (s : string) : string :=
  match s with
  | String _ r => r
  | EmptyString => EmptyString
  end.

(** [strings.HasPrefix(s, p)] *)
Definition HasPrefix (s p : string) : bool := String.prefix p s.

(** [strings.TrimPrefix(s, p)] *)
Definition TrimPrefix (s p : string) : string :=
  if HasPrefix s p
  then String.substring (String.length p) (String.length s - String.length p) s
  else s.

Fixpoint trimLeft (c : ascii) (s : string) : string :=
  match s with
  | String a r => if bool_decide (a = c) then trimLeft c r else s
  | EmptyString => EmptyString
  end.

Fixpoint trimRight (c : ascii) (s : string) : string :=
  match s with
  | String a r =>
      let r' := trimRight c r in
      if bool_decide (a = c) && bool_decide (r' = EmptyString)
      then EmptyString else String a r'
  | EmptyString => EmptyString
  end.

(** [strings.Trim(s, " ")]: the cutset has the one byte [c]. *)
Definition Trim (s : string) (c : ascii) : string := trimRight c (trimLeft c s).

(** [strings.TrimSuffix(s, "/")] *)
Fixpoint TrimSuffixSlash (s : string) : string :=
  match s with
  | String a EmptyString => if bool_decide (a = slash) then EmptyString else s
  | String a r => String a (TrimSuffixSlash r)
  | EmptyString => EmptyString
  end.

(** [if idx := strings.IndexByte(p, c); idx >= 0 { p = p[:idx] }] *)
Fixpoint cutAtByte (c : ascii) (p : string) : string :=
  match p with
  | String a r => if bool_decide (a = c) then EmptyString else String a (cutAtByte c r)
  | EmptyString => EmptyString
  end.

(** [strings.Contains(p, "//")] *)
Fixpoint containsSlashSlash (p : string) : bool :=
  match p with
  | String a r =>
      (bool_decide (a = slash) && headIs slash r) || containsSlashSlash r
  | EmptyString => false
  end.

(** [strings.ReplaceAll(p, "//", "/")]: matches are taken from the left
    and do not overlap. *)
Fixpoint replaceSlashSlash (p : string) : string :=
  match p with
  | String a r =>
      match r with
      | String b r' =>
          if bool_decide (a = slash) && bool_decide (b = slash)
          then String slash (replaceSlashSlash r')
          else String a (replaceSlashSlash r)
      | EmptyString => p
      end
  | EmptyString => EmptyString
  end.

(** [for strings.Contains(p, "//") { p = strings.ReplaceAll(p, "//", "/") }].
    Every round that runs shortens [p], so [String.length p] rounds are
    enough ([collapse_done] below). *)
Fixpoint collapseLoop (fuel : nat) (p : string) : string :=
  match fuel with
  | O => p
  | S fuel' =>
      if containsSlashSlash p then collapseLoop fuel' (replaceSlashSlash p) else p
  end.

Definition collapse (p : string) : string := collapseLoop (String.length p) p.

(** [strings.Split(p, "/")] *)
Fixpoint Split (p : string) : list string :=
  match p with
  | String a r =>
      if bool_decide (a = slash) then EmptyString :: Split r
      else match Split r with
           | h :: t => String a h :: t
           | [] => [String a EmptyString]
           end
  | EmptyString => [EmptyString]
  end.

(** [strings.Join(segs, "/")] *)
Fixpoint Join (segs : list string) : string :=
  match segs with
  | [] => EmptyString
  | [s] => s
  | s :: rest => s +:+ String slash (Join rest)
  end.

(** *** Library functions the registry takes as parameters

    [strings.TrimSpace], [strings.ToUpper] and [path.Clean] are parameters
    of the registry below. The examples run it with these versions, which
    agree with the library on strings of ASCII bytes and, for [Clean], on
    rooted paths. *)

Definition isSpaceByte (a : ascii) : bool :=
  let n := nat_of_ascii a in
  (Nat.leb 9 n && Nat.leb n 13) || Nat.eqb n 32.

Fixpoint trimLeftSpace (s : string) : string :=
  match s with
  | String a r => if isSpaceByte a then trimLeftSpace r else s
  | EmptyString => EmptyString
  end.

Fixpoint trimRightSpace (s : string) : string :=
  match s with
  | String a r =>
      let r' := trimRightSpace r in
      if isSpaceByte a && bool_decide (r' = EmptyString)
      then EmptyString else String a r'
  | EmptyString => EmptyString
  end.

Definition asciiTrimSpace (s : string) : string := trimRightSpace (trimLeftSpace s).

Definition upperByte (a : ascii) : ascii :=
  let n := nat_of_ascii a in
  if Nat.leb 97 n && Nat.leb n 122 then ascii_of_nat (n - 32) else a.

Fixpoint asciiToUpper (s : string) : string :=
  match s with
  | String a r => String (upperByte a) (asciiToUpper r)
  | EmptyString => EmptyString
  end.

(** The elements of a rooted path that [path.Clean] keeps, last first. *)
Fixpoint cleanElements (elems kept : list string) : list string :=
  match elems with
  | [] => kept
  | e :: rest =>
      if bool_decide (e = EmptyString) || bool_decide (e = ".") then cleanElements rest kept
      else if bool_decide (e = "..") then cleanElements rest (tail kept)
      else cleanElements rest (e :: kept)
  end.

Definition cleanRooted (p : string) : string :=
  String slash (Join (rev (cleanElements (Split p) []))).

End GoStrings.

(** ** The radix route tree (package router, type [RouteTree]) *)
Module RouteTree.
Import GoStrings.

Inductive NodeType := Static | Param | Wildcard.

(** [node[T]]: the pointers to children are owned by their one parent, so
    the tree is embedded by value; [value : *T] is an [option]. The locks
    are left out: every operation below runs as one critical section. *)
Inductive node (T : Type) : Type := Node {
  segment : string;
  typeOf : NodeType;
  children : gmap string (node T);
  paramName : string;
  paramChild : option (node T);
  wildName : string;
  wildChild : option (node T);
  value : option T;
  fullPath : string
}.
Arguments Node {T}.
Arguments segment {T}.
Arguments typeOf {T}.
Arguments children {T}.
Arguments paramName {T}.
Arguments paramChild {T}.
Arguments wildName {T}.
Arguments wildChild {T}.
Arguments value {T}.
Arguments fullPath {T}.

(** The errors of [Insert], one per [errors.New] of the source. *)
Inductive error :=
| ErrBadPath            (* path must start with '/' *)
| ErrParamNameEmpty     (* param name cannot be empty *)
| ErrWildcardAndParam   (* conflict: wildcard and param at same level *)
| ErrParamNames         (* conflict: different param names at same level *)
| ErrWildcardNameEmpty  (* wildcard name cannot be empty *)
| ErrWildcardNotLast    (* wildcard must be the last segment *)
| ErrWildcardCoexist.   (* conflict: wildcard cannot coexist with other children *)

Definition errorText (e : error) : string :=
  match e with
  | ErrBadPath => "path must start with '/'"
  | ErrParamNameEmpty => "param name cannot be empty"
  | ErrWildcardAndParam => "conflict: wildcard and param at same level"
  | ErrParamNames => "conflict: different param names at same level"
  | ErrWildcardNameEmpty => "wildcard name cannot be empty"
  | ErrWildcardNotLast => "wildcard must be the last segment"
  | ErrWildcardCoexist => "conflict: wildcard cannot coexist with other children"
  end.

(** [splitPath] *)
Definition splitPath (path : string) : list string :=
  if bool_decide (path = EmptyString) then [EmptyString] else
  let p := Trim path blank in
  let p := cutAtByte "?" p in
  let p := cutAtByte "#" p in
  let p := collapse p in
  if bool_decide (p = String slash EmptyString) then [EmptyString] else
  let p := if negb (bool_decide (p = EmptyString)) && negb (headIs slash p)
           then String slash p else p in
  match Split p with
  | EmptyString :: segs => segs
  | segs => segs
  end.

(** [path == "" || path[0] != '/'] *)
Definition badPath (path : string) : bool :=
  bool_decide (path = EmptyString) || negb (headIs slash path).

Section ops.
Context {T : Type}.

Definition newNode (seg : string) (ty : NodeType) (pname wname : string) : node T :=
  Node seg ty ∅ pname None wname None None EmptyString.

(** [NewRouteTree]: the tree is its root node. *)
Definition NewRouteTree : node T := newNode EmptyString Static EmptyString EmptyString.

Definition setChildren (n : node T) (m : gmap string (node T)) : node T :=
  Node (segment n) (typeOf n) m (paramName n) (paramChild n)
       (wildName n) (wildChild n) (value n) (fullPath n).

Definition setParamChild (n : node T) (c : option (node T)) : node T :=
  Node (segment n) (typeOf n) (children n) (paramName n) c
       (wildName n) (wildChild n) (value n) (fullPath n).

Definition setWildChild (n : node T) (c : option (node T)) : node T :=
  Node (segment n) (typeOf n) (children n) (paramName n) (paramChild n)
       (wildName n) c (value n) (fullPath n).

Definition setValue (n : node T) (v : option T) (fp : string) : node T :=
  Node (segment n) (typeOf n) (children n) (paramName n) (paramChild n)
       (wildName n) (wildChild n) v fp.

(** [len(n.children)] *)
Definition lenChildren (n : node T) : nat := size (children n).

(** The loop of [Insert] over [segs[i:]], at node [cur]. An error
    returns at once and keeps the nodes linked so far, as the in-place
    code does. *)
Fixpoint insertSegs (path : string) (val : T) (segs : list string) (cur : node T)
  : node T * option error :=
  match segs with
  | [] => (setValue cur (Some val) path, None)
  | seg :: rest =>
      if bool_decide (seg = EmptyString) then insertSegs path val rest cur
      else if headIs colon seg then
        let name := tail1 seg in
        if bool_decide (name = EmptyString) then (cur, Some ErrParamNameEmpty)
        else if bool_decide (is_Some (wildChild cur)) then (cur, Some ErrWildcardAndParam)
        else
          let pc := default (newNode seg Param name EmptyString) (paramChild cur) in
          if bool_decide (paramName pc = name) then
            let '(pc', e) := insertSegs path val rest pc in
            (setParamChild cur (Some pc'), e)
          else (setParamChild cur (Some pc), Some ErrParamNames)
      else if headIs star seg then
        let name := tail1 seg in
        if bool_decide (name = EmptyString) then (cur, Some ErrWildcardNameEmpty)
        else if negb (bool_decide (rest = [])) then (cur, Some ErrWildcardNotLast)
        else if (0 <? lenChildren cur)%nat || bool_decide (is_Some (paramChild cur))
        then (cur, Some ErrWildcardCoexist)
        else
          let wc := default (newNode seg Wildcard EmptyString name) (wildChild cur) in
          let '(wc', e) := insertSegs path val rest wc in
          (setWildChild cur (Some wc'), e)
      else
        let child := default (newNode seg Static EmptyString EmptyString)
                             (children cur !! seg) in
        let '(child', e) := insertSegs path val rest child in
        (setChildren cur (<[seg := child']> (children cur)), e)
  end.

(** [Insert]: the tree after the call and the error, [None] for [nil]. *)
Definition Insert (path : string) (val : T) (t : node T) : node T * option error :=
  if badPath path then (t, Some ErrBadPath)
  else insertSegs path val (splitPath path) t.

(** The loop of [Lookup]: the node reached and the captured parameters,
    [None] where the source returns [(zero, nil, false)]. *)
Fixpoint lookupSegs (segs : list string) (params : gmap string string) (cur : node T)
  : option (node T * gmap string string) :=
  match segs with
  | [] => Some (cur, params)
  | seg :: rest =>
      if bool_decide (seg = EmptyString) then lookupSegs rest params cur
      else match children cur !! seg with
           | Some child => lookupSegs rest params child
           | None =>
               match paramChild cur with
               | Some pc => lookupSegs rest (<[paramName pc := seg]> params) pc
               | None =>
                   match wildChild cur with
                   | Some wc => Some (wc, <[wildName wc := Join (seg :: rest)]> params)
                   | None => None
                   end
               end
           end
  end.

(** [Lookup]: [Some (value, params)] for [(value, params, true)]. *)
Definition Lookup (path : string) (t : node T) : option (T * gmap string string) :=
  if badPath path then None
  else match lookupSegs (splitPath path) ∅ t with
       | Some (n, params) =>
           match value n with
           | Some v => Some (v, params)
           | None => None
           end
       | None => None
       end.

(** [n.value == nil && len(n.children) == 0 && n.paramChild == nil &&
    n.wildChild == nil] *)
Definition isBare (n : node T) : bool :=
  bool_decide (value n = None :> option T) && (lenChildren n =? 0)%nat
  && bool_decide (paramChild n = None :> option (node T))
  && bool_decide (wildChild n = None :> option (node T)).

(** The body of the compaction loop: unlink the child recorded under
    [key] from its parent [p]. *)
Definition unlink (key : string) (p : node T) : node T :=
  if HasPrefix key (String colon EmptyString) then setParamChild p None
  else if HasPrefix key (String star EmptyString) then setWildChild p None
  else setChildren p (delete key (children p)).

Definition compact (key : string) (p child : node T) (had : bool) : node T :=
  if had && isBare child then unlink key p else p.

(** [had := cur.value != nil; cur.value = nil; cur.fullPath = ""] *)
Definition clearValue (cur : node T) : node T * bool :=
  (setValue cur None EmptyString, bool_decide (is_Some (value cur))).

(** [Delete] below the node [cur]: the walk that fills [stack] and
    [keys], the clearing of the value and the compaction from the leaf
    upwards, in one recursion over the segments. The boolean is the
    result of [Delete]. *)
Fixpoint deleteSegs (segs : list string) (cur : node T) : node T * bool :=
  match segs with
  | [] => clearValue cur
  | seg :: rest =>
      if bool_decide (seg = EmptyString) then deleteSegs rest cur
      else match children cur !! seg with
           | Some child =>
               let '(child', had) := deleteSegs rest child in
               (compact seg (setChildren cur (<[seg := child']> (children cur)))
                        child' had, had)
           | None =>
               match paramChild cur with
               | Some pc =>
                   let '(pc', had) := deleteSegs rest pc in
                   (compact (String colon (paramName pc))
                            (setParamChild cur (Some pc')) pc' had, had)
               | None =>
                   match wildChild cur with
                   | Some wc =>
                       let '(wc', had) := clearValue wc in
                       (compact (String star (wildName wc))
                                (setWildChild cur (Some wc')) wc' had, had)
                   | None => (cur, false)
                   end
               end
           end
  end.

Definition Delete (path : string) (t : node T) : node T * bool :=
  if badPath path then (t, false) else deleteSegs (splitPath path) t.

(** *** Addressing and well-formedness *)

(** The child [Insert] steps to for the segment [seg]. *)
Definition stepTo (seg : string) (cur : node T) : option (node T) :=
  if headIs colon seg then paramChild cur
  else if headIs star seg then wildChild cur
  else children cur !! seg.

(** The node [Insert] assigns for the segments [segs], when the tree has
    it already. *)
Fixpoint nodeFor (segs : list string) (cur : node T) : option (node T) :=
  match segs with
  | [] => Some cur
  | seg :: rest =>
      if bool_decide (seg = EmptyString) then nodeFor rest cur
      else match stepTo seg cur with
           | Some c => nodeFor rest c
           | None => None
           end
  end.

(** The tree holds a value under the key [path]. *)
Definition stored (path : string) (t : node T) : Prop :=
  ∃ n, nodeFor (splitPath path) t = Some n ∧ is_Some (value n).

(** The three kinds of link from a node to a child. *)
Inductive edge := EStatic (key : string) | EParam | EWild.

Definition child (e : edge) (n : node T) : option (node T) :=
  match e with
  | EStatic key => children n !! key
  | EParam => paramChild n
  | EWild => wildChild n
  end.

Fixpoint nodeAt (p : list edge) (n : node T) : option (node T) :=
  match p with
  | [] => Some n
  | e :: p' =>
      match child e n with
      | Some c => nodeAt p' c
      | None => None
      end
  end.

(** What holds of every node of a tree that accepted [Insert]s and
    [Delete]s have built: no static child is keyed like a parameter or a
    wildcard, a node without a value has no full path, and no child is a
    valueless leaf. *)
Definition nodeOk (n : node T) : Prop :=
  (∀ key, headIs colon key || headIs star key = true → children n !! key = None)
  ∧ (value n = None → fullPath n = EmptyString)
  ∧ (∀ e c, child e n = Some c → isBare c = false).

Definition wellFormed (t : node T) : Prop :=
  ∀ p n, nodeAt p t = Some n → nodeOk n.

(** The trees that calls of [Insert] that return no error and calls of
    [Delete] build from the empty tree. *)
Inductive built : node T → Prop :=
| built_new : built NewRouteTree
| built_insert (t t' : node T) (path : string) (val : T) :
    built t → Insert path val t = (t', None) → built t'
| built_delete (t : node T) (path : string) :
    built t → built (Delete path t).1.

End ops.
End RouteTree.

(** ** The service pool (package router, type [ServicePool]) *)
Module Pool.

(** [discovery.ServiceInstance] *)
Record ServiceInstance := {
  Address : string;
  Port : Z;
  Addr : string
}.

(** [int64] wrap-around of the exact result [z]. *)
Definition wrap64 (z : Z) : Z := (z + 2 ^ 63) mod 2 ^ 64 - 2 ^ 63.

Definition maxInt64 : Z := 2 ^ 63 - 1.
Definition minInt64 : Z := - 2 ^ 63.

Section pool.
(** [*transcoder.GRPCInvoker], a connection the pool only hands out. *)
Context {Invoker : Type}.

(** A value of [invokers] is a pointer: [None] is the nil pointer. *)
Record ServicePool := {
  serviceName : string;
  invokers : gmap string (option Invoker);
  instances : list ServiceInstance;
  counter : Z
}.

Definition setCounter (pool : ServicePool) (c : Z) : ServicePool :=
  {| serviceName := serviceName pool; invokers := invokers pool;
     instances := instances pool; counter := c |}.

(** What a call ends in: the two results of the source, and the run-time
    panic of an index expression out of range. *)
Inductive outcome :=
| Found (inv : Invoker)
| ErrNoInstances                 (* no available instances *)
| ErrNoInvoker (service : string) (* no invoker available for service %s *)
| PanicIndex (idx : Z).           (* index out of range *)

(** [invoker, ok := pool.invokers[addr]; ok && invoker != nil] *)
Definition liveInvoker (pool : ServicePool) (addr : string) : option Invoker :=
  match invokers pool !! addr with
  | Some (Some inv) => Some inv
  | _ => None
  end.

(** [int((start + int64(i)) % int64(n))]: [%] truncates towards zero. *)
Definition slot (start : Z) (n : nat) (i : nat) : Z :=
  Z.rem (wrap64 (start + Z.of_nat i)) (Z.of_nat n).

(** [pool.instances[idx]] *)
Definition instanceAt (pool : ServicePool) (idx : Z) : option ServiceInstance :=
  if (0 <=? idx) && (idx <? Z.of_nat (length (instances pool)))
  then instances pool !! Z.to_nat idx else None.

(** The loop [for i := range n] over the remaining values of [i]. The
    first component logs every [idx] the loop computes, in order. *)
Fixpoint scan (pool : ServicePool) (start : Z) (n : nat) (ixs : list nat)
  : list Z * outcome :=
  match ixs with
  | [] => ([], ErrNoInvoker (serviceName pool))
  | i :: rest =>
      let idx := slot start n i in
      match instanceAt pool idx with
      | None => ([idx], PanicIndex idx)
      | Some instance =>
          match liveInvoker pool (Addr instance) with
          | Some inv => ([idx], Found inv)
          | None =>
              let '(visited, out) := scan pool start n rest in
              (idx :: visited, out)
          end
      end
  end.

(** [getNextInvoker]: the pool after the call (its counter moves), the
    indices visited and the outcome. *)
Definition getNextInvoker (pool : ServicePool) : ServicePool * (list Z * outcome) :=
  match instances pool with
  | [] => (pool, ([], ErrNoInstances))
  | _ =>
      let start := wrap64 (counter pool + 1) in
      let n := length (instances pool) in
      (setCounter pool start, scan (setCounter pool start) start n (seq 0 n))
  end.

(** The invoker a visit of index [idx] finds: the instance in that slot
    and a live invoker under its address. *)
Definition liveAt (pool : ServicePool) (idx : Z) : option Invoker :=
  match instanceAt pool idx with
  | Some instance => liveInvoker pool (Addr instance)
  | None => None
  end.

(** The order of the specification for a counter that holds [c] when the
    call starts: [(c+1) mod n, ..., (c+n) mod n]. *)
Definition visitOrder (c : Z) (n : nat) : list Z :=
  (λ i, (c + Z.of_nat i) mod Z.of_nat n) <$> seq 1 n.

End pool.
Arguments ServicePool : clear implicits.
Arguments outcome : clear implicits.
End Pool.

(** ** The request pipeline's error mapping (package router) *)
Module Pipeline.

(** [codes.Code], a [uint32]. *)
Definition Code := Z.
Definition OK : Code := 0.
Definition Canceled : Code := 1.
Definition Unknown : Code := 2.
Definition InvalidArgument : Code := 3.
Definition DeadlineExceeded : Code := 4.
Definition NotFound : Code := 5.
Definition AlreadyExists : Code := 6.
Definition PermissionDenied : Code := 7.
Definition ResourceExhausted : Code := 8.
Definition FailedPrecondition : Code := 9.
Definition Aborted : Code := 10.
Definition OutOfRange : Code := 11.
Definition Unimplemented : Code := 12.
Definition Internal : Code := 13.
Definition Unavailable : Code := 14.
Definition DataLoss : Code := 15.
Definition Unauthenticated : Code := 16.

(** The [net/http] status constants the mapping names. *)
Definition StatusOK : Z := 200.
Definition StatusBadRequest : Z := 400.
Definition StatusUnauthorized : Z := 401.
Definition StatusForbidden : Z := 403.
Definition StatusNotFound : Z := 404.
Definition StatusRequestTimeout : Z := 408.
Definition StatusConflict : Z := 409.
Definition StatusTooManyRequests : Z := 429.
Definition StatusInternalServerError : Z := 500.
Definition StatusNotImplemented : Z := 501.
Definition StatusServiceUnavailable : Z := 503.

(** A non-nil [error] as [status.FromError] tells them apart: one that
    carries a gRPC status, with its code and message, and any other, with
    the text of [err.Error()]. *)
Inductive error :=
| StatusError (code : Code) (message : string)
| PlainError (text : string).

(** [Result]; [Data] is an [any], [None] for nil. *)
Record Result {D : Type} := {
  ResCode : Z;
  Msg : string;
  Data : option D
}.
Arguments Result : clear implicits.

(** [mapGRPCCodeToHTTP] *)
Definition mapGRPCCodeToHTTP (code : Code) : Z :=
  if code =? OK then StatusOK
  else if code =? Canceled then StatusRequestTimeout
  else if code =? Unknown then StatusInternalServerError
  else if code =? InvalidArgument then StatusBadRequest
  else if code =? DeadlineExceeded then StatusRequestTimeout
  else if code =? NotFound then StatusNotFound
  else if code =? AlreadyExists then StatusConflict
  else if code =? PermissionDenied then StatusForbidden
  else if code =? ResourceExhausted then StatusTooManyRequests
  else if code =? FailedPrecondition then StatusBadRequest
  else if code =? Aborted then StatusConflict
  else if code =? OutOfRange then StatusBadRequest
  else if code =? Unimplemented then StatusNotImplemented
  else if code =? Internal then StatusInternalServerError
  else if code =? Unavailable then StatusServiceUnavailable
  else if code =? DataLoss then StatusInternalServerError
  else if code =? Unauthenticated then StatusUnauthorized
  else StatusOK.

(** The gRPC-to-HTTP table of the specification, row by row; a code that
    is in no row maps to 200. *)
Definition statusTable : list (Code * Z) :=
  [ (OK, 200);
    (Canceled, 408); (DeadlineExceeded, 408);
    (InvalidArgument, 400); (FailedPrecondition, 400); (OutOfRange, 400);
    (NotFound, 404);
    (AlreadyExists, 409); (Aborted, 409);
    (PermissionDenied, 403);
    (Unauthenticated, 401);
    (ResourceExhausted, 429);
    (Unimplemented, 501);
    (Unknown, 500); (Internal, 500); (DataLoss, 500);
    (Unavailable, 503) ].

Definition tableStatus (code : Code) : Z :=
  match list_find (λ row, row.1 = code) statusTable with
  | Some (_, row) => row.2
  | None => 200
  end.

(** [mapErrorToHTTP] *)
Definition mapErrorToHTTP {D : Type} (err : error) : Z * Result D :=
  match err with
  | StatusError code message =>
      (mapGRPCCodeToHTTP code, {| ResCode := code; Msg := message; Data := None |})
  | PlainError text =>
      (StatusInternalServerError, {| ResCode := -1; Msg := text; Data := None |})
  end.

End Pipeline.

(** ** The transcoder's payload composition (package transcoder) *)
Module Transcoder.

Section compose.
(** Go's [float64], the type JSON numbers decode to. *)
Context {float64 : Type}.

(** The values an [any] of the request map holds: the strings and string
    slices the function stores itself, and what the decoder produces. *)
Inductive any :=
| ANil
| ABool (b : bool)
| ANumber (x : float64)
| AString (s : string)
| AStrings (l : list string)
| AList (l : list any)
| AObject (m : gmap string any).

(** The parts of [*http.Request] the function reads: the method, the
    parsed [URL.Query()] and what [io.ReadAll(r.Body)] returns, [None]
    for a read error. *)
Record Request := {
  Method : string;
  Query : gmap string (list string);
  Body : option string
}.

Inductive error :=
| ErrReadBody      (* failed to read body *)
| ErrUnmarshalBody (* failed to unmarshal body *)
| ErrMarshal.      (* the encoder's own error *)

(** The JSON library: [sonic.Unmarshal] into a [map[string]any] and into
    an [any], and [sonic.Marshal] of the request map. *)
Variable unmarshalObject : string → option (gmap string any).
Variable unmarshalAny : string → option any.
Variable marshal : gmap string any → option string.

(** [if len(values) == 1 { values[0] } else { values }] *)
Definition queryValue (values : list string) : any :=
  match values with
  | [v] => AString v
  | _ => AStrings values
  end.

(** [for key, value := range m { requestMap[key] = f(value) }] *)
Definition assignAll {A : Type} (f : A → any) (m : gmap string A)
    (requestMap : gmap string any) : gmap string any :=
  map_fold (λ key value acc, <[key := f value]> acc) requestMap m.

Definition finish (requestMap : gmap string any) : string + error :=
  match marshal requestMap with
  | Some bytes => inl bytes
  | None => inr ErrMarshal
  end.

(** [BuildRequestJSON] *)
Definition BuildRequestJSON (r : Request) (pathParams : gmap string string)
    (bodyField : string) : string + error :=
  let requestMap := assignAll AString pathParams ∅ in
  let requestMap := assignAll queryValue (Query r) requestMap in
  if negb (bool_decide (Method r = "GET")) && negb (bool_decide (Method r = "DELETE"))
  then
    match Body r with
    | None => inr ErrReadBody
    | Some body =>
        if (0 <? String.length body)%nat then
          if bool_decide (bodyField = "*") then
            match unmarshalObject body with
            | None => inr ErrUnmarshalBody
            | Some bodyMap => finish (assignAll id bodyMap requestMap)
            end
          else if negb (bool_decide (bodyField = "")) then
            match unmarshalAny body with
            | None => inr ErrUnmarshalBody
            | Some bodyData => finish (<[bodyField := bodyData]> requestMap)
            end
          else finish requestMap
        else finish requestMap
    end
  else finish requestMap.

(** The composition rules in the specification's words: path parameters
    as strings, query parameters over them, and for a method other than
    GET and DELETE with a non-empty body, the body merged over both
    ([*]), nested under its field, or ignored. *)
Definition pathLayer (pathParams : gmap string string) : gmap string any :=
  AString <$> pathParams.

Definition queryLayer (r : Request) : gmap string any := queryValue <$> Query r.

Definition payloadRules (r : Request) (pathParams : gmap string string)
    (bodyField : string) : gmap string any + error :=
  let base := queryLayer r ∪ pathLayer pathParams in
  if bool_decide (Method r = "GET" ∨ Method r = "DELETE") then inl base
  else match Body r with
       | None => inr ErrReadBody
       | Some "" => inl base
       | Some body =>
           if bool_decide (bodyField = "*") then
             match unmarshalObject body with
             | Some bodyMap => inl (bodyMap ∪ base)
             | None => inr ErrUnmarshalBody
             end
           else if bool_decide (bodyField = "") then inl base
           else match unmarshalAny body with
                | Some bodyData => inl (<[bodyField := bodyData]> base)
                | None => inr ErrUnmarshalBody
                end
       end.

End compose.
Arguments any : clear implicits.
Arguments Request : clear implicits.
End Transcoder.

(** ** The discovery watcher (package discovery) *)
Module Discovery.
Import GoStrings.

Inductive EventType := EventAdd | EventDelete | EventUpdate.

(** The two kinds of a [clientv3.Event]. *)
Inductive StoreEventType := EventTypePut | EventTypeDelete.

(** [clientv3.Event]: its type, [Kv.Key] and [Kv.Value]. *)
Record StoreEvent := {
  evType : StoreEventType;
  evKey : string;
  evValue : string
}.

Section watcher.
(** [descriptorpb.FileDescriptorSet] *)
Context {FileDescriptorSet : Type}.

Record ServiceMetadata := {
  ServiceName : string;
  Descriptor : option FileDescriptorSet;
  DescriptorData : string;
  Version : string;
  Metadata : gmap string string
}.

(** [ServiceInfo] embeds a [*ServiceMetadata]; every value the watcher
    builds has it set. *)
Record ServiceInfo := {
  Meta : ServiceMetadata;
  Instances : list Pool.ServiceInstance
}.

Record ServiceEvent := {
  Type_ : EventType;
  Service : ServiceInfo
}.

(** The watcher's mirrors and flags. The channel [eventChan] is the list
    of events a handler returns, in the order it sends them. *)
Record Watcher := {
  serviceMetadataPrefix : string;
  serviceDiscoveryPrefix : string;
  metadataMap : gmap string ServiceMetadata;
  instancesMap : gmap string (list Pool.ServiceInstance);
  initialLoading : bool
}.

Definition setMetadataMap (w : Watcher) (m : gmap string ServiceMetadata) : Watcher :=
  {| serviceMetadataPrefix := serviceMetadataPrefix w;
     serviceDiscoveryPrefix := serviceDiscoveryPrefix w;
     metadataMap := m;
     instancesMap := instancesMap w;
     initialLoading := initialLoading w |}.

(** [json.Unmarshal] into a [ServiceMetadata] (the field [Descriptor] is
    tagged ["-"] and stays nil) and [proto.Unmarshal] of the descriptor
    bytes; [None] for an error. *)
Variable jsonUnmarshal : string → option ServiceMetadata.
Variable protoUnmarshal : string → option FileDescriptorSet.

Definition setDescriptor (m : ServiceMetadata) (d : option FileDescriptorSet)
  : ServiceMetadata :=
  {| ServiceName := ServiceName m; Descriptor := d;
     DescriptorData := DescriptorData m; Version := Version m;
     Metadata := Metadata m |}.

(** [parseServiceMetadata] *)
Definition parseServiceMetadata (data : string) : option ServiceMetadata :=
  match jsonUnmarshal data with
  | None => None
  | Some metadata =>
      if (0 <? String.length (DescriptorData metadata))%nat then
        match protoUnmarshal (DescriptorData metadata) with
        | None => None
        | Some fds => Some (setDescriptor metadata (Some fds))
        end
      else Some metadata
  end.

(** [extractServiceNameFromMetadata] *)
Definition extractServiceNameFromMetadata (w : Watcher) (key : string) : string :=
  if negb (HasPrefix key (serviceMetadataPrefix w)) then EmptyString
  else
    let n := String.length (serviceMetadataPrefix w) in
    TrimSuffixSlash (String.substring n (String.length key - n) key).

(** [instances := w.instancesMap[serviceName]], a nil slice made empty. *)
Definition instancesOf (w : Watcher) (serviceName : string) : list Pool.ServiceInstance :=
  default [] (instancesMap w !! serviceName).

(** [handleMetadataEvent]: the watcher after the call and the events
    sent on the channel. *)
Definition handleMetadataEvent (w : Watcher) (event : StoreEvent)
  : Watcher * list ServiceEvent :=
  let serviceName := extractServiceNameFromMetadata w (evKey event) in
  if bool_decide (serviceName = EmptyString) then (w, [])
  else match evType event with
       | EventTypePut =>
           match parseServiceMetadata (evValue event) with
           | None => (w, [])
           | Some metadata =>
               let w' := setMetadataMap w (<[serviceName := metadata]> (metadataMap w)) in
               let serviceInfo :=
                 {| Meta := metadata; Instances := instancesOf w serviceName |} in
               if initialLoading w then (w', [])
               else (w', [ {| Type_ := EventUpdate; Service := serviceInfo |} ])
           end
       | EventTypeDelete =>
           match metadataMap w !! serviceName with
           | None => (w, [])
           | Some metadata =>
               let w' := setMetadataMap w (delete serviceName (metadataMap w)) in
               let instances := instancesOf w serviceName in
               if (length instances =? 0)%nat
               then (w', [ {| Type_ := EventDelete;
                              Service := {| Meta := metadata; Instances := instances |} |} ])
               else (w', [])
           end
       end.

End watcher.
Arguments ServiceMetadata : clear implicits.
Arguments ServiceInfo : clear implicits.
Arguments ServiceEvent : clear implicits.
Arguments Watcher : clear implicits.
End Discovery.

(** ** The route registry (package router, type [HTTPRouter]) *)
Module Router.
Import GoStrings.

(** [transcoder.HTTPRule] *)
Record HTTPRule := {
  RuleMethod : string;
  RulePath : string;
  RuleBody : string
}.

Inductive error := ErrInvalidServiceInfo. (* invalid service info *)

Section router.
Context {FileDescriptorSet Invoker : Type}.
(** The descriptors of [protoreflect/desc] and what the registry reads
    from them. *)
Context {FileDescriptor ServiceDescriptor MethodDescriptor : Type}.
Variable GetServices : FileDescriptor → list ServiceDescriptor.
Variable GetMethods : ServiceDescriptor → list MethodDescriptor.
Variable GetFullyQualifiedName : ServiceDescriptor → string.
Variable GetName : MethodDescriptor → string.
(** [transcoder.ExtractHTTPRules], [None] for its error. *)
Variable ExtractHTTPRules : MethodDescriptor → option (list HTTPRule).
(** [transcoder.NewGRPCInvoker], [None] for its error. *)
Variable NewGRPCInvoker :
  string → option FileDescriptorSet → option (Invoker * list FileDescriptor).
(** [strings.TrimSpace], [strings.ToUpper] and [path.Clean]. *)
Variable TrimSpace : string → string.
Variable ToUpper : string → string.
Variable pathClean : string → string.

Record Route := {
  ServiceName : string;
  MethodName : string;
  FullMethod : string;
  MethodDesc : MethodDescriptor;
  HttpRule : HTTPRule
}.

(** The tree stores [*Route]; the routes are never mutated, so they are
    stored by value. *)
Record HTTPRouter := {
  routerTree : RouteTree.node Route;
  servicePools : gmap string (Pool.ServicePool Invoker);
  routeIndex : gmap string (gset string);
  pathIndex : gset string
}.

(** [NewHTTPRouter] *)
Definition NewHTTPRouter : HTTPRouter :=
  {| routerTree := RouteTree.NewRouteTree; servicePools := ∅;
     routeIndex := ∅; pathIndex := ∅ |}.

(** [normalizePath] *)
Definition normalizePath (method p : string) : string :=
  let m := ToUpper (TrimSpace method) in
  let clean := TrimSpace p in
  let clean := TrimPrefix clean "/" in
  let clean := pathClean ("/" +:+ clean) in
  "/[" +:+ m +:+ "]" +:+ clean.

(** [service == nil || strings.TrimSpace(service.ServiceName) == ""] *)
Definition invalidService (service : option (Discovery.ServiceInfo FileDescriptorSet))
  : bool :=
  match service with
  | None => true
  | Some info =>
      bool_decide (TrimSpace (Discovery.ServiceName (Discovery.Meta info)) = EmptyString)
  end.

(** The [&Route{...}] that [RegisterService] inserts for a rule. *)
Definition routeOf (serviceName : string) (svc : ServiceDescriptor)
    (method : MethodDescriptor) (httpRule : HTTPRule) : Route :=
  {| ServiceName := serviceName;
     MethodName := GetName method;
     FullMethod := GetFullyQualifiedName svc +:+ "/" +:+ GetName method;
     MethodDesc := method;
     HttpRule := httpRule |}.

(** The body of the innermost loop of [RegisterService], one rule of one
    method: skip a key the path index has, else insert the route and, on
    success only, record the key in both indexes. *)
Definition registerRule (serviceName : string) (svc : ServiceDescriptor)
    (method : MethodDescriptor) (r : HTTPRouter) (httpRule : HTTPRule) : HTTPRouter :=
  let pathKey := normalizePath (RuleMethod httpRule) (RulePath httpRule) in
  if bool_decide (pathKey ∈ pathIndex r) then r
  else
    match RouteTree.Insert pathKey (routeOf serviceName svc method httpRule)
                           (routerTree r) with
    | (tree, Some _) =>
        {| routerTree := tree; servicePools := servicePools r;
           routeIndex := routeIndex r; pathIndex := pathIndex r |}
    | (tree, None) =>
        {| routerTree := tree; servicePools := servicePools r;
           routeIndex :=
             <[serviceName := {[pathKey]} ∪ default ∅ (routeIndex r !! serviceName)]>
               (routeIndex r);
           pathIndex := {[pathKey]} ∪ pathIndex r |}
    end.

Definition registerMethod (serviceName : string) (svc : ServiceDescriptor)
    (r : HTTPRouter) (method : MethodDescriptor) : HTTPRouter :=
  match ExtractHTTPRules method with
  | None => r
  | Some httpRules => foldl (registerRule serviceName svc method) r httpRules
  end.

Definition registerRoutes (serviceName : string) (r : HTTPRouter)
    (fileDescs : list FileDescriptor) : HTTPRouter :=
  foldl (λ r fileDesc,
           foldl (λ r svc, foldl (registerMethod serviceName svc) r (GetMethods svc))
                 r (GetServices fileDesc))
        r fileDescs.

(** The loop that builds the missing invokers: the map [created] and
    [firstFileDescs], nil as the empty list. *)
Definition createInvokers (need : bool) (descriptor : option FileDescriptorSet)
    (toCreate : list Pool.ServiceInstance)
  : gmap string (option Invoker) * list FileDescriptor :=
  foldl (λ '(created, firstFileDescs) inst,
           match NewGRPCInvoker (Pool.Addr inst) descriptor with
           | None => (created, firstFileDescs)
           | Some (invoker, fileDescs) =>
               (<[Pool.Addr inst := Some invoker]> created,
                if need && bool_decide (firstFileDescs = [] :> list FileDescriptor)
                   && (0 <? length fileDescs)%nat
                then fileDescs else firstFileDescs)
           end)
        (∅, []) toCreate.

(** [RegisterService]: the registry after the call and the error. The
    [Close] of an unlinked invoker acts on its connection alone. *)
Definition RegisterService (r : HTTPRouter)
    (service : option (Discovery.ServiceInfo FileDescriptorSet))
  : HTTPRouter * option error :=
  match service with
  | None => (r, Some ErrInvalidServiceInfo)
  | Some info =>
      if invalidService service then (r, Some ErrInvalidServiceInfo)
      else
        let serviceName := Discovery.ServiceName (Discovery.Meta info) in
        let pool :=
          default {| Pool.serviceName := serviceName; Pool.invokers := ∅;
                     Pool.instances := []; Pool.counter := 0 |}
                  (servicePools r !! serviceName) in
        let needRouteRegistration :=
          (size (default ∅ (routeIndex r !! serviceName)) =? 0)%nat in
        let addrSet : gset string :=
          list_to_set (Pool.Addr <$> Discovery.Instances info) in
        let toCreate :=
          filter (λ inst, Pool.invokers pool !! Pool.Addr inst = None)
                 (Discovery.Instances info) in
        let '(created, firstFileDescs) :=
          createInvokers needRouteRegistration
                         (Discovery.Descriptor (Discovery.Meta info)) toCreate in
        let pool' :=
          {| Pool.serviceName := Pool.serviceName pool;
             Pool.invokers :=
               filter (λ kv, kv.1 ∈ addrSet) (created ∪ Pool.invokers pool);
             Pool.instances := Discovery.Instances info;
             Pool.counter := Pool.counter pool |} in
        let r1 :=
          {| routerTree := routerTree r;
             servicePools := <[serviceName := pool']> (servicePools r);
             routeIndex := routeIndex r; pathIndex := pathIndex r |} in
        if needRouteRegistration then
          if (length firstFileDescs =? 0)%nat then (r1, None)
          else (registerRoutes serviceName r1 firstFileDescs, None)
        else (r1, None)
  end.

(** The body of the loop of [UnRegisterService] over the keys of the
    service. *)
Definition dropRoute (r : HTTPRouter) (pathKey : string) : HTTPRouter :=
  {| routerTree := (RouteTree.Delete pathKey (routerTree r)).1;
     servicePools := servicePools r;
     routeIndex := routeIndex r;
     pathIndex := pathIndex r ∖ {[pathKey]} |}.

(** [pathsSet := r.routeIndex[serviceName]] *)
Definition pathsOf (r : HTTPRouter) (serviceName : string) : gset string :=
  default ∅ (routeIndex r !! serviceName).

(** [UnRegisterService]. [order] is the order in which the [range]
    statement yields the keys of [pathsSet], which Go leaves open: the
    callers take any list with the elements of [pathsSet]. The pool
    that is dropped from the map is emptied and its invokers closed,
    which no longer shows in the registry. *)
Definition UnRegisterService (order : list string) (r : HTTPRouter)
    (service : option (Discovery.ServiceInfo FileDescriptorSet))
  : HTTPRouter * option error :=
  match service with
  | None => (r, Some ErrInvalidServiceInfo)
  | Some info =>
      if invalidService service then (r, Some ErrInvalidServiceInfo)
      else
        let serviceName := Discovery.ServiceName (Discovery.Meta info) in
        let r1 := foldl dropRoute r order in
        ({| routerTree := routerTree r1;
            servicePools := delete serviceName (servicePools r1);
            routeIndex := delete serviceName (routeIndex r1);
            pathIndex := pathIndex r1 |}, None)
  end.

End router.
Arguments Route : clear implicits.
Arguments HTTPRouter : clear implicits.
End Router.

(** ** The route tree, continued: [Update] and the shape of reached trees *)
Module RouteTreeMore.
Import GoStrings RouteTree.

Section more.
Context {T : Type}.

(** The end of [Update]: [updater] on the value of the node reached. *)
Definition updateValue (updater : T → T * bool) (cur : node T) : node T * bool :=
  match value cur with
  | None => (cur, false)
  | Some old =>
      let '(newVal, apply) := updater old in
      if apply then (setValue cur (Some newVal) (fullPath cur), true) else (cur, false)
  end.

(** The walk of [Update] over the segments and the assignment
    [*cur.value = newVal] at its end, which is rebuilt into the parents of
    the node as the tree is embedded by value. *)
Fixpoint updateSegs (updater : T → T * bool) (segs : list string) (cur : node T)
  : node T * bool :=
  match segs with
  | [] => updateValue updater cur
  | seg :: rest =>
      if bool_decide (seg = EmptyString) then updateSegs updater rest cur
      else match children cur !! seg with
           | Some c =>
               let '(c', ok) := updateSegs updater rest c in
               (setChildren cur (<[seg := c']> (children cur)), ok)
           | None =>
               match paramChild cur with
               | Some pc =>
                   let '(pc', ok) := updateSegs updater rest pc in
                   (setParamChild cur (Some pc'), ok)
               | None =>
                   match wildChild cur with
                   | Some wc =>
                       let '(wc', ok) := updateValue updater wc in
                       (setWildChild cur (Some wc'), ok)
                   | None => (cur, false)
                   end
               end
           end
  end.

(** [Update] *)
Definition Update (path : string) (updater : T → T * bool) (t : node T) : node T * bool :=
  if badPath path then (t, false) else updateSegs updater (splitPath path) t.

(** A property of every node of a tree. *)
Definition allNodes (P : node T → Prop) (t : node T) : Prop :=
  ∀ p n, nodeAt p t = Some n → P n.

(** How a node and its children are linked: a node without a value has no
    full path; a parameter child and a wildcard child exclude each other; a wildcard child is a leaf of type
    [Wildcard] with the segment of its name; a parameter child has type
    [Param] and the segment of its name; a static child has type [Static]
    and is stored under its own segment, which starts with neither ':'
    nor '*'. *)
Definition linksOk (n : node T) : Prop :=
  (value n = None → fullPath n = EmptyString)
  ∧ (is_Some (paramChild n) → wildChild n = None)
  ∧ (∀ wc, wildChild n = Some wc →
       children wc = ∅ ∧ paramChild wc = None ∧ wildChild wc = None
       ∧ typeOf wc = Wildcard ∧ segment wc = String star (wildName wc)
       ∧ wildName wc ≠ EmptyString)
  ∧ (∀ pc, paramChild n = Some pc →
       typeOf pc = Param ∧ segment pc = String colon (paramName pc)
       ∧ paramName pc ≠ EmptyString)
  ∧ (∀ key c, children n !! key = Some c →
       typeOf c = Static ∧ segment c = key ∧ key ≠ EmptyString
       ∧ headIs colon key = false ∧ headIs star key = false).

(** The fields of a node that no operation changes. *)
Definition sameHead (a b : node T) : Prop :=
  segment a = segment b ∧ typeOf a = typeOf b
  ∧ paramName a = paramName b ∧ wildName a = wildName b.

(** The trees that calls of [Insert], accepted or refused, and calls of
    [Delete] and [Update] reach from the empty tree. *)
Inductive reached : node T → Prop :=
| reached_new : reached NewRouteTree
| reached_insert (t : node T) (path : string) (val : T) :
    reached t → reached (Insert path val t).1
| reached_delete (t : node T) (path : string) :
    reached t → reached (Delete path t).1
| reached_update (t : node T) (path : string) (updater : T → T * bool) :
    reached t → reached (Update path updater t).1.

(** The segments of a path that a walk reads next: the empty ones in
    front are skipped. *)
Fixpoint dropEmpty (segs : list string) : list string :=
  match segs with
  | seg :: rest => if bool_decide (seg = EmptyString) then dropEmpty rest else segs
  | [] => []
  end.

(** The segments [segs] of a path instantiate the segments [pat] of a
    route pattern: a static segment stands for itself, a parameter for
    any one segment, a wildcard for all the segments that are left, which
    must start with a segment that is not empty. The result is [params]
    with the parameters bound, [None] when the path is no instance. *)
Fixpoint bind (pat segs : list string) (params : gmap string string)
  : option (gmap string string) :=
  match pat with
  | [] => match dropEmpty segs with [] => Some params | _ => None end
  | p :: pat' =>
      if bool_decide (p = EmptyString) then bind pat' segs params
      else match dropEmpty segs with
           | [] => None
           | seg :: rest =>
               if headIs colon p then bind pat' rest (<[tail1 p := seg]> params)
               else if headIs star p then Some (<[tail1 p := Join (seg :: rest)]> params)
               else if bool_decide (seg = p) then bind pat' rest params
               else None
           end
  end.

(** What [Lookup] finds at the end of its walk. *)
Definition found (r : option (node T * gmap string string))
  : option (T * gmap string string) :=
  match r with
  | Some (n, params) =>
      match value n with
      | Some v => Some (v, params)
      | None => None
      end
  | None => None
  end.

(** The link that [Insert] follows for the segment [seg]. *)
Definition edgeOf (seg : string) : edge :=
  if headIs colon seg then EParam
  else if headIs star seg then EWild
  else EStatic seg.

(** The links from the root to the node that [Insert] assigns to the
    segments [segs]. *)
Fixpoint addrOf (segs : list string) : list edge :=
  match segs with
  | [] => []
  | seg :: rest =>
      if bool_decide (seg = EmptyString) then addrOf rest else edgeOf seg :: addrOf rest
  end.

(** The links that the walk of [Lookup], [Update] and [Delete] follows
    for the segments [segs]: static before parameter before wildcard. *)
Fixpoint walk (segs : list string) (cur : node T) : option (list edge) :=
  match segs with
  | [] => Some []
  | seg :: rest =>
      if bool_decide (seg = EmptyString) then walk rest cur
      else match children cur !! seg with
           | Some c => cons (EStatic seg) <$> walk rest c
           | None =>
               match paramChild cur with
               | Some pc => cons EParam <$> walk rest pc
               | None =>
                   match wildChild cur with
                   | Some wc => Some [EWild]
                   | None => None
                   end
               end
           end
  end.

(** The value that the tree stores at the end of the links [q], [None]
    when there is no such node or the node has no value. *)
Definition valueAt (q : list edge) (t : node T) : option T :=
  match nodeAt q t with
  | Some n => value n
  | None => None
  end.

End more.

#[global] Instance edge_eq_dec : EqDecision edge.
Proof. solve_decision. Defined.

End RouteTreeMore.

(** ** The service pool, continued: successive calls *)
Module PoolMore.
Import Pool.

Section more.
Context {Invoker : Type}.

(** [k] calls of [getNextInvoker] on the same pool, one after the other:
    each call starts from the counter the call before it has left. *)
Fixpoint calls (k : nat) (pool : ServicePool Invoker) : list (outcome Invoker) :=
  match k with
  | O => []
  | S k' =>
      let '(pool', (_, out)) := getNextInvoker pool in
      out :: calls k' pool'
  end.

End more.
End PoolMore.

(** ** The discovery watcher, continued: instances, loading, [GetService] *)
Module DiscoveryMore.
Import GoStrings Discovery.

(** [strings.Split(s, sep)] for a separator of one byte. *)
Fixpoint SplitOn (sep : ascii) (s : string) : list string :=
  match s with
  | String a r =>
      if bool_decide (a = sep) then EmptyString :: SplitOn sep r
      else match SplitOn sep r with
           | h :: t => String a h :: t
           | [] => [String a EmptyString]
           end
  | EmptyString => [EmptyString]
  end.

(** [s] has no byte [c]. *)
Fixpoint without (c : ascii) (s : string) : Prop :=
  match s with
  | String a r => a ≠ c ∧ without c r
  | EmptyString => True
  end.

Inductive error :=
| ErrGetMetadata    (* failed to get service metadata *)
| ErrGetInstances.  (* failed to get service instances *)

Section watcher.
Context {FileDescriptorSet : Type}.
Variable jsonUnmarshal : string → option (ServiceMetadata FileDescriptorSet).
Variable protoUnmarshal : string → option FileDescriptorSet.
(** [fmt.Sscanf(s, "%d", &port)]: the number read, [None] for an error. *)
Variable scanInt : string → option Z.

#[local] Abbreviation Watcher := (Watcher FileDescriptorSet).
#[local] Abbreviation ServiceEvent := (ServiceEvent FileDescriptorSet).
#[local] Abbreviation ServiceInfo := (ServiceInfo FileDescriptorSet).
#[local] Abbreviation ServiceMetadata := (ServiceMetadata FileDescriptorSet).

Definition setInstancesMap (w : Watcher)
    (m : gmap string (list Pool.ServiceInstance)) : Watcher :=
  {| serviceMetadataPrefix := serviceMetadataPrefix w;
     serviceDiscoveryPrefix := serviceDiscoveryPrefix w;
     metadataMap := metadataMap w;
     instancesMap := m;
     initialLoading := initialLoading w |}.

Definition setInitialLoading (w : Watcher) (b : bool) : Watcher :=
  {| serviceMetadataPrefix := serviceMetadataPrefix w;
     serviceDiscoveryPrefix := serviceDiscoveryPrefix w;
     metadataMap := metadataMap w;
     instancesMap := instancesMap w;
     initialLoading := b |}.

(** [parseServiceInstance]: [None] for the nil pointer. *)
Definition parseServiceInstance (value : string) : option Pool.ServiceInstance :=
  match SplitOn colon value with
  | [address; portText] =>
      match scanInt portText with
      | Some port =>
          Some {| Pool.Address := address; Pool.Port := port; Pool.Addr := value |}
      | None => None
      end
  | _ => None
  end.

(** [extractServiceNameFromInstance] *)
Definition extractServiceNameFromInstance (w : Watcher) (key : string) : string :=
  if negb (HasPrefix key (serviceDiscoveryPrefix w)) then EmptyString
  else
    let n := String.length (serviceDiscoveryPrefix w) in
    match Split (String.substring n (String.length key - n) key) with
    | part :: _ => part
    | [] => EmptyString
    end.

(** The loop of the Put case over [instances]: the first instance with
    the address of [instance] is replaced, [None] when there is none
    ([found] stays false). *)
Fixpoint replaceByAddr (instance : Pool.ServiceInstance)
    (instances : list Pool.ServiceInstance) : option (list Pool.ServiceInstance) :=
  match instances with
  | [] => None
  | inst :: rest =>
      if bool_decide (Pool.Addr inst = Pool.Addr instance) then Some (instance :: rest)
      else cons inst <$> replaceByAddr instance rest
  end.

(** [if !found { instances = append(instances, instance) }] *)
Definition upsert (instance : Pool.ServiceInstance)
    (instances : list Pool.ServiceInstance) : list Pool.ServiceInstance :=
  default (instances ++ [instance]) (replaceByAddr instance instances).

(** [handleInstanceEvent]. [get] is the answer of the store to the query
    [client.Get(ctx, key, WithPrefix())] of the Delete case: the values
    under the keys with that prefix, [None] for an error. *)
Definition handleInstanceEvent (get : string → option (list string))
    (w : Watcher) (event : StoreEvent) : Watcher * list ServiceEvent :=
  let serviceName := extractServiceNameFromInstance w (evKey event) in
  if bool_decide (serviceName = EmptyString) then (w, [])
  else match evType event with
       | EventTypePut =>
           match parseServiceInstance (evValue event) with
           | None => (w, [])
           | Some instance =>
               let instances := upsert instance (instancesOf w serviceName) in
               let w' := setInstancesMap w (<[serviceName := instances]> (instancesMap w)) in
               match metadataMap w !! serviceName with
               | None => (w', [])
               | Some metadata =>
                   if initialLoading w then (w', [])
                   else (w', [ {| Type_ := EventUpdate;
                                  Service := {| Meta := metadata;
                                                Instances := instances |} |} ])
               end
           end
       | EventTypeDelete =>
           match instancesMap w !! serviceName with
           | None => (w, [])
           | Some _ =>
               match get (serviceDiscoveryPrefix w +:+ serviceName +:+ "/") with
               | None => (w, [])
               | Some values =>
                   let newInstances := omap parseServiceInstance values in
                   let w' :=
                     setInstancesMap w (<[serviceName := newInstances]> (instancesMap w)) in
                   match metadataMap w !! serviceName with
                   | None => (w', [])
                   | Some metadata =>
                       let serviceInfo :=
                         {| Meta := metadata; Instances := newInstances |} in
                       if (length newInstances =? 0)%nat
                       then (w', [ {| Type_ := EventDelete; Service := serviceInfo |} ])
                       else if initialLoading w then (w', [])
                       else (w', [ {| Type_ := EventUpdate; Service := serviceInfo |} ])
                   end
               end
           end
       end.

(** [eventChan: make(chan *ServiceEvent, 100)] *)
Definition eventChanCapacity : nat := 100.

(** The sends [w.eventChan <- event] of a call that runs while nobody
    reads the channel, as during the loading, which the gateway runs
    before it starts to read. [buf] is what the channel holds. A send to a
    full channel blocks for good: the result is the channel and whether
    every send has returned. *)
Fixpoint sendAll (buf events : list ServiceEvent) : list ServiceEvent * bool :=
  match events with
  | [] => (buf, true)
  | event :: rest =>
      if (length buf <? eventChanCapacity)%nat then sendAll (buf ++ [event]) rest
      else (buf, false)
  end.

(** [for _, kv := range resp.Kvs { handle(&clientv3.Event{Type: Put, Kv: kv}) }]
    from the watcher [w] and the channel [buf]: the watcher and the
    channel after the loop, and whether the loop has come to its end
    ([false] when a handler blocks on its send). *)
Definition putAll (handle : Watcher → StoreEvent → Watcher * list ServiceEvent)
    (w : Watcher) (buf : list ServiceEvent) (kvs : list (string * string))
  : Watcher * list ServiceEvent * bool :=
  foldl (λ '(w, buf, running) kv,
           if running : bool then
             let '(w', events) :=
               handle w {| evType := EventTypePut; evKey := kv.1; evValue := kv.2 |} in
             let '(buf', sent) := sendAll buf events in
             (w', buf', sent)
           else (w, buf, false))
        (w, buf, true) kvs.

(** The event of the last loop of the loading for one entry of
    [metadataMap]. *)
Definition addEvent (w : Watcher) (entry : string * ServiceMetadata) : ServiceEvent :=
  {| Type_ := EventAdd;
     Service := {| Meta := entry.2; Instances := instancesOf w entry.1 |} |}.

(** How a call of the loading ends: it returns, with an error or with
    nil, or it blocks on a send and never returns. *)
Inductive loaded :=
| Returned (err : option error)
| Blocked.

(** [loadExistingServicesAndInstances], run from the watcher [w] while
    the channel holds [buf] and nobody reads it. [metadataKvs] and
    [instanceKvs] are the answers of the store to the two prefix queries,
    [None] for an error; [rangeOrder] is the order in which [range] yields
    the entries of [metadataMap], which Go leaves open. The result is the
    watcher and the channel when the call ends, and how it ends. *)
Definition loadExistingServicesAndInstances
    (get : string → option (list string))
    (rangeOrder : gmap string ServiceMetadata → list (string * ServiceMetadata))
    (metadataKvs instanceKvs : option (list (string * string)))
    (w : Watcher) (buf : list ServiceEvent) : Watcher * list ServiceEvent * loaded :=
  let w1 := setInitialLoading w true in
  match metadataKvs with
  | None => (w1, buf, Returned (Some ErrGetMetadata))
  | Some kvs =>
      let '(w2, buf2, running2) :=
        putAll (handleMetadataEvent jsonUnmarshal protoUnmarshal) w1 buf kvs in
      if negb running2 then (w2, buf2, Blocked)
      else match instanceKvs with
           | None => (w2, buf2, Returned (Some ErrGetInstances))
           | Some ikvs =>
               let '(w3, buf3, running3) := putAll (handleInstanceEvent get) w2 buf2 ikvs in
               if negb running3 then (w3, buf3, Blocked)
               else
                 let w4 := setInitialLoading w3 false in
                 let '(buf4, sent) :=
                   sendAll buf3 (addEvent w4 <$> rangeOrder (metadataMap w4)) in
                 (w4, buf4, if sent then Returned None else Blocked)
           end
  end.

(** [GetService]: [None] for the nil pointer. *)
Definition GetService (w : Watcher) (serviceName : string) : option ServiceInfo :=
  match metadataMap w !! serviceName, instancesMap w !! serviceName with
  | None, None => None
  | metadata, instances =>
      Some {| Meta := default {| ServiceName := serviceName; Descriptor := None;
                                 DescriptorData := EmptyString; Version := EmptyString;
                                 Metadata := ∅ |} metadata;
              Instances := default [] instances |}
  end.

(** The states of the mirrors that the handlers and the loading produce
    from a watcher that knows no service. *)
Inductive reachable : Watcher → Prop :=
| reachable_new (w : Watcher) :
    metadataMap w = ∅ → instancesMap w = ∅ → reachable w
| reachable_metadata (w : Watcher) (event : StoreEvent) :
    reachable w → reachable (handleMetadataEvent jsonUnmarshal protoUnmarshal w event).1
| reachable_instance (get : string → option (list string)) (w : Watcher)
    (event : StoreEvent) :
    reachable w → reachable (handleInstanceEvent get w event).1
| reachable_loading (w : Watcher) (b : bool) :
    reachable w → reachable (setInitialLoading w b).

End watcher.
End DiscoveryMore.

(** ** The gateway's event loop over the registry (package gateway) *)
Module RouterMore.
Import Router.

Section gateway.
Context {FileDescriptorSet Invoker : Type}.
Context {FileDescriptor ServiceDescriptor MethodDescriptor : Type}.
Variable GetServices : FileDescriptor → list ServiceDescriptor.
Variable GetMethods : ServiceDescriptor → list MethodDescriptor.
Variable GetFullyQualifiedName : ServiceDescriptor → string.
Variable GetName : MethodDescriptor → string.
Variable ExtractHTTPRules : MethodDescriptor → option (list HTTPRule).
Variable NewGRPCInvoker :
  string → option FileDescriptorSet → option (Invoker * list FileDescriptor).
Variable TrimSpace : string → string.
Variable ToUpper : string → string.
Variable pathClean : string → string.
(** The order in which [range] yields the keys of a path set. *)
Variable rangeOrder : gset string → list string.

#[local] Abbreviation router := (HTTPRouter Invoker MethodDescriptor).

(** [handleEvent]: Add and Update register the service, Delete
    unregisters it; an error is logged and dropped. *)
Definition handleEvent (r : router) (event : Discovery.ServiceEvent FileDescriptorSet)
  : router :=
  let service := Discovery.Service event in
  match Discovery.Type_ event with
  | Discovery.EventAdd | Discovery.EventUpdate =>
      (RegisterService GetServices GetMethods GetFullyQualifiedName GetName
         ExtractHTTPRules NewGRPCInvoker TrimSpace ToUpper pathClean r (Some service)).1
  | Discovery.EventDelete =>
      (UnRegisterService TrimSpace
         (rangeOrder (pathsOf r (Discovery.ServiceName (Discovery.Meta service))))
         r (Some service)).1
  end.

(** What a request does to the registry: [ServeHTTP] calls
    [getNextInvoker] on the pool of the matched route, which moves the
    counter of that pool. *)
Definition served (r : router) (serviceName : string) : router :=
  match servicePools r !! serviceName with
  | Some pool =>
      {| routerTree := routerTree r;
         servicePools := <[serviceName := (Pool.getNextInvoker pool).1]> (servicePools r);
         routeIndex := routeIndex r; pathIndex := pathIndex r |}
  | None => r
  end.

(** The registries of a running gateway: [processEvents] applies
    [handleEvent] to the events of the watcher, one after the other,
    starting from [NewHTTPRouter], and requests are served in between. *)
Inductive reachable : router → Prop :=
| reachable_new : reachable NewHTTPRouter
| reachable_event (r : router) (event : Discovery.ServiceEvent FileDescriptorSet) :
    reachable r → reachable (handleEvent r event)
| reachable_served (r : router) (serviceName : string) :
    reachable r → reachable (served r serviceName).

(** The two indexes agree: the path index holds the keys of the services'
    route sets and no others, and no key is in the sets of two services. *)
Definition indexOk (r : router) : Prop :=
  (∀ key, key ∈ pathIndex r ↔ ∃ serviceName, key ∈ pathsOf r serviceName)
  ∧ (∀ s1 s2 key, key ∈ pathsOf r s1 → key ∈ pathsOf r s2 → s1 = s2).

(** The rules that a service publishes: those that [ExtractHTTPRules]
    reads from a method of the descriptors that a connection to one of
    the instances of the service delivers. *)
Definition publishes (service : Discovery.ServiceInfo FileDescriptorSet)
    (rule : HTTPRule) : Prop :=
  ∃ inst invoker fileDescs fileDesc svc method rules,
    inst ∈ Discovery.Instances service
    ∧ NewGRPCInvoker (Pool.Addr inst) (Discovery.Descriptor (Discovery.Meta service))
      = Some (invoker, fileDescs)
    ∧ fileDesc ∈ fileDescs ∧ svc ∈ GetServices fileDesc ∧ method ∈ GetMethods svc
    ∧ ExtractHTTPRules method = Some rules ∧ rule ∈ rules.

(** The address in the tree of the node of a key. *)
Definition keyAddr (key : string) : list RouteTree.edge :=
  RouteTreeMore.addrOf (RouteTree.splitPath key).

(** The pool [RegisterService] starts from. *)
Definition poolOf (r : router) (serviceName : string) : Pool.ServicePool Invoker :=
  default {| Pool.serviceName := serviceName; Pool.invokers := ∅;
             Pool.instances := []; Pool.counter := 0 |}
          (servicePools r !! serviceName).

(** What the registration of the routes of [serviceName] may change in
    a registry: nothing of the pools and of the other services' route
    sets; the indexes grow and stay in agreement, and the tree stays a
    tree of [Insert], [Delete] and [Update] calls. *)
Definition grows (serviceName : string) (r r' : router) : Prop :=
  servicePools r' = servicePools r
  ∧ (∀ s, s ≠ serviceName → routeIndex r' !! s = routeIndex r !! s)
  ∧ pathIndex r ⊆ pathIndex r'
  ∧ pathsOf r serviceName ⊆ pathsOf r' serviceName
  ∧ (indexOk r → indexOk r')
  ∧ (RouteTreeMore.reached (routerTree r) → RouteTreeMore.reached (routerTree r')).

End gateway.
End RouterMore.

(** ** Reading the HTTP rules of a method (package transcoder) *)
Module HttpRules.
Import Router.

(** The oneof [Pattern] of [annotations.HttpRule]; a set [Custom] holds
    its [CustomHttpPattern]. *)
Inductive Pattern :=
| Get (path : string)
| Post (path : string)
| Put (path : string)
| Delete (path : string)
| Patch (path : string)
| Custom (kind path : string).

(** [annotations.HttpRule] as far as it is read: the pattern, [None] when
    the oneof is not set, the body and the additional bindings, which are
    pointers ([None] for nil). *)
Inductive HttpRule :=
| MkHttpRule (pattern : option Pattern) (body : string)
             (additionalBindings : list (option HttpRule)).

Definition GetPattern (rule : HttpRule) : option Pattern :=
  match rule with MkHttpRule pattern _ _ => pattern end.

Definition GetBody (rule : HttpRule) : string :=
  match rule with MkHttpRule _ body _ => body end.

Definition GetAdditionalBindings (rule : HttpRule) : list (option HttpRule) :=
  match rule with MkHttpRule _ _ additionalBindings => additionalBindings end.

(** [parseHTTPRule]: [None] for the error, [Some None] for [(nil, nil)]. *)
Definition parseHTTPRule (rule : option HttpRule) : option (option HTTPRule) :=
  match rule with
  | None => Some None
  | Some rule =>
      let httpRule (method path : string) :=
        Some (Some {| RuleMethod := method; RulePath := path; RuleBody := GetBody rule |}) in
      match GetPattern rule with
      | Some (Get path) => httpRule "GET" path
      | Some (Post path) => httpRule "POST" path
      | Some (Put path) => httpRule "PUT" path
      | Some (Delete path) => httpRule "DELETE" path
      | Some (Patch path) => httpRule "PATCH" path
      | Some (Custom kind path) => httpRule kind path
      | None => None
      end
  end.

(** The loop over [httpRule.AdditionalBindings], [rules] being the slice
    built so far. *)
Fixpoint appendBindings (rules : list HTTPRule) (bindings : list (option HttpRule))
  : option (list HTTPRule) :=
  match bindings with
  | [] => Some rules
  | additionalRule :: rest =>
      match parseHTTPRule additionalRule with
      | None => None
      | Some None => appendBindings rules rest
      | Some (Some rule) => appendBindings (rules ++ [rule]) rest
      end
  end.

Section extract.
Context {MethodDescriptor : Type}.
(** The [google.api.http] option of the method: [None] when the method
    has no options, the extension is not set, or it holds no rule. *)
Variable httpOption : MethodDescriptor → option HttpRule.

(** [ExtractHTTPRules]: [None] for the error, the empty list for nil. *)
Definition ExtractHTTPRules (method : MethodDescriptor) : option (list HTTPRule) :=
  match httpOption method with
  | None => Some []
  | Some httpRule =>
      match parseHTTPRule (Some httpRule) with
      | None => None
      | Some mainRule =>
          appendBindings (option_list mainRule) (GetAdditionalBindings httpRule)
      end
  end.

End extract.

(** The rule of one binding, [None] when its pattern is not set. *)
Definition bindingRule (rule : HttpRule) : option HTTPRule :=
  match GetPattern rule with
  | Some pattern =>
      Some {| RuleMethod := match pattern with
                            | Get _ => "GET" | Post _ => "POST" | Put _ => "PUT"
                            | Delete _ => "DELETE" | Patch _ => "PATCH"
                            | Custom kind _ => kind
                            end;
              RulePath := match pattern with
                          | Get path | Post path | Put path | Delete path | Patch path
                          | Custom _ path => path
                          end;
              RuleBody := GetBody rule |}
  | None => None
  end.

(** The bindings of a rule that are read: the rule itself and its
    additional bindings that are not nil, in order. *)
Definition bindingsOf (rule : HttpRule) : list HttpRule :=
  rule :: omap id (GetAdditionalBindings rule).

End HttpRules.

(** ** HTTP headers to gRPC metadata (package router) *)
Module Headers.

(** The headers that are never forwarded. *)
Definition blocked : gset string :=
  list_to_set
    [ ":authority"; ":method"; ":path"; ":scheme";
      "host"; "connection"; "keep-alive"; "proxy-connection";
      "transfer-encoding"; "upgrade"; "upgrade-insecure-requests";
      "content-length"; "content-type"; "user-agent";
      "accept"; "accept-encoding"; "accept-language"; "origin"; "referer";
      "te" ].

Section md.
(** [strings.ToLower] *)
Variable ToLower : string → string.

(** [metadata.MD] and [http.Header] *)
#[local] Abbreviation MD := (gmap string (list string)).

(** [md.Append(k, v)]: the key is lower-cased again, and [v] goes to the
    end of its values. *)
Definition Append (md : MD) (k v : string) : MD :=
  <[ToLower k := default [] (md !! ToLower k) ++ [v]]> md.

(** The body of the loop of [buildOutgoingMD] for one header. *)
Definition forward (md : MD) (header : string * list string) : MD :=
  let lk := ToLower header.1 in
  if bool_decide (lk ∈ blocked) then md
  else foldl (λ md v, Append md lk v) md header.2.

(** [buildOutgoingMD]. [order] is the order in which [range req.Header]
    yields the headers, which Go leaves open. *)
Definition buildOutgoingMD (order : list (string * list string)) : MD :=
  foldl forward ∅ order.

(** The values that [key] collects from the headers in [order]. *)
Definition collected (key : string) (order : list (string * list string)) : list string :=
  mjoin (snd <$> filter (λ header, ToLower header.1 = key ∧ key ∉ blocked) order).

End md.
End Headers.

(** ** Concrete states for the examples *)
Module Samples.

Definition instA : Pool.ServiceInstance :=
  {| Pool.Address := "10.0.0.1"; Pool.Port := 50051; Pool.Addr := "10.0.0.1:50051" |}.
Definition instB : Pool.ServiceInstance :=
  {| Pool.Address := "10.0.0.2"; Pool.Port := 50051; Pool.Addr := "10.0.0.2:50051" |}.
Definition instC : Pool.ServiceInstance :=
  {| Pool.Address := "10.0.0.3"; Pool.Port := 50051; Pool.Addr := "10.0.0.3:50051" |}.

(** Invokers are named by a number in the examples. *)
Definition poolAB (c : Z) : Pool.ServicePool nat :=
  {| Pool.serviceName := "user";
     Pool.invokers := {[ "10.0.0.1:50051" := Some 1%nat; "10.0.0.2:50051" := Some 2%nat ]};
     Pool.instances := [instA; instB];
     Pool.counter := c |}.

Definition poolABC (c : Z) : Pool.ServicePool nat :=
  {| Pool.serviceName := "user";
     Pool.invokers := {[ "10.0.0.1:50051" := Some 1%nat; "10.0.0.2:50051" := Some 2%nat;
                         "10.0.0.3:50051" := Some 3%nat ]};
     Pool.instances := [instA; instB; instC];
     Pool.counter := c |}.

(** The tree that holds the one route "/*rest". *)
Definition wildTree {T : Type} (v : T) : RouteTree.node T :=
  (RouteTree.Insert "/*rest" v RouteTree.NewRouteTree).1.

(** The tree that holds the one route "/a". *)
Definition treeA (v : nat) : RouteTree.node nat :=
  (RouteTree.Insert "/a" v RouteTree.NewRouteTree).1.

(** A watcher after its initial loading that knows no service yet, and a
    metadata Put for the service "user". *)
Definition sampleMetadata : Discovery.ServiceMetadata unit :=
  {| Discovery.ServiceName := "user"; Discovery.Descriptor := None;
     Discovery.DescriptorData := ""; Discovery.Version := "v1";
     Discovery.Metadata := ∅ |}.

Definition sampleWatcher : Discovery.Watcher unit :=
  {| Discovery.serviceMetadataPrefix := "sample/metadata/";
     Discovery.serviceDiscoveryPrefix := "sample/discover/";
     Discovery.metadataMap := ∅; Discovery.instancesMap := ∅;
     Discovery.initialLoading := false |}.

Definition samplePut : Discovery.StoreEvent :=
  {| Discovery.evType := Discovery.EventTypePut;
     Discovery.evKey := "sample/metadata/user"; Discovery.evValue := "{}" |}.

(** Descriptors for the examples: a file is a list of services, a service
    has a name and methods, a method a name and its HTTP rules. *)
Record SampleMethod := {
  smName : string;
  smRules : list Router.HTTPRule
}.

Record SampleService := {
  ssName : string;
  ssMethods : list SampleMethod
}.

(** An invoker is named by its address; the descriptor set is the list of
    files that every connection parses. *)
Definition sampleInvoker (addr : string) (fds : option (list (list SampleService)))
  : option (string * list (list SampleService)) :=
  Some (addr, default [] fds).

Definition pingRule : Router.HTTPRule :=
  {| Router.RuleMethod := "GET"; Router.RulePath := "/v1/ping"; Router.RuleBody := "" |}.

Definition pingFiles (service method : string) : list (list SampleService) :=
  [ [ {| ssName := service;
         ssMethods := [ {| smName := method; smRules := [pingRule] |} ] |} ] ].

Definition serviceInfo (name : string) (files : list (list SampleService))
    (insts : list Pool.ServiceInstance)
  : Discovery.ServiceInfo (list (list SampleService)) :=
  {| Discovery.Meta :=
       {| Discovery.ServiceName := name; Discovery.Descriptor := Some files;
          Discovery.DescriptorData := ""; Discovery.Version := "v1";
          Discovery.Metadata := ∅ |};
     Discovery.Instances := insts |}.

Definition userInfo := serviceInfo "user" (pingFiles "user.v1.UserService" "Ping") [instA].
Definition orderInfo := serviceInfo "order" (pingFiles "order.v1.OrderService" "Ping") [instB].
Definition blankInfo := serviceInfo "" [] [].

(** The registry of the examples. *)
Definition register :=
  Router.RegisterService (Invoker := string)
    (λ file : list SampleService, file) ssMethods ssName smName
    (λ m, Some (smRules m)) sampleInvoker
    GoStrings.asciiTrimSpace GoStrings.asciiToUpper GoStrings.cleanRooted.

Definition unregister :=
  Router.UnRegisterService (FileDescriptorSet := list (list SampleService))
    (Invoker := string) (MethodDescriptor := SampleMethod) GoStrings.asciiTrimSpace.

Definition emptyRouter : Router.HTTPRouter string SampleMethod := Router.NewHTTPRouter.

Definition pingMethod : SampleMethod := {| smName := "Ping"; smRules := [pingRule] |}.
Definition userSvc : SampleService :=
  {| ssName := "user.v1.UserService"; ssMethods := [pingMethod] |}.
Definition orderSvc : SampleService :=
  {| ssName := "order.v1.OrderService"; ssMethods := [pingMethod] |}.

Definition registerRule :=
  Router.registerRule (Invoker := string) ssName smName
    GoStrings.asciiTrimSpace GoStrings.asciiToUpper GoStrings.cleanRooted.

(** The registry after the first service has registered its rule. *)
Definition userRouter : Router.HTTPRouter string SampleMethod :=
  registerRule "user" userSvc pingMethod emptyRouter pingRule.

End Samples.

(** ** Further states for the examples *)
Module SamplesMore.
Import Samples.

(** [fmt.Sscanf(s, "%d", &n)] on a string that starts with a digit: the
    number its leading digits spell. *)
Fixpoint scanDigits (s : string) (acc : Z) (seen : bool) : option Z :=
  match s with
  | String a r =>
      let n := nat_of_ascii a in
      if Nat.leb 48 n && Nat.leb n 57
      then scanDigits r (10 * acc + Z.of_nat (n - 48)) true
      else if seen then Some acc else None
  | EmptyString => if seen then Some acc else None
  end.

Definition scanInt (s : string) : option Z := scanDigits s 0 false.

(** [strings.ToLower] on strings of ASCII bytes. *)
Definition lowerByte (a : ascii) : ascii :=
  let n := nat_of_ascii a in
  if Nat.leb 65 n && Nat.leb n 90 then ascii_of_nat (n + 32) else a.

Fixpoint asciiToLower (s : string) : string :=
  match s with
  | String a r => String (lowerByte a) (asciiToLower r)
  | EmptyString => EmptyString
  end.

(** The handlers of the watcher of the examples: every metadata payload
    decodes to [sampleMetadata]. *)
Definition onMetadata :=
  Discovery.handleMetadataEvent (FileDescriptorSet := unit)
    (λ _, Some sampleMetadata) (λ _, None).

Definition onInstance :=
  DiscoveryMore.handleInstanceEvent (FileDescriptorSet := unit) scanInt.

(** The store of the examples answers every query of the Delete case
    with no values. *)
Definition emptyStore (key : string) : option (list string) := Some [].

Definition putInstanceA : Discovery.StoreEvent :=
  {| Discovery.evType := Discovery.EventTypePut;
     Discovery.evKey := "sample/discover/user/i-1";
     Discovery.evValue := "10.0.0.1:50051" |}.

(** The watcher that knows the metadata of "user" and its instance A. *)
Definition userWatcher : Discovery.Watcher unit :=
  (onInstance emptyStore (onMetadata sampleWatcher samplePut).1 putInstanceA).1.

(** The gateway of the examples after the event that adds "user". *)
Definition addUser : Discovery.ServiceEvent (list (list SampleService)) :=
  {| Discovery.Type_ := Discovery.EventAdd; Discovery.Service := userInfo |}.

Definition handle :=
  RouterMore.handleEvent (Invoker := string)
    (λ file : list SampleService, file) ssMethods ssName smName
    (λ m, Some (smRules m)) sampleInvoker
    GoStrings.asciiTrimSpace GoStrings.asciiToUpper GoStrings.cleanRooted elements.

Definition gatewayRouter : Router.HTTPRouter string SampleMethod :=
  handle emptyRouter addUser.

(** The service "user" before any of its instances is known. *)
Definition userWithoutInstances := serviceInfo "user" (pingFiles "user.v1.UserService" "Ping") [].

(** The service "order" with a rule whose path carries a query: its key is
    another text than the key of [pingRule] and [splitPath] cuts both to
    the same segments. *)
Definition queryRule : Router.HTTPRule :=
  {| Router.RuleMethod := "GET"; Router.RulePath := "/v1/ping?x=1"; Router.RuleBody := "" |}.

Definition orderWithQuery :=
  serviceInfo "order"
    [ [ {| ssName := "order.v1.OrderService";
           ssMethods := [ {| smName := "Ping"; smRules := [queryRule] |} ] |} ] ]
    [instB].

(** The Add event of a service without instances. *)
Definition addOf (name : string) : Discovery.ServiceEvent unit :=
  {| Discovery.Type_ := Discovery.EventAdd;
     Discovery.Service :=
       {| Discovery.Meta :=
            {| Discovery.ServiceName := name; Discovery.Descriptor := None;
               Discovery.DescriptorData := EmptyString; Discovery.Version := EmptyString;
               Discovery.Metadata := ∅ |};
          Discovery.Instances := [] |} |}.

(** The headers of a request. *)
Definition sampleHeader : gmap string (list string) :=
  {[ "X-Request-Id" := ["42"]; "Content-Type" := ["application/json"] ]}.

End SamplesMore.

(** * Properties *)

(** ** Splitting a path *)
Section strings_facts.
Import GoStrings.

Lemma replaceSlashSlash_two (a b : ascii) (r : string) :
  replaceSlashSlash (String a (String b r)) =
    if bool_decide (a = slash) && bool_decide (b = slash)
    then String slash (replaceSlashSlash r)
    else String a (replaceSlashSlash (String b r)).
Proof. reflexivity. Qed.

Lemma containsSlashSlash_two (a b : ascii) (r : string) :
  containsSlashSlash (String a (String b r)) =
    (bool_decide (a = slash) && bool_decide (b = slash))
    || containsSlashSlash (String b r).
Proof. reflexivity. Qed.

Lemma replaceSlashSlash_length (p : string) :
  (String.length (replaceSlashSlash p) ≤ String.length p)%nat
  ∧ ∀ a, (String.length (replaceSlashSlash (String a p)) ≤ S (String.length p))%nat.
Proof.
  induction p as [|b r [IH1 IH2]]; [split; [done|by intros a]|].
  split; [apply IH2|].
  intros a. rewrite replaceSlashSlash_two.
  destruct (bool_decide (a = slash) && bool_decide (b = slash)).
  - change (S (String.length (replaceSlashSlash r)) ≤ S (S (String.length r)))%nat. lia.
  - specialize (IH2 b).
    change (S (String.length (replaceSlashSlash (String b r)))
            ≤ S (S (String.length r)))%nat.
    lia.
Qed.

Lemma replaceSlashSlash_shorter (p : string) :
  (containsSlashSlash p = true →
   (String.length (replaceSlashSlash p) < String.length p)%nat)
  ∧ ∀ a, containsSlashSlash (String a p) = true →
         (String.length (replaceSlashSlash (String a p)) < S (String.length p))%nat.
Proof.
  induction p as [|b r [IH1 IH2]].
  { split; [done|]. intros a. cbn. by rewrite andb_false_r. }
  split; [apply IH2|].
  intros a. rewrite replaceSlashSlash_two, containsSlashSlash_two.
  destruct (bool_decide (a = slash) && bool_decide (b = slash)) eqn:Hab.
  - intros _. pose proof (proj1 (replaceSlashSlash_length r)).
    change (S (String.length (replaceSlashSlash r)) < S (S (String.length r)))%nat. lia.
  - cbn [orb]. intros Hc. specialize (IH2 b Hc).
    change (S (String.length (replaceSlashSlash (String b r)))
            < S (S (String.length r)))%nat.
    lia.
Qed.

Lemma collapseLoop_done (fuel : nat) :
  ∀ p, (String.length p ≤ fuel)%nat → containsSlashSlash (collapseLoop fuel p) = false.
Proof.
  induction fuel as [|fuel IH]; intros p Hlen; cbn [collapseLoop].
  - destruct p; [done|]. cbn [String.length] in Hlen. lia.
  - destruct (containsSlashSlash p) eqn:Hc; [|done].
    apply IH. pose proof (proj1 (replaceSlashSlash_shorter p) Hc). lia.
Qed.

(** The loop of [splitPath] that collapses slashes has run to its end
    within the rounds the embedding gives it. *)
Lemma collapse_done (p : string) : containsSlashSlash (collapse p) = false.
Proof. by apply collapseLoop_done. Qed.

End strings_facts.

(** ** Error mapping *)
Section pipeline_facts.
Import Pipeline.

Lemma mapGRPCCodeToHTTP_table (code : Code) :
  mapGRPCCodeToHTTP code = tableStatus code.
Proof.
  destruct (decide (0 ≤ code ≤ 16)) as [Hin|Hout].
  - assert (Hc : ∃ k : nat, (k < 17)%nat ∧ code = Z.of_nat k).
    { exists (Z.to_nat code). lia. }
    destruct Hc as (k & Hk & ->).
    do 17 (destruct k as [|k]; [reflexivity|]). lia.
  - unfold mapGRPCCodeToHTTP, tableStatus, statusTable,
      OK, Canceled, Unknown, InvalidArgument, DeadlineExceeded, NotFound,
      AlreadyExists, PermissionDenied, ResourceExhausted, FailedPrecondition,
      Aborted, OutOfRange, Unimplemented, Internal, Unavailable, DataLoss,
      Unauthenticated.
    repeat (rewrite (proj2 (Z.eqb_neq code _)) by lia).
    cbn [list_find fmap option_fmap option_map fst snd].
    repeat (rewrite decide_False by (cbn; lia); cbn [option_fmap option_map fmap]).
    reflexivity.
Qed.

Lemma tableStatus_other (code : Code) : ¬ (0 ≤ code ≤ 16) → tableStatus code = 200.
Proof.
  intros Hcode. rewrite <-mapGRPCCodeToHTTP_table.
  unfold mapGRPCCodeToHTTP, OK, Canceled, Unknown, InvalidArgument,
    DeadlineExceeded, NotFound, AlreadyExists, PermissionDenied,
    ResourceExhausted, FailedPrecondition, Aborted, OutOfRange,
    Unimplemented, Internal, Unavailable, DataLoss, Unauthenticated.
  repeat (rewrite (proj2 (Z.eqb_neq code _)) by lia). reflexivity.
Qed.

(** C2. Every error of the invoker is mapped by the gRPC-to-HTTP table and
    put in the envelope: an error with a gRPC status gets the table's
    HTTP status for its code (200 for a code in no row), the numeric code
    as [code] and the status message as [msg]; an error with no status
    gets HTTP 500, code -1 and the error text. *)
Theorem mapErrorToHTTP_spec (D : Type) (err : error) :
  mapErrorToHTTP (D := D) err =
    match err with
    | StatusError code message =>
        (tableStatus code, {| ResCode := code; Msg := message; Data := None |})
    | PlainError text =>
        (500, {| ResCode := -1; Msg := text; Data := None |})
    end
  ∧ tableStatus OK = 200
  ∧ tableStatus Canceled = 408 ∧ tableStatus DeadlineExceeded = 408
  ∧ tableStatus InvalidArgument = 400 ∧ tableStatus FailedPrecondition = 400
  ∧ tableStatus OutOfRange = 400
  ∧ tableStatus NotFound = 404
  ∧ tableStatus AlreadyExists = 409 ∧ tableStatus Aborted = 409
  ∧ tableStatus PermissionDenied = 403
  ∧ tableStatus Unauthenticated = 401
  ∧ tableStatus ResourceExhausted = 429
  ∧ tableStatus Unimplemented = 501
  ∧ tableStatus Unknown = 500 ∧ tableStatus Internal = 500
  ∧ tableStatus DataLoss = 500
  ∧ tableStatus Unavailable = 503
  ∧ (∀ code, ¬ (0 ≤ code ≤ 16) → tableStatus code = 200).
Proof.
  split; [|repeat split; try reflexivity; apply tableStatus_other].
  destruct err as [code message|text]; cbn.
  - by rewrite mapGRPCCodeToHTTP_table.
  - reflexivity.
Qed.

End pipeline_facts.

(** ** Payload composition *)
Section transcoder_facts.
Import Transcoder.
Context {float64 : Type}.
Variable unmarshalObject : string → option (gmap string (any float64)).
Variable unmarshalAny : string → option (any float64).
Variable marshal : gmap string (any float64) → option string.

(** A [range] loop of assignments is a union in which the assigned keys
    win, whatever the order of the iteration. *)
Lemma assignAll_union {A : Type} (f : A → any float64) (m : gmap string A)
    (acc : gmap string (any float64)) :
  assignAll f m acc = (f <$> m) ∪ acc.
Proof.
  unfold assignAll.
  induction m as [|key x m Hkey IH] using map_ind.
  - by rewrite map_fold_empty, fmap_empty, (left_id_L ∅ (∪)).
  - rewrite map_fold_insert_L; [|intros; by apply insert_insert_ne|done].
    by rewrite IH, fmap_insert, insert_union_l.
Qed.

Lemma base_lookup (r : Request) (pathParams : gmap string string) (key : string) :
  (queryLayer r ∪ pathLayer (float64 := float64) pathParams) !! key =
    match Query r !! key with
    | Some values => Some (queryValue values)
    | None => AString <$> pathParams !! key
    end.
Proof.
  unfold queryLayer, pathLayer. rewrite lookup_union, !lookup_fmap.
  destruct (Query r !! key); cbn; [|by rewrite (left_id_L None (∪))].
  by destruct (pathParams !! key).
Qed.

(** C1. [BuildRequestJSON] composes the payload by the rules: every path
    parameter as a string, every query parameter over it (one value as a
    string, otherwise the array), no body for GET and DELETE, and else for
    a non-empty body the decoded object merged over both with the body's
    keys winning ([*]), the decoded body under its field name, or nothing
    (empty field); in a merge a key of the body wins over the same key
    of path and query. The POST example merges ?source=web with the body's
    name and age. *)
Theorem BuildRequestJSON_rules :
  (∀ (r : Request) (pathParams : gmap string string) (bodyField : string),
     BuildRequestJSON unmarshalObject unmarshalAny marshal r pathParams bodyField =
       match payloadRules unmarshalObject unmarshalAny r pathParams bodyField with
       | inl requestMap => finish marshal requestMap
       | inr e => inr e
       end)
  ∧ (∀ (r : Request) (pathParams : gmap string string) (key : string),
       (queryLayer r ∪ pathLayer (float64 := float64) pathParams) !! key =
         match Query r !! key with
         | Some [v] => Some (AString v)
         | Some values => Some (AStrings values)
         | None => AString <$> pathParams !! key
         end)
  ∧ (∀ (bodyMap base : gmap string (any float64)) (key : string),
       (bodyMap ∪ base) !! key =
         match bodyMap !! key with
         | Some v => Some v
         | None => base !! key
         end)
  ∧ (∀ (body : string) (age : float64),
       body ≠ "" →
       unmarshalObject body = Some {[ "name" := AString "Tom"; "age" := ANumber age ]} →
       BuildRequestJSON unmarshalObject unmarshalAny marshal
         {| Method := "POST"; Query := {[ "source" := ["web"] ]}; Body := Some body |}
         ∅ "*" =
       finish marshal
         {[ "source" := AString "web"; "name" := AString "Tom"; "age" := ANumber age ]}).
Proof.
  split; [|split; [|split]].
  - intros r pathParams bodyField.
    unfold BuildRequestJSON, payloadRules. rewrite !assignAll_union.
    rewrite (right_id_L ∅ (∪)). fold (pathLayer (float64 := float64) pathParams).
    fold (queryLayer (float64 := float64) r).
    destruct (decide (Method r = "GET")) as [HG|HG].
    { rewrite (bool_decide_eq_true_2 (Method r = "GET")) by done. cbn.
      by rewrite bool_decide_eq_true_2 by (by left). }
    destruct (decide (Method r = "DELETE")) as [HD|HD].
    { rewrite (bool_decide_eq_true_2 (Method r = "DELETE")) by done.
      rewrite andb_false_r. by rewrite bool_decide_eq_true_2 by (by right). }
    rewrite (bool_decide_eq_false_2 (Method r = "GET")) by done.
    rewrite (bool_decide_eq_false_2 (Method r = "DELETE")) by done.
    rewrite (bool_decide_eq_false_2 (_ ∨ _)) by (intros [?|?]; done).
    cbn [negb andb].
    destruct (Body r) as [body|]; [|done].
    destruct body as [|c body]; [done|].
    cbn [String.length Nat.ltb Nat.leb].
    destruct (decide (bodyField = "*")) as [->|Hstar].
    { rewrite bool_decide_eq_true_2 by done.
      destruct (unmarshalObject _); [|done].
      by rewrite assignAll_union, map_fmap_id. }
    rewrite (bool_decide_eq_false_2 (bodyField = "*")) by done.
    destruct (decide (bodyField = "")) as [->|Hempty].
    { by rewrite bool_decide_eq_true_2 by done. }
    rewrite (bool_decide_eq_false_2 (bodyField = "")) by done. cbn [negb].
    by destruct (unmarshalAny _).
  - intros r pathParams key. rewrite base_lookup.
    destruct (Query r !! key) as [[|v [|]]|]; reflexivity.
  - intros bodyMap base key. rewrite lookup_union.
    by destruct (bodyMap !! key), (base !! key).
  - intros body age Hbody Hdecode.
    unfold BuildRequestJSON. rewrite !assignAll_union. cbn [Method Body Query].
    rewrite !bool_decide_eq_false_2 by done. cbn [negb andb].
    destruct body as [|c body]; [done|]. cbn [String.length Nat.ltb Nat.leb].
    rewrite bool_decide_eq_true_2 by done. rewrite Hdecode.
    rewrite assignAll_union, map_fmap_id, fmap_empty, (right_id_L ∅ (∪)).
    rewrite map_fmap_singleton. cbn [queryValue].
    reflexivity.
Qed.

End transcoder_facts.

Section transcoder_examples.
Import Transcoder.

(** The example of C1 run with a decoder that returns the body's object. *)
Lemma BuildRequestJSON_rules_witness :
  Transcoder.BuildRequestJSON (float64 := Z)
    (λ _, Some {[ "name" := AString "Tom"; "age" := ANumber 18 ]})
    (λ _, None) (λ _, Some "ok")
    {| Method := "POST"; Query := {[ "source" := ["web"] ]};
       Body := Some "{name:Tom,age:18}" |}
    ∅ "*" = inl "ok".
Proof.
  apply (proj2 (proj2 (proj2 (BuildRequestJSON_rules (float64 := Z)
                         (λ _, Some {[ "name" := AString "Tom"; "age" := ANumber 18 ]})
                         (λ _, None) (λ _, Some "ok"))))
               "{name:Tom,age:18}" 18).
  - discriminate.
  - reflexivity.
Defined.

End transcoder_examples.

(** ** The watcher's metadata handler *)
Section discovery_facts.
Import Discovery.
Context {FileDescriptorSet : Type}.
Variable jsonUnmarshal : string → option (ServiceMetadata FileDescriptorSet).
Variable protoUnmarshal : string → option FileDescriptorSet.

(** C7, as the code has it. After the initial loading, a metadata Put for
    service [s] whose payload parses replaces [metadata[s]] and sends one
    Update event, whether or not an instance set is known for [s]; the
    event carries the known instances, and the empty list when there are
    none. A payload that does not parse changes nothing and sends nothing. *)
Theorem metadata_put_emits_update (w : Watcher FileDescriptorSet) (event : StoreEvent) :
  initialLoading w = false →
  evType event = EventTypePut →
  extractServiceNameFromMetadata w (evKey event) ≠ "" →
  let s := extractServiceNameFromMetadata w (evKey event) in
  match parseServiceMetadata jsonUnmarshal protoUnmarshal (evValue event) with
  | Some metadata =>
      handleMetadataEvent jsonUnmarshal protoUnmarshal w event =
        (setMetadataMap w (<[s := metadata]> (metadataMap w)),
         [ {| Type_ := EventUpdate;
              Service := {| Meta := metadata;
                            Instances := default [] (instancesMap w !! s) |} |} ])
  | None => handleMetadataEvent jsonUnmarshal protoUnmarshal w event = (w, [])
  end.
Proof.
  intros Hload Hput Hname s. unfold handleMetadataEvent. fold s.
  rewrite bool_decide_eq_false_2 by done. rewrite Hput.
  destruct (parseServiceMetadata _ _ _); [|done].
  by rewrite Hload.
Qed.

End discovery_facts.

Section discovery_examples.
Import Discovery Samples.

Lemma metadata_put_emits_update_witness :
  handleMetadataEvent (λ _, Some sampleMetadata) (λ _, None) sampleWatcher samplePut =
    (setMetadataMap sampleWatcher {[ "user" := sampleMetadata ]},
     [ {| Type_ := EventUpdate;
          Service := {| Meta := sampleMetadata; Instances := [] |} |} ]).
Proof.
  apply (metadata_put_emits_update (λ _, Some sampleMetadata) (λ _, None)
           sampleWatcher samplePut); [reflexivity|reflexivity|].
  vm_compute. discriminate.
Defined.

(** C7 as stated fails: no instance set is known for service "user", and
    the metadata Put still sends an Update event. *)
Lemma metadata_put_without_instances :
  instancesMap sampleWatcher !! "user" = None
  ∧ (handleMetadataEvent (λ _, Some sampleMetadata) (λ _, None)
       sampleWatcher samplePut).2 =
    [ {| Type_ := EventUpdate;
         Service := {| Meta := sampleMetadata; Instances := [] |} |} ].
Proof. split; reflexivity. Qed.

End discovery_examples.

(** ** Round-robin selection *)
Section pool_facts.
Import Pool.
Context {Invoker : Type}.
Implicit Types pool : ServicePool Invoker.

Lemma wrap64_small (z : Z) : - 2 ^ 63 ≤ z < 2 ^ 63 → wrap64 z = z.
Proof. intros Hz. unfold wrap64. rewrite Z.mod_small by lia. lia. Qed.

Lemma slot_in_range (c : Z) (n i : nat) :
  0 ≤ c → c + Z.of_nat n < 2 ^ 63 → (i < n)%nat →
  slot (c + 1) n i = (c + Z.of_nat (1 + i)) mod Z.of_nat n.
Proof.
  intros Hc Hn Hi. unfold slot.
  rewrite wrap64_small by lia.
  rewrite Z.rem_mod_nonneg by lia. f_equal. lia.
Qed.

Lemma slots_visitOrder (c : Z) (n : nat) :
  0 ≤ c → c + Z.of_nat n < 2 ^ 63 →
  slot (c + 1) n <$> seq 0 n = visitOrder c n.
Proof.
  intros Hc Hn. unfold visitOrder.
  rewrite <-(fmap_S_seq 0 n), <-list_fmap_compose.
  apply list_fmap_ext. intros k i [-> Hk]%lookup_seq.
  cbn [compose]. by apply slot_in_range.
Qed.

Lemma visitOrder_in_range (c : Z) (n : nat) (idx : Z) :
  idx ∈ visitOrder c n → 0 ≤ idx < Z.of_nat n.
Proof.
  unfold visitOrder. intros (i & -> & Hi)%list_elem_of_fmap.
  apply elem_of_seq in Hi. apply Z.mod_pos_bound. lia.
Qed.

(** Every slot is in the order. *)
Lemma visitOrder_covers (c : Z) (n : nat) (j : nat) :
  (j < n)%nat → Z.of_nat j ∈ visitOrder c n.
Proof.
  intros Hj. unfold visitOrder. apply list_elem_of_fmap.
  set (d := (Z.of_nat j - c - 1) mod Z.of_nat n).
  assert (Hd : 0 ≤ d < Z.of_nat n) by (apply Z.mod_pos_bound; lia).
  exists (S (Z.to_nat d)). split; [|apply elem_of_seq; lia].
  replace (c + Z.of_nat (S (Z.to_nat d))) with (c + 1 + d) by lia.
  unfold d. rewrite Zplus_mod_idemp_r.
  replace (c + 1 + (Z.of_nat j - c - 1)) with (Z.of_nat j) by lia.
  rewrite Z.mod_small; lia.
Qed.

Lemma instanceAt_in_range pool (idx : Z) :
  0 ≤ idx < Z.of_nat (length (instances pool)) → is_Some (instanceAt pool idx).
Proof.
  intros Hidx. unfold instanceAt.
  rewrite (proj2 (Z.leb_le _ _)), (proj2 (Z.ltb_lt _ _)) by lia. cbn.
  apply lookup_lt_is_Some. lia.
Qed.

(** The loop visits the slots of its indices in order and stops at the
    first one with a live invoker. *)
Lemma scan_first_live pool (start : Z) (n : nat) (ixs : list nat) :
  Forall (λ i, is_Some (instanceAt pool (slot start n i))) ixs →
  scan pool start n ixs =
    match list_find (λ idx, is_Some (liveAt pool idx)) (slot start n <$> ixs) with
    | Some (k, idx) =>
        (take (S k) (slot start n <$> ixs),
         from_option Found (ErrNoInvoker (serviceName pool)) (liveAt pool idx))
    | None => (slot start n <$> ixs, ErrNoInvoker (serviceName pool))
    end.
Proof.
  induction 1 as [|i ixs [instance Hi] _ IH]; [done|].
  cbn [scan]. rewrite Hi. rewrite fmap_cons. cbn [list_find].
  assert (Hl : liveAt pool (slot start n i) = liveInvoker pool (Addr instance))
    by (unfold liveAt; by rewrite Hi).
  destruct (liveInvoker pool (Addr instance)) as [inv|] eqn:Hlive.
  - rewrite decide_True by (rewrite Hl; eauto). cbn. by rewrite Hl.
  - rewrite decide_False by (rewrite Hl; by intros [? ?]).
    rewrite IH.
    destruct (list_find _ (slot start n <$> ixs)) as [[k idx]|]; reflexivity.
Qed.

Lemma liveAt_setCounter pool (c idx : Z) : liveAt (setCounter pool c) idx = liveAt pool idx.
Proof. reflexivity. Qed.

Lemma liveAt_Some pool (idx : Z) (inv : Invoker) :
  liveAt pool idx = Some inv →
  ∃ inst, inst ∈ instances pool ∧ liveInvoker pool (Addr inst) = Some inv.
Proof.
  unfold liveAt, instanceAt. intros Hlive.
  destruct ((0 <=? idx) && (idx <? Z.of_nat (length (instances pool)))); [|done].
  destruct (instances pool !! Z.to_nat idx) as [inst|] eqn:Hinst; [|done].
  exists inst. split; [|done]. by eapply list_elem_of_lookup_2.
Qed.

(** C3, as the code has it. Let the counter hold [c] when the call starts,
    with [0 ≤ c] and [c + n] below [2^63], so that the atomic increment
    yields [c + 1]. An empty instance list gives the no-instances error, a
    non-empty one never does; a non-empty list of [n] instances is visited
    in the order [(c+1) mod n, ..., (c+n) mod n] up to the first index whose
    instance has a live invoker, which is returned; the no-invoker error is
    returned, after the whole order was visited, exactly when no instance
    has a live invoker. *)
Theorem round_robin_selection pool :
  let n := length (instances pool) in
  let c := counter pool in
  0 ≤ c → c + Z.of_nat n < 2 ^ 63 →
  ∃ visited out,
    getNextInvoker pool =
      (if decide (instances pool = []) then pool else setCounter pool (c + 1),
       (visited, out))
    ∧ (out = ErrNoInstances ↔ instances pool = [])
    ∧ (out = ErrNoInvoker (serviceName pool) ↔
         instances pool ≠ []
         ∧ ∀ inst, inst ∈ instances pool → liveInvoker pool (Addr inst) = None)
    ∧ (instances pool ≠ [] →
       match list_find (λ idx, is_Some (liveAt pool idx)) (visitOrder c n) with
       | Some (k, idx) =>
           visited = take (S k) (visitOrder c n)
           ∧ ∃ inv, liveAt pool idx = Some inv ∧ out = Found inv
       | None =>
           visited = visitOrder c n ∧ out = ErrNoInvoker (serviceName pool)
       end).
Proof.
  intros n c Hc Hn. unfold getNextInvoker.
  destruct (instances pool) as [|inst0 insts] eqn:Hinsts.
  { exists [], ErrNoInstances. rewrite decide_True by done.
    repeat split; try done. by intros [? _]. }
  rewrite decide_False by done.
  assert (Hn1 : (1 ≤ n)%nat) by (subst n; cbn; lia).
  assert (Hlen : length (instances pool) = n) by (by rewrite Hinsts).
  rewrite <-Hinsts, Hlen. fold c.
  rewrite wrap64_small by lia.
  rewrite scan_first_live; last first.
  { apply Forall_seq. intros i Hi. rewrite slot_in_range by lia.
    apply instanceAt_in_range. cbn [instances setCounter].
    rewrite Hlen. apply Z.mod_pos_bound. lia. }
  rewrite slots_visitOrder by done.
  assert (Hne : instances pool ≠ []) by (by rewrite Hinsts).
  cbn [serviceName setCounter].
  change (list_find (λ idx, is_Some (liveAt (setCounter pool (c + 1)) idx)))
    with (list_find (λ idx, is_Some (liveAt pool idx))).
  destruct (list_find _ (visitOrder c n)) as [[k idx]|] eqn:Hfind.
  - apply list_find_Some in Hfind as (Hk & [inv Hlive] & _).
    eexists _, _. split; [reflexivity|].
    rewrite liveAt_setCounter, Hlive. cbn [from_option].
    split; [split; [done|by rewrite Hinsts]|].
    split; [|intros _; eauto].
    split; [done|]. intros [_ Hnone].
    apply liveAt_Some in Hlive as (inst & Hin & Hinv).
    rewrite Hnone in Hinv by done. done.
  - apply list_find_None in Hfind.
    eexists _, _. split; [reflexivity|].
    split; [split; [done|by rewrite Hinsts]|].
    split; [|done].
    split; [|done]. intros _. split; [done|].
    intros inst [j Hj]%list_elem_of_lookup_1.
    assert (Hjn : (j < n)%nat) by (rewrite <-Hlen; by eapply lookup_lt_Some).
    pose proof (visitOrder_covers c n j Hjn) as Hcov.
    rewrite Forall_forall in Hfind. specialize (Hfind _ Hcov).
    unfold liveAt, instanceAt in Hfind. rewrite Hlen in Hfind.
    rewrite (proj2 (Z.leb_le _ _)), (proj2 (Z.ltb_lt _ _)) in Hfind by lia.
    cbn in Hfind. rewrite Nat2Z.id, Hj in Hfind.
    destruct (liveInvoker pool (Addr inst)); [|done].
    exfalso. apply Hfind. eauto.
Qed.

End pool_facts.

Section pool_examples.
Import Pool Samples.

Lemma round_robin_selection_witness :
  ∃ visited out,
    getNextInvoker (poolAB 0) = (setCounter (poolAB 0) 1, (visited, out))
    ∧ (out = ErrNoInstances ↔ instances (poolAB 0) = []).
Proof.
  destruct (round_robin_selection (poolAB 0)) as (visited & out & Hcall & Hnone & _);
    [cbn; lia | cbn; lia |].
  exists visited, out. split; [exact Hcall | exact Hnone].
Defined.

(** C3 as stated fails. With two live instances and an atomic increment
    that yields 1, the first index visited is [1 mod 2 = 1] and the second
    instance's invoker is returned, where the order of the claim starts at
    [(1+1) mod 2 = 0]; and on a counter at the largest [int64] the
    increment wraps around, the first index is [-2] and the call panics
    where the claim has it return. *)
Lemma round_robin_as_stated_fails :
  getNextInvoker (poolAB 0) = (poolAB 1, ([1], Found 2%nat))
  ∧ (1 + 1) mod 2 = 0
  ∧ liveAt (poolAB 0) 0 = Some 1%nat
  ∧ getNextInvoker (poolABC maxInt64) = (poolABC minInt64, ([-2], PanicIndex (-2))).
Proof. repeat split; vm_compute; reflexivity. Qed.

(** C9 fails on the code: after [2^63 - 1] calls the counter holds the
    largest [int64]; the next increment wraps to the smallest one, and with
    three instances the first index is
    [(-9223372036854775808) % 3 = -2], outside [0, 3): the index expression
    panics. *)
Theorem getNextInvoker_wraps_out_of_bounds :
  counter (poolABC maxInt64) = 9223372036854775807
  ∧ wrap64 (counter (poolABC maxInt64) + 1) = -9223372036854775808
  ∧ slot (wrap64 (counter (poolABC maxInt64) + 1)) 3 0 = -2
  ∧ (getNextInvoker (poolABC maxInt64)).2 = ([-2], PanicIndex (-2)).
Proof. repeat split; vm_compute; reflexivity. Qed.

End pool_examples.

(** ** The route tree *)
Section tree_facts.
Import GoStrings RouteTree.
Context {T : Type}.
Implicit Types (cur n t : node T) (segs : list string).

(** A wildcard child takes a non-empty segment that no static child and no
    parameter child takes, with all that follows it. *)
Lemma lookupSegs_wildcard n (wc : node T) (seg : string) (rest : list string)
    (params : gmap string string) :
  seg ≠ "" → children n !! seg = None → paramChild n = None → wildChild n = Some wc →
  lookupSegs (seg :: rest) params n =
    Some (wc, <[wildName wc := Join (seg :: rest)]> params).
Proof.
  intros Hseg Hstatic Hparam Hwild. cbn [lookupSegs].
  rewrite bool_decide_eq_false_2 by done. by rewrite Hstatic, Hparam, Hwild.
Qed.

(** C4, as the code has it. In the tree that holds the wildcard route
    "/*rest", Lookup of "/a" captures rest = "a" and Lookup of "/a/b/c"
    captures rest = "a/b/c"; Lookup of "/" finds no route. In general a
    wildcard segment matches a remainder of one or more segments, the
    first of them not empty, and captures the joined remainder under its
    name; a path without such a segment is not matched by it. *)
Theorem wildcard_route_lookup (v : T) :
  Lookup "/a" (Samples.wildTree v) = Some (v, {[ "rest" := "a" ]})
  ∧ Lookup "/a/b/c" (Samples.wildTree v) = Some (v, {[ "rest" := "a/b/c" ]})
  ∧ Lookup "/" (Samples.wildTree v) = None
  ∧ (∀ (path seg : string) (rest : list string),
       badPath path = false → splitPath path = seg :: rest → seg ≠ "" →
       Lookup path (Samples.wildTree v) = Some (v, {[ "rest" := Join (seg :: rest) ]}))
  ∧ (∀ (path : string),
       Forall (λ seg, seg = "") (splitPath path) →
       Lookup path (Samples.wildTree v) = None)
  ∧ (∀ n (wc : node T) (seg : string) (rest : list string) (params : gmap string string),
       seg ≠ "" → children n !! seg = None → paramChild n = None →
       wildChild n = Some wc →
       lookupSegs (seg :: rest) params n =
         Some (wc, <[wildName wc := Join (seg :: rest)]> params)).
Proof.
  split; [reflexivity|]. split; [reflexivity|]. split; [reflexivity|].
  split; [|split].
  - intros path seg rest Hpath Hsplit Hseg. unfold Lookup.
    rewrite Hpath, Hsplit.
    rewrite (lookupSegs_wildcard _
               (setValue (newNode "*rest" Wildcard "" "rest") (Some v) "/*rest"));
      [reflexivity|done|reflexivity..].
  - intros path Hall. unfold Lookup.
    destruct (badPath path); [done|].
    assert (Hwalk : ∀ params,
      lookupSegs (splitPath path) params (Samples.wildTree v)
      = Some (Samples.wildTree v, params)).
    { induction Hall as [|seg rest -> _ IH]; [done|]. intros params. apply IH. }
    by rewrite Hwalk.
  - intros. by apply lookupSegs_wildcard.
Qed.

(** The checks of [Insert] between a wildcard and its siblings: a
    parameter is refused at a node that has a wildcard child, and a
    wildcard at a node that has a static or a parameter child. The static
    branch has no check of its own. *)
Lemma insertSegs_sibling_checks (path : string) (v : T) cur (seg : string) :
  seg ≠ "" →
  (headIs colon seg = true → tail1 seg ≠ "" → is_Some (wildChild cur) →
   ∀ rest, insertSegs path v (seg :: rest) cur = (cur, Some ErrWildcardAndParam))
  ∧ (headIs colon seg = false → headIs star seg = true → tail1 seg ≠ "" →
     children cur ≠ ∅ ∨ is_Some (paramChild cur) →
     insertSegs path v [seg] cur = (cur, Some ErrWildcardCoexist)).
Proof.
  intros Hseg. split.
  - intros Hcolon Hname Hwild rest. cbn [insertSegs].
    rewrite bool_decide_eq_false_2 by done. rewrite Hcolon.
    rewrite bool_decide_eq_false_2 by done.
    by rewrite bool_decide_eq_true_2.
  - intros Hcolon Hstar Hname Hsiblings. cbn [insertSegs].
    rewrite bool_decide_eq_false_2 by done. rewrite Hcolon, Hstar.
    rewrite bool_decide_eq_false_2 by done.
    rewrite bool_decide_eq_true_2 by done. cbn [negb].
    destruct Hsiblings as [Hstatic|Hparam].
    + unfold lenChildren.
      destruct (size (children cur)) eqn:Hsize; [|done].
      by apply map_size_empty_iff in Hsize.
    + by rewrite (bool_decide_eq_true_2 (is_Some (paramChild cur))), orb_true_r.
Qed.

(** *** Well-formed trees *)

Lemma HasPrefix_byte (s : string) (c : ascii) :
  HasPrefix s (String c EmptyString) = headIs c s.
Proof.
  unfold HasPrefix. destruct s as [|a s]; cbn; [done|].
  destruct (ascii_dec c a) as [->|Hne].
  - rewrite bool_decide_eq_true_2 by done. by destruct s.
  - rewrite bool_decide_eq_false_2; [done|congruence].
Qed.

Lemma wellFormed_inv n :
  wellFormed n →
  nodeOk n ∧ ∀ e c, child e n = Some c → isBare c = false ∧ wellFormed c.
Proof.
  intros Hwf. split; [by apply (Hwf [])|].
  intros e c Hc. split; [by apply (proj2 (proj2 (Hwf [] n eq_refl)) e)|].
  intros p m Hm. apply (Hwf (e :: p)). cbn. by rewrite Hc.
Qed.

Lemma wellFormed_intro n :
  (∀ key, headIs colon key || headIs star key = true → children n !! key = None) →
  (value n = None → fullPath n = "") →
  (∀ e c, child e n = Some c → isBare c = false ∧ wellFormed c) →
  wellFormed n.
Proof.
  intros Hkeys Hval Hchildren [|e p] m Hm; cbn in Hm.
  - injection Hm as <-. split; [done|]. split; [done|].
    intros e c Hc. by apply (Hchildren e).
  - destruct (child e n) as [c|] eqn:Hc; [|done].
    by apply (proj2 (Hchildren e c Hc) p).
Qed.

Lemma wellFormed_newNode (seg : string) (ty : NodeType) (pname wname : string) :
  wellFormed (newNode (T := T) seg ty pname wname).
Proof.
  apply wellFormed_intro; [done..|]. by intros [key| |] c Hc.
Qed.

Lemma isBare_newNode (seg : string) (ty : NodeType) (pname wname : string) :
  isBare (newNode (T := T) seg ty pname wname) = true.
Proof. reflexivity. Qed.

Lemma child_setValue e n (v : option T) (fp : string) :
  child e (setValue n v fp) = child e n.
Proof. by destruct e. Qed.

Lemma child_putStatic e n (key : string) (c' c : node T) :
  child e (setChildren n (<[key := c']> (children n))) = Some c →
  (e = EStatic key ∧ c = c') ∨ child e n = Some c.
Proof.
  destruct e as [k| |]; cbn; [|by right..].
  destruct (decide (key = k)) as [->|Hne].
  - rewrite lookup_insert_eq. intros [= <-]. by left.
  - rewrite lookup_insert_ne by done. by right.
Qed.

Lemma child_putParam e n (c' c : node T) :
  child e (setParamChild n (Some c')) = Some c →
  (e = EParam ∧ c = c') ∨ child e n = Some c.
Proof. destruct e; cbn; [by right| |by right]. intros [= <-]. by left. Qed.

Lemma child_putWild e n (c' c : node T) :
  child e (setWildChild n (Some c')) = Some c →
  (e = EWild ∧ c = c') ∨ child e n = Some c.
Proof. destruct e; cbn; [by right..|]. intros [= <-]. by left. Qed.

Lemma child_dropStatic e n (key : string) (c : node T) :
  child e (setChildren n (delete key (children n))) = Some c → child e n = Some c.
Proof.
  destruct e as [k| |]; cbn; [|done..].
  destruct (decide (key = k)) as [->|Hne].
  - by rewrite lookup_delete_eq.
  - by rewrite lookup_delete_ne.
Qed.

Lemma child_dropParam e n (c : node T) :
  child e (setParamChild n None) = Some c → child e n = Some c.
Proof. by destruct e. Qed.

Lemma child_dropWild e n (c : node T) :
  child e (setWildChild n None) = Some c → child e n = Some c.
Proof. by destruct e. Qed.

(** A node with a value, or with a child, is no valueless leaf. *)
Lemma isBare_setValue_Some n (v : T) (fp : string) : isBare (setValue n (Some v) fp) = false.
Proof. reflexivity. Qed.

Lemma isBare_putStatic n (key : string) (c : node T) :
  isBare (setChildren n (<[key := c]> (children n))) = false.
Proof.
  unfold isBare, lenChildren. cbn.
  assert (Hsize : size (<[key := c]> (children n)) ≠ 0%nat).
  { intros Hz. apply map_size_empty_iff in Hz.
    by apply (insert_non_empty (children n) key c). }
  destruct (size (<[key := c]> (children n))); [done|].
  cbn. by rewrite andb_false_r.
Qed.

Lemma isBare_putParam n (c : node T) : isBare (setParamChild n (Some c)) = false.
Proof. unfold isBare. cbn. by rewrite andb_false_r. Qed.

Lemma isBare_putWild n (c : node T) : isBare (setWildChild n (Some c)) = false.
Proof. unfold isBare. cbn. by rewrite andb_false_r. Qed.

Lemma headed_not_static n (seg : string) (c : node T) :
  wellFormed n → children n !! seg = Some c →
  headIs colon seg = false ∧ headIs star seg = false.
Proof.
  intros Hwf Hc. destruct (wellFormed_inv n Hwf) as ((Hkeys & _) & _).
  destruct (headIs colon seg || headIs star seg) eqn:Hhead.
  - rewrite Hkeys in Hc by done. done.
  - by apply orb_false_elim in Hhead.
Qed.

(** An accepted [Insert] keeps the tree well-formed, and the node it
    returns is no valueless leaf. *)
Lemma insertSegs_wellFormed (path : string) (v : T) segs :
  ∀ cur cur', wellFormed cur → insertSegs path v segs cur = (cur', None) →
              wellFormed cur' ∧ isBare cur' = false.
Proof.
  induction segs as [|seg rest IH]; intros cur cur' Hwf Hins; cbn [insertSegs] in Hins.
  { injection Hins as <-. split; [|reflexivity].
    destruct (wellFormed_inv cur Hwf) as ((Hkeys & Hval & _) & Hch).
    apply wellFormed_intro; [exact Hkeys|done|].
    intros e c. rewrite child_setValue. exact (Hch e c). }
  case_bool_decide; [by eapply IH|].
  destruct (wellFormed_inv cur Hwf) as ((Hkeys & Hval & _) & Hch).
  destruct (headIs colon seg) eqn:Hcolon; [|destruct (headIs star seg) eqn:Hstar].
  - case_bool_decide; [done|]. case_bool_decide; [done|].
    case_bool_decide; [|done].
    destruct (insertSegs path v rest _) as [pc' err] eqn:Hrec.
    injection Hins as <- ->.
    apply IH in Hrec as [Hwf' Hbare'].
    + split; [|apply isBare_putParam].
      apply wellFormed_intro; [exact Hkeys|exact Hval|].
      intros e c [[-> ->]|Hc]%child_putParam; [done|by apply (Hch e)].
    + destruct (paramChild cur) as [pc|] eqn:Hpc; cbn.
      * by apply (Hch EParam).
      * apply wellFormed_newNode.
  - case_bool_decide; [done|]. case_bool_decide; [|done].
    destruct ((0 <? lenChildren cur)%nat || _); [done|].
    destruct (insertSegs path v rest _) as [wc' err] eqn:Hrec.
    injection Hins as <- ->.
    apply IH in Hrec as [Hwf' Hbare'].
    + split; [|apply isBare_putWild].
      apply wellFormed_intro; [exact Hkeys|exact Hval|].
      intros e c [[-> ->]|Hc]%child_putWild; [done|by apply (Hch e)].
    + destruct (wildChild cur) as [wc|] eqn:Hwc; cbn.
      * by apply (Hch EWild).
      * apply wellFormed_newNode.
  - destruct (insertSegs path v rest _) as [child' err] eqn:Hrec.
    injection Hins as <- ->.
    apply IH in Hrec as [Hwf' Hbare'].
    + split; [|apply isBare_putStatic].
      apply wellFormed_intro; [|exact Hval|].
      * intros key Hkey. cbn.
        rewrite lookup_insert_ne; [by apply Hkeys|].
        intros ->. by rewrite Hcolon, Hstar in Hkey.
      * intros e c [[-> ->]|Hc]%child_putStatic; [done|by apply (Hch e)].
    + destruct (children cur !! seg) as [c|] eqn:Hc; cbn.
      * by apply (Hch (EStatic seg)).
      * apply wellFormed_newNode.
Qed.

Lemma setValue_clear_id n :
  value n = None → fullPath n = "" → setValue n None "" = n.
Proof. destruct n. cbn. by intros -> ->. Qed.

Lemma clearValue_wellFormed cur (d : node T) (had : bool) :
  wellFormed cur → clearValue cur = (d, had) →
  wellFormed d ∧ (had = false → d = cur).
Proof.
  intros Hwf [= <- <-].
  destruct (wellFormed_inv cur Hwf) as ((Hkeys & Hval & _) & Hch).
  split.
  - apply wellFormed_intro; [exact Hkeys|done|].
    intros e c. rewrite child_setValue. exact (Hch e c).
  - intros Hnone%bool_decide_eq_false.
    assert (Hv : value cur = None).
    { destruct (value cur); [|done]. destruct Hnone. eauto. }
    by apply setValue_clear_id; [|apply Hval].
Qed.

Lemma setChildren_id n (m : gmap string (node T)) : m = children n → setChildren n m = n.
Proof. intros ->. by destruct n. Qed.

Lemma setParamChild_id n (c : option (node T)) : c = paramChild n → setParamChild n c = n.
Proof. intros ->. by destruct n. Qed.

Lemma setWildChild_id n (c : option (node T)) : c = wildChild n → setWildChild n c = n.
Proof. intros ->. by destruct n. Qed.

(** [Delete] keeps the tree well-formed, and a [Delete] that returns false
    leaves it as it was. *)
Lemma deleteSegs_wellFormed segs :
  ∀ cur (d : node T) (had : bool),
    wellFormed cur → deleteSegs segs cur = (d, had) →
    wellFormed d ∧ (had = false → d = cur).
Proof.
  induction segs as [|seg rest IH]; intros cur d had Hwf Hdel; cbn [deleteSegs] in Hdel.
  { by apply clearValue_wellFormed. }
  case_bool_decide; [by eapply IH|].
  destruct (wellFormed_inv cur Hwf) as ((Hkeys & Hval & _) & Hch).
  destruct (children cur !! seg) as [c0|] eqn:Hstatic;
    [|destruct (paramChild cur) as [pc|] eqn:Hparam;
      [|destruct (wildChild cur) as [wc|] eqn:Hwild]].
  - destruct (deleteSegs rest c0) as [c' had'] eqn:Hrec.
    injection Hdel as <- <-.
    apply IH in Hrec as [Hwf' Hsame]; [|by apply (Hch (EStatic seg))].
    destruct (headed_not_static cur seg c0 Hwf Hstatic) as [Hcolon Hstar].
    unfold compact. destruct had'.
    + destruct (isBare c') eqn:Hbare; cbn [andb].
      * split; [|done]. unfold unlink.
        rewrite !HasPrefix_byte, Hcolon, Hstar. cbn.
        rewrite delete_insert_eq.
        apply wellFormed_intro; [|exact Hval|].
        -- intros key Hkey. cbn.
           destruct (decide (seg = key)) as [->|Hne];
             [by rewrite lookup_delete_eq|].
           rewrite lookup_delete_ne by done. by apply Hkeys.
        -- intros e c Hc. apply (Hch e).
           by apply (child_dropStatic e cur seg).
      * split; [|done].
        apply wellFormed_intro; [|exact Hval|].
        -- intros key Hkey. cbn.
           rewrite lookup_insert_ne; [by apply Hkeys|].
           intros ->. by rewrite Hcolon, Hstar in Hkey.
        -- intros e c [[-> ->]|Hc]%child_putStatic; [done|by apply (Hch e)].
    + cbn [andb]. rewrite Hsame by done.
      rewrite setChildren_id by (by rewrite insert_id).
      done.
  - destruct (deleteSegs rest pc) as [c' had'] eqn:Hrec.
    injection Hdel as <- <-.
    apply IH in Hrec as [Hwf' Hsame]; [|by apply (Hch EParam)].
    unfold compact. destruct had'.
    + destruct (isBare c') eqn:Hbare; cbn [andb].
      * split; [|done]. unfold unlink. rewrite HasPrefix_byte. cbn.
        apply wellFormed_intro; [exact Hkeys|exact Hval|].
        intros e c Hc. apply (Hch e). exact (child_dropParam e cur c Hc).
      * split; [|done].
        apply wellFormed_intro; [exact Hkeys|exact Hval|].
        intros e c [[-> ->]|Hc]%child_putParam; [done|by apply (Hch e)].
    + cbn [andb]. rewrite Hsame by done.
      by rewrite setParamChild_id.
  - destruct (clearValue wc) as [c' had'] eqn:Hrec.
    injection Hdel as <- <-.
    apply clearValue_wellFormed in Hrec as [Hwf' Hsame]; [|by apply (Hch EWild)].
    unfold compact. destruct had'.
    + destruct (isBare c') eqn:Hbare; cbn [andb].
      * split; [|done]. unfold unlink. rewrite !HasPrefix_byte. cbn.
        apply wellFormed_intro; [exact Hkeys|exact Hval|].
        intros e c Hc. apply (Hch e). exact (child_dropWild e cur c Hc).
      * split; [|done].
        apply wellFormed_intro; [exact Hkeys|exact Hval|].
        intros e c [[-> ->]|Hc]%child_putWild; [done|by apply (Hch e)].
    + cbn [andb]. rewrite Hsame by done.
      by rewrite setWildChild_id.
  - by injection Hdel as <- <-.
Qed.

(** Every tree that accepted calls have built is well-formed. *)
Lemma built_wellFormed t : built t → wellFormed t.
Proof.
  induction 1 as [|t t' path val _ IH Hins|t path _ IH].
  - apply wellFormed_newNode.
  - unfold Insert in Hins. destruct (badPath path); [done|].
    by apply (insertSegs_wellFormed path val (splitPath path) t t').
  - unfold Delete. destruct (badPath path); [done|].
    destruct (deleteSegs (splitPath path) t) as [d had] eqn:Hdel.
    by apply (deleteSegs_wellFormed (splitPath path) t d had).
Qed.

(** *** Delete after Insert *)

Lemma nodeFor_newNode segs (seg : string) (ty : NodeType) (pname wname : string) n :
  nodeFor segs (newNode (T := T) seg ty pname wname) = Some n → value n = None.
Proof.
  induction segs as [|s rest IH]; cbn [nodeFor].
  - by intros [= <-].
  - case_bool_decide; [done|].
    unfold stepTo. by destruct (headIs colon s), (headIs star s).
Qed.

(** On a well-formed tree that holds no value for the segments, the walk
    of [Delete] retraces the walk of an accepted [Insert], clears the value
    it set and unlinks exactly the nodes it linked. *)
Lemma deleteSegs_insertSegs (path : string) (v : T) segs :
  ∀ cur cur',
    wellFormed cur →
    (∀ n, nodeFor segs cur = Some n → value n = None) →
    insertSegs path v segs cur = (cur', None) →
    deleteSegs segs cur' = (cur, true).
Proof.
  induction segs as [|seg rest IH]; intros cur cur' Hwf Hfree Hins;
    cbn [insertSegs] in Hins; cbn [deleteSegs].
  { injection Hins as <-.
    destruct (wellFormed_inv cur Hwf) as ((_ & Hval & _) & _).
    unfold clearValue. cbn [value setValue].
    rewrite bool_decide_eq_true_2 by eauto. f_equal.
    assert (Hv : value cur = None) by (by apply Hfree).
    rewrite <-(setValue_clear_id cur Hv (Hval Hv)) at 2. reflexivity. }
  cbn [nodeFor] in Hfree.
  case_bool_decide; [by eapply IH|].
  destruct (wellFormed_inv cur Hwf) as ((Hkeys & Hval & _) & Hch).
  unfold stepTo in Hfree.
  destruct (headIs colon seg) eqn:Hcolon; [|destruct (headIs star seg) eqn:Hstar].
  - case_bool_decide; [done|]. case_bool_decide as Hnowild; [done|].
    case_bool_decide; [|done].
    destruct (insertSegs path v rest _) as [pc' err] eqn:Hrec.
    injection Hins as <- ->.
    cbn [children paramChild setParamChild].
    rewrite Hkeys by (by rewrite Hcolon).
    destruct (paramChild cur) as [pc|] eqn:Hparam; cbn [default] in Hrec.
    + rewrite (IH pc pc'); [|by apply (Hch EParam)|done|done].
      unfold compact. rewrite (proj1 (Hch EParam pc Hparam)). cbn [andb].
      f_equal. transitivity (setParamChild cur (Some pc)); [done|].
      by apply setParamChild_id.
    + rewrite (IH _ pc' (wellFormed_newNode _ _ _ _) (nodeFor_newNode rest _ _ _ _) Hrec).
      unfold compact, unlink. rewrite isBare_newNode, HasPrefix_byte. cbn [andb headIs].
      rewrite bool_decide_eq_true_2 by done.
      f_equal. transitivity (setParamChild cur None); [done|].
      by apply setParamChild_id.
  - case_bool_decide; [done|]. case_bool_decide as Hlast; [|done].
    destruct ((0 <? lenChildren cur)%nat) eqn:Hlen; [done|].
    case_bool_decide as Hnoparam; [done|]. cbn [orb] in Hins.
    subst rest. cbn [insertSegs] in Hins. injection Hins as <-.
    cbn [children paramChild wildChild setWildChild].
    rewrite Hkeys by (by rewrite Hstar, orb_true_r).
    assert (Hparam : paramChild cur = None).
    { destruct (paramChild cur); [|done]. destruct Hnoparam. eauto. }
    rewrite Hparam. unfold clearValue. cbn [value setValue].
    rewrite bool_decide_eq_true_2 by eauto.
    unfold compact, unlink. rewrite !HasPrefix_byte. cbn [andb headIs].
    destruct (wildChild cur) as [wc|] eqn:Hwild; cbn [default].
    + destruct (wellFormed_inv wc (proj2 (Hch EWild wc Hwild))) as ((_ & Hvalw & _) & _).
      assert (Hv : value wc = None) by (by apply Hfree).
      change (id wc) with wc.
      change (setValue (setValue wc (Some v) path) None "") with (setValue wc None "").
      rewrite (setValue_clear_id wc Hv (Hvalw Hv)).
      rewrite (proj1 (Hch EWild wc Hwild)).
      f_equal. transitivity (setWildChild cur (Some wc)); [done|].
      by apply setWildChild_id.
    + rewrite bool_decide_eq_false_2 by done.
      rewrite bool_decide_eq_true_2 by done.
      change (isBare _) with true.
      f_equal. transitivity (setWildChild cur None); [done|].
      by apply setWildChild_id.
  - destruct (insertSegs path v rest _) as [child' err] eqn:Hrec.
    injection Hins as <- ->.
    cbn [children setChildren]. rewrite lookup_insert_eq.
    destruct (children cur !! seg) as [c0|] eqn:Hstatic; cbn [default] in Hrec.
    + rewrite (IH c0 child'); [|by apply (Hch (EStatic seg))|done|done].
      unfold compact. rewrite (proj1 (Hch (EStatic seg) c0 Hstatic)). cbn [andb].
      f_equal.
      transitivity (setChildren cur (<[seg := c0]> (<[seg := child']> (children cur))));
        [done|].
      apply setChildren_id. by rewrite insert_insert_eq, insert_id.
    + rewrite (IH _ child' (wellFormed_newNode _ _ _ _) (nodeFor_newNode rest _ _ _ _) Hrec).
      unfold compact, unlink. rewrite isBare_newNode, !HasPrefix_byte, Hcolon, Hstar.
      cbn [andb]. f_equal.
      transitivity
        (setChildren cur
           (delete seg (<[seg := newNode seg Static "" ""]>
                          (<[seg := child']> (children cur))))); [done|].
      apply setChildren_id. by rewrite !delete_insert_eq, delete_id.
Qed.

Lemma Delete_Insert_wellFormed t t' (path : string) (v : T) :
  wellFormed t →
  (∀ n, nodeFor (splitPath path) t = Some n → value n = None) →
  Insert path v t = (t', None) →
  Delete path t' = (t, true).
Proof.
  intros Hwf Hfree Hins. unfold Insert in Hins. unfold Delete.
  destruct (badPath path); [done|].
  by apply (deleteSegs_insertSegs path v (splitPath path) t t').
Qed.

Lemma not_stored_free t (path : string) :
  ¬ stored path t → ∀ n, nodeFor (splitPath path) t = Some n → value n = None.
Proof.
  intros Hfree n Hn. destruct (value n) eqn:Hv; [|done].
  destruct Hfree. exists n. split; [done|]. rewrite Hv. eauto.
Qed.

(** C8, as the code has it. For every tree [t] that accepted [Insert]s and
    [Delete]s have built from the empty tree, and every key that [Insert]
    accepts on [t] and under which [t] holds no value: [Insert] and then
    [Delete] of the key return the tree [t] itself, the value removed and
    every node that the [Insert] linked unlinked again. *)
Theorem delete_after_insert t t' (path : string) (v : T) :
  built t → ¬ stored path t → Insert path v t = (t', None) →
  Delete path t' = (t, true).
Proof.
  intros Hbuilt Hfree Hins.
  apply (Delete_Insert_wellFormed t t' path v); [|by apply not_stored_free|done].
  by apply built_wellFormed.
Qed.

(** *** Lookup after Insert *)

(** On a well-formed tree, [Lookup] of a key that [Insert] has just accepted
    walks to the node that holds the value. *)
Lemma lookupSegs_insertSegs (path : string) (v : T) segs :
  ∀ cur cur' (params : gmap string string),
    wellFormed cur → insertSegs path v segs cur = (cur', None) →
    ∃ n params', lookupSegs segs params cur' = Some (n, params') ∧ value n = Some v.
Proof.
  induction segs as [|seg rest IH]; intros cur cur' params Hwf Hins;
    cbn [insertSegs] in Hins; cbn [lookupSegs].
  { injection Hins as <-. by exists (setValue cur (Some v) path), params. }
  case_bool_decide; [by eapply IH|].
  destruct (wellFormed_inv cur Hwf) as ((Hkeys & _ & _) & Hch).
  destruct (headIs colon seg) eqn:Hcolon; [|destruct (headIs star seg) eqn:Hstar].
  - case_bool_decide; [done|]. case_bool_decide; [done|].
    case_bool_decide; [|done].
    destruct (insertSegs path v rest _) as [pc' err] eqn:Hrec.
    injection Hins as <- ->.
    cbn [children paramChild setParamChild].
    rewrite Hkeys by (by rewrite Hcolon).
    eapply IH; [|done].
    destruct (paramChild cur) as [pc|] eqn:Hparam; cbn.
    + by apply (Hch EParam).
    + apply wellFormed_newNode.
  - case_bool_decide; [done|]. case_bool_decide as Hlast; [|done].
    destruct ((0 <? lenChildren cur)%nat); [done|].
    case_bool_decide as Hnoparam; [done|]. cbn [orb] in Hins.
    subst rest. cbn [insertSegs] in Hins. injection Hins as <-.
    cbn [children paramChild wildChild setWildChild].
    rewrite Hkeys by (by rewrite Hstar, orb_true_r).
    assert (Hparam : paramChild cur = None).
    { destruct (paramChild cur); [|done]. destruct Hnoparam. eauto. }
    rewrite Hparam. by eexists _, _.
  - destruct (insertSegs path v rest _) as [child' err] eqn:Hrec.
    injection Hins as <- ->.
    cbn [children setChildren]. rewrite lookup_insert_eq.
    eapply IH; [|done].
    destruct (children cur !! seg) as [c0|] eqn:Hstatic; cbn.
    + by apply (Hch (EStatic seg)).
    + apply wellFormed_newNode.
Qed.

Lemma Lookup_Insert t t' (path : string) (v : T) :
  built t → Insert path v t = (t', None) →
  ∃ params, Lookup path t' = Some (v, params).
Proof.
  intros Hbuilt Hins. unfold Insert in Hins. unfold Lookup.
  destruct (badPath path); [done|].
  destruct (lookupSegs_insertSegs path v (splitPath path) t t' ∅)
    as (n & params & -> & ->); [by apply built_wellFormed|done|].
  by exists params.
Qed.

End tree_facts.

Section tree_examples.
Import GoStrings RouteTree Samples.

(** C4 as stated fails: the tree holds "/*rest" and Lookup of "/" finds
    nothing. *)
Lemma wildcard_misses_root :
  (Insert "/*rest" 7%nat (NewRouteTree (T := nat))).2 = None
  ∧ Lookup "/" (wildTree 7%nat) = None.
Proof. split; reflexivity. Qed.

(** C5 fails on the code: a wildcard is refused at a node that has a static
    child, but a static child is accepted at a node that has a wildcard.
    After Insert of "/*rest" and then of "/a", both without an error, the
    root has a wildcard child and the static child "a". *)
Theorem static_sibling_of_wildcard_accepted :
  (Insert "/*rest" 1%nat (treeA 2%nat)).2 = Some ErrWildcardCoexist
  ∧ (Insert "/*rest" 1%nat (NewRouteTree (T := nat))).2 = None
  ∧ (Insert "/a" 2%nat (wildTree 1%nat)).2 = None
  ∧ is_Some (wildChild (Insert "/a" 2%nat (wildTree 1%nat)).1)
  ∧ is_Some (children (Insert "/a" 2%nat (wildTree 1%nat)).1 !! "a").
Proof. repeat split; vm_compute; eauto. Qed.

(** C8 as stated fails: on the tree that holds "/a", Insert of "/a" is
    accepted and overwrites, and Delete of "/a" then leaves the empty tree,
    not the tree before the Insert. *)
Lemma delete_after_overwrite_differs :
  (Insert "/a" 2%nat (treeA 1%nat)).2 = None
  ∧ (Delete "/a" (Insert "/a" 2%nat (treeA 1%nat)).1).1 = NewRouteTree
  ∧ treeA 1%nat ≠ NewRouteTree.
Proof.
  split; [reflexivity|]. split; [reflexivity|].
  intros Heq. apply (f_equal (λ t, size (children t))) in Heq. vm_compute in Heq.
  discriminate.
Qed.

End tree_examples.

(** ** The route registry *)
Section router_facts.
Import RouteTree Router.
Context {FileDescriptorSet Invoker : Type}.
Context {FileDescriptor ServiceDescriptor MethodDescriptor : Type}.
Variable GetServices : FileDescriptor → list ServiceDescriptor.
Variable GetMethods : ServiceDescriptor → list MethodDescriptor.
Variable GetFullyQualifiedName : ServiceDescriptor → string.
Variable GetName : MethodDescriptor → string.
Variable ExtractHTTPRules : MethodDescriptor → option (list HTTPRule).
Variable NewGRPCInvoker :
  string → option FileDescriptorSet → option (Invoker * list FileDescriptor).
Variable TrimSpace : string → string.
Variable ToUpper : string → string.
Variable pathClean : string → string.

Local Abbreviation router := (HTTPRouter Invoker MethodDescriptor).
Local Abbreviation info := (Discovery.ServiceInfo FileDescriptorSet).
Local Abbreviation nameOf i := (Discovery.ServiceName (Discovery.Meta i)).
Local Abbreviation keyOf rule :=
  (normalizePath TrimSpace ToUpper pathClean (RuleMethod rule) (RulePath rule)).
Local Abbreviation registerRule :=
  (Router.registerRule GetFullyQualifiedName GetName TrimSpace ToUpper pathClean).
Local Abbreviation routeOf := (Router.routeOf GetFullyQualifiedName GetName).
Local Abbreviation RegisterService :=
  (Router.RegisterService GetServices GetMethods GetFullyQualifiedName GetName
     ExtractHTTPRules NewGRPCInvoker TrimSpace ToUpper pathClean).

(** [RegisterService] returns an error for an invalid service only. *)
Lemma RegisterService_error (r : router) (service : option info) :
  (RegisterService r service).2 =
    if invalidService TrimSpace service then Some ErrInvalidServiceInfo else None.
Proof.
  unfold Router.RegisterService. destruct service as [i|]; [|done].
  destruct (invalidService TrimSpace (Some i)); [done|].
  destruct (createInvokers _ _ _ _) as [created firstFileDescs].
  by repeat case_match.
Qed.

(** A rule whose key the path index has leaves the registry as it is. *)
Lemma registerRule_known (r : router) (serviceName : string) (svc : ServiceDescriptor)
    (method : MethodDescriptor) (rule : HTTPRule) :
  keyOf rule ∈ pathIndex r → registerRule serviceName svc method r rule = r.
Proof. intros Hin. unfold Router.registerRule. by rewrite bool_decide_eq_true_2. Qed.

(** C10, as the code has it. For a service that has no routes and no pool,
    [UnRegisterService] leaves the route tree, the route index, the path
    index and the pool map as they are; it returns no error when the name
    is not blank, and the invalid-service error when it is. *)
Theorem unregister_unknown_service (r : router) (i : info) (order : list string) :
  routeIndex r !! nameOf i = None →
  servicePools r !! nameOf i = None →
  order ≡ₚ elements (pathsOf r (nameOf i)) →
  UnRegisterService TrimSpace order r (Some i) =
    (r, if bool_decide (TrimSpace (nameOf i) = "")
        then Some ErrInvalidServiceInfo else None).
Proof.
  intros Hroutes Hpool Horder. unfold UnRegisterService, invalidService.
  case_bool_decide; [done|].
  unfold pathsOf in Horder. rewrite Hroutes in Horder. cbn in Horder.
  rewrite elements_empty in Horder. apply Permutation_nil_r in Horder as ->.
  cbn [foldl]. rewrite !delete_id by done. by destruct r.
Qed.

End router_facts.

Section router_examples.
Import RouteTree Router Samples.

(** The scenario run through [RegisterService] and [UnRegisterService]: two
    services publish GET /v1/ping, the first is installed, the second is
    skipped, and after the first is unregistered the path is gone. *)
Example duplicate_path_scenario :
  let r1 := (register emptyRouter (Some userInfo)).1 in
  let r2 := (register r1 (Some orderInfo)).1 in
  let r3 := (unregister ["/[GET]/v1/ping"] r2 (Some userInfo)).1 in
  (register r1 (Some orderInfo)).2 = None
  ∧ ServiceName <$> (fst <$> Lookup "/[GET]/v1/ping" (routerTree r2)) = Some "user"
  ∧ elements (pathIndex r2) = ["/[GET]/v1/ping"]
  ∧ routeIndex r2 !! "order" = None
  ∧ (unregister ["/[GET]/v1/ping"] r2 (Some userInfo)).2 = None
  ∧ Lookup "/[GET]/v1/ping" (routerTree r3) = None
  ∧ routerTree r3 = NewRouteTree
  ∧ pathIndex r3 = ∅
  ∧ routeIndex r3 = ∅.
Proof. repeat split; vm_compute; reflexivity. Qed.

Lemma unregister_unknown_service_witness :
  unregister [] emptyRouter (Some userInfo) = (emptyRouter, None).
Proof.
  apply (unregister_unknown_service GoStrings.asciiTrimSpace emptyRouter userInfo []);
    reflexivity.
Defined.

(** C10 as stated fails: the blank service name has no routes and no pool,
    and [UnRegisterService] returns the invalid-service error for it. *)
Lemma unregister_blank_service_fails :
  routeIndex emptyRouter !! "" = None
  ∧ servicePools emptyRouter !! "" = None
  ∧ unregister [] emptyRouter (Some blankInfo) = (emptyRouter, Some ErrInvalidServiceInfo).
Proof. repeat split; reflexivity. Qed.

Lemma delete_after_insert_witness :
  Delete "/a/:id" (Insert "/a/:id" 2%nat (treeA 1%nat)).1 = (treeA 1%nat, true).
Proof.
  apply (delete_after_insert (treeA 1%nat) _ "/a/:id" 2%nat).
  - apply (built_insert NewRouteTree _ "/a" 1%nat); [apply built_new|reflexivity].
  - intros (n & Hn & _). vm_compute in Hn. discriminate.
  - reflexivity.
Defined.

End router_examples.

(** ** The route tree: shape, Lookup, Delete and Update *)
Section tree_more_facts.
Import GoStrings RouteTree RouteTreeMore.
Context {T : Type}.
Implicit Types (cur n t : node T) (segs : list string).

Lemma allNodes_inv (P : node T → Prop) n :
  allNodes P n → P n ∧ ∀ e c, child e n = Some c → allNodes P c.
Proof.
  intros Hall. split; [by apply (Hall [])|].
  intros e c Hc p m Hm. apply (Hall (e :: p)). cbn. by rewrite Hc.
Qed.

Lemma allNodes_intro (P : node T → Prop) n :
  P n → (∀ e c, child e n = Some c → allNodes P c) → allNodes P n.
Proof.
  intros Hn Hch [|e p] m Hm; cbn in Hm.
  - by injection Hm as <-.
  - destruct (child e n) as [c|] eqn:Hc; [|done]. by apply (Hch e c Hc p).
Qed.

Lemma sameHead_refl n : sameHead n n.
Proof. by repeat split. Qed.

Lemma headIs_String (c : ascii) (s : string) :
  headIs c s = true → s = String c (tail1 s).
Proof. destruct s as [|a s]; [done|]. cbn. by intros ->%bool_decide_eq_true. Qed.

Lemma linksOk_newNode (seg : string) (ty : NodeType) (pname wname : string) :
  allNodes linksOk (newNode (T := T) seg ty pname wname).
Proof.
  apply allNodes_intro; [|by intros [key| |] c Hc].
  split; [done|]. split; [done|]. split; [done|]. split; [done|].
  intros key c Hc. cbn in Hc. by rewrite lookup_empty in Hc.
Qed.

Lemma linksOk_setValue n (v : option T) (fp : string) :
  linksOk n → (v = None → fp = "") → linksOk (setValue n v fp).
Proof. intros (_ & Hrest) Hv. by split. Qed.

Lemma linksOk_putStatic n (key : string) (c' : node T) :
  linksOk n → key ≠ "" → headIs colon key = false → headIs star key = false →
  typeOf c' = Static → segment c' = key →
  linksOk (setChildren n (<[key := c']> (children n))).
Proof.
  intros (Hval & Hexcl & Hwild & Hparam & Hstatic) Hkey Hcolon Hstar Hty Hseg.
  split; [done|]. split; [done|]. split; [done|]. split; [done|].
  intros k c. cbn. destruct (decide (key = k)) as [<-|Hne].
  - rewrite lookup_insert_eq. by intros [= <-].
  - rewrite lookup_insert_ne by done. apply Hstatic.
Qed.

Lemma linksOk_putParam n (pc' : node T) :
  linksOk n → wildChild n = None →
  typeOf pc' = Param → segment pc' = String colon (paramName pc') → paramName pc' ≠ "" →
  linksOk (setParamChild n (Some pc')).
Proof.
  intros (Hval & Hexcl & Hwild & Hparam & Hstatic) Hnowild Hty Hseg Hname.
  split; [done|]. split; [done|]. split; [done|]. split; [|done].
  intros pc. cbn. by intros [= <-].
Qed.

Lemma linksOk_putWild n (wc' : node T) :
  linksOk n → paramChild n = None →
  children wc' = ∅ → paramChild wc' = None → wildChild wc' = None →
  typeOf wc' = Wildcard → segment wc' = String star (wildName wc') → wildName wc' ≠ "" →
  linksOk (setWildChild n (Some wc')).
Proof.
  intros (Hval & Hexcl & Hwild & Hparam & Hstatic) Hnoparam ? ? ? ? ? ?.
  split; [done|]. split; [|split; [|done]].
  - cbn. rewrite Hnoparam. by intros [? ?].
  - intros wc. cbn. by intros [= <-].
Qed.

Lemma linksOk_unlink n (key : string) : linksOk n → linksOk (unlink key n).
Proof.
  intros (Hval & Hexcl & Hwild & Hparam & Hstatic). unfold unlink.
  destruct (HasPrefix key _); [|destruct (HasPrefix key _)].
  - split; [done|]. split; [by intros [? ?]|]. by split.
  - split; [done|]. split; [done|]. split; [done|]. by split.
  - split; [done|]. split; [done|]. split; [done|]. split; [done|].
    intros k c. cbn. destruct (decide (key = k)) as [<-|Hne].
    + by rewrite lookup_delete_eq.
    + rewrite lookup_delete_ne by done. apply Hstatic.
Qed.

Lemma child_unlink e n (key : string) (c : node T) :
  child e (unlink key n) = Some c → child e n = Some c.
Proof.
  unfold unlink. destruct (HasPrefix key _); [|destruct (HasPrefix key _)].
  - apply child_dropParam.
  - apply child_dropWild.
  - apply child_dropStatic.
Qed.

Lemma allNodes_unlink n (key : string) :
  allNodes linksOk n → allNodes linksOk (unlink key n).
Proof.
  intros [Hn Hch]%allNodes_inv. apply allNodes_intro; [by apply linksOk_unlink|].
  intros e c Hc%child_unlink. by apply (Hch e).
Qed.

Lemma allNodes_put n n' (c' : node T) :
  allNodes linksOk n → linksOk n' → allNodes linksOk c' →
  (∀ e c, child e n' = Some c → c = c' ∨ child e n = Some c) →
  allNodes linksOk n'.
Proof.
  intros [_ Hch]%allNodes_inv Hn' Hc' Hsub. apply allNodes_intro; [done|].
  intros e c [->|Hc]%Hsub; [done|by apply (Hch e)].
Qed.

Lemma child_putStatic_or e n (key : string) (c' c : node T) :
  child e (setChildren n (<[key := c']> (children n))) = Some c →
  c = c' ∨ child e n = Some c.
Proof. intros [[_ ->]|Hc]%child_putStatic; [by left|by right]. Qed.

Lemma child_putParam_or e n (c' c : node T) :
  child e (setParamChild n (Some c')) = Some c → c = c' ∨ child e n = Some c.
Proof. intros [[_ ->]|Hc]%child_putParam; [by left|by right]. Qed.

Lemma child_putWild_or e n (c' c : node T) :
  child e (setWildChild n (Some c')) = Some c → c = c' ∨ child e n = Some c.
Proof. intros [[_ ->]|Hc]%child_putWild; [by left|by right]. Qed.

Lemma allNodes_setValue n (v : option T) (fp : string) :
  allNodes linksOk n → (v = None → fp = "") → allNodes linksOk (setValue n v fp).
Proof.
  intros [Hn Hch]%allNodes_inv Hv. apply allNodes_intro; [by apply linksOk_setValue|].
  intros e c. rewrite child_setValue. apply Hch.
Qed.

(** [Insert], accepted or refused, keeps the links of the tree in shape. *)
Lemma insertSegs_links (path : string) (v : T) segs :
  ∀ cur, allNodes linksOk cur →
         allNodes linksOk (insertSegs path v segs cur).1
         ∧ sameHead cur (insertSegs path v segs cur).1.
Proof.
  induction segs as [|seg rest IH]; intros cur Hall; cbn [insertSegs].
  { split; [by apply allNodes_setValue|by repeat split]. }
  case_bool_decide as Hseg; [by apply IH|].
  destruct (allNodes_inv _ _ Hall) as [(Hval & Hexcl & Hwild & Hparam & Hstatic) Hch].
  destruct (headIs colon seg) eqn:Hcolon; [|destruct (headIs star seg) eqn:Hstar].
  - case_bool_decide as Hname; [split; [done|apply sameHead_refl]|].
    case_bool_decide as Hhaswild; [split; [done|apply sameHead_refl]|].
    assert (Hnowild : wildChild cur = None).
    { destruct (wildChild cur); [|done]. destruct Hhaswild. eauto. }
    set (pc := default (newNode seg Param (tail1 seg) "") (paramChild cur)).
    assert (Hpc : allNodes linksOk pc
                  ∧ typeOf pc = Param ∧ segment pc = String colon (paramName pc)
                  ∧ paramName pc ≠ "").
    { subst pc. destruct (paramChild cur) as [pc0|] eqn:Hpc0; cbn.
      - split; [by apply (Hch EParam)|]. by apply Hparam.
      - split; [apply linksOk_newNode|]. split; [done|]. split; [|done].
        by apply headIs_String. }
    destruct Hpc as (Hpcall & Hpcty & Hpcseg & Hpcname).
    case_bool_decide as Hsame.
    + destruct (IH pc Hpcall) as [Hall' (Hs & Ht & Hp & Hw)].
      destruct (insertSegs path v rest pc) as [pc' err]. cbn in *.
      split; [|by repeat split].
      apply (allNodes_put cur _ pc'); [done| |done|intros e c; apply child_putParam_or].
      apply linksOk_putParam; [done|done|congruence..].
    + cbn. split; [|by repeat split].
      apply (allNodes_put cur _ pc); [done| |done|intros e c; apply child_putParam_or].
      by apply linksOk_putParam.
  - case_bool_decide as Hname; [split; [done|apply sameHead_refl]|].
    case_bool_decide as Hlast; [|split; [done|apply sameHead_refl]].
    destruct ((0 <? lenChildren cur)%nat); [split; [done|apply sameHead_refl]|].
    case_bool_decide as Hhasparam; [split; [done|apply sameHead_refl]|].
    cbn [orb negb]. subst rest. cbn [insertSegs].
    assert (Hnoparam : paramChild cur = None).
    { destruct (paramChild cur); [|done]. destruct Hhasparam. eauto. }
    set (wc := default (newNode seg Wildcard "" (tail1 seg)) (wildChild cur)).
    assert (Hwc : allNodes linksOk wc
                  ∧ children wc = ∅ ∧ paramChild wc = None ∧ wildChild wc = None
                  ∧ typeOf wc = Wildcard ∧ segment wc = String star (wildName wc)
                  ∧ wildName wc ≠ "").
    { subst wc. destruct (wildChild cur) as [wc0|] eqn:Hwc0; cbn.
      - split; [by apply (Hch EWild)|]. by apply Hwild.
      - split; [apply linksOk_newNode|]. repeat split; try done.
        by apply headIs_String. }
    destruct Hwc as (Hwcall & ? & ? & ? & ? & ? & ?).
    cbn. split; [|by repeat split].
    apply (allNodes_put cur _ (setValue wc (Some v) path));
      [done| |by apply allNodes_setValue|intros e c; apply child_putWild_or].
    by apply linksOk_putWild.
  - set (c0 := default (newNode seg Static "" "") (children cur !! seg)).
    assert (Hc0 : allNodes linksOk c0 ∧ typeOf c0 = Static ∧ segment c0 = seg).
    { subst c0. destruct (children cur !! seg) as [c1|] eqn:Hc1; cbn.
      - split; [by apply (Hch (EStatic seg))|].
        destruct (Hstatic seg c1 Hc1) as (? & ? & _). done.
      - split; [apply linksOk_newNode|done]. }
    destruct Hc0 as (Hc0all & Hc0ty & Hc0seg).
    destruct (IH c0 Hc0all) as [Hall' (Hs & Ht & Hp & Hw)].
    destruct (insertSegs path v rest c0) as [c' err]. cbn in *.
    split; [|by repeat split].
    apply (allNodes_put cur _ c'); [done| |done|intros e c; apply child_putStatic_or].
    apply linksOk_putStatic; [done|done|done|done|congruence..].
Qed.

Lemma sameHead_trans (a b c : node T) : sameHead a b → sameHead b c → sameHead a c.
Proof. unfold sameHead. intros (-> & -> & -> & ->) (-> & -> & -> & ->). done. Qed.

Lemma compact_links (key : string) cur (c : node T) (had : bool) :
  allNodes linksOk cur →
  allNodes linksOk (compact key cur c had) ∧ sameHead cur (compact key cur c had).
Proof.
  intros Hall. unfold compact. destruct (had && isBare c); [|by split; [|apply sameHead_refl]].
  split; [by apply allNodes_unlink|].
  unfold unlink. destruct (HasPrefix key _); [|destruct (HasPrefix key _)]; by repeat split.
Qed.

Lemma clearValue_links cur :
  allNodes linksOk cur →
  allNodes linksOk (clearValue cur).1 ∧ sameHead cur (clearValue cur).1
  ∧ ((clearValue cur).2 = false → (clearValue cur).1 = cur).
Proof.
  intros Hall. unfold clearValue. cbn.
  split; [by apply allNodes_setValue|]. split; [by repeat split|].
  intros Hnone%bool_decide_eq_false.
  assert (Hv : value cur = None).
  { destruct (value cur); [|done]. destruct Hnone. eauto. }
  destruct (allNodes_inv _ _ Hall) as [(Hval & _) _].
  by apply setValue_clear_id; [|apply Hval].
Qed.

(** [Delete] keeps the links in shape, and when it returns false it leaves
    the tree as it was. *)
Lemma deleteSegs_links segs :
  ∀ cur, allNodes linksOk cur →
         allNodes linksOk (deleteSegs segs cur).1
         ∧ sameHead cur (deleteSegs segs cur).1
         ∧ ((deleteSegs segs cur).2 = false → (deleteSegs segs cur).1 = cur).
Proof.
  induction segs as [|seg rest IH]; intros cur Hall; cbn [deleteSegs].
  { by apply clearValue_links. }
  case_bool_decide as Hseg; [by apply IH|].
  pose proof (proj1 (allNodes_inv _ _ Hall)) as Hcur.
  destruct (allNodes_inv _ _ Hall) as [(Hval & Hexcl & Hwild & Hparam & Hstatic) Hch].
  destruct (children cur !! seg) as [c0|] eqn:Hc0;
    [|destruct (paramChild cur) as [pc|] eqn:Hpc;
      [|destruct (wildChild cur) as [wc|] eqn:Hwc]].
  - destruct (IH c0 (Hch (EStatic seg) c0 Hc0)) as (Hall' & (Hs & Ht & Hp & Hw) & Hsame).
    destruct (deleteSegs rest c0) as [c' had]. cbn in *.
    destruct (Hstatic seg c0 Hc0) as (Hty & Hsg & Hne & Hcolon & Hstar).
    assert (Hall1 : allNodes linksOk (setChildren cur (<[seg := c']> (children cur)))).
    { apply (allNodes_put cur _ c'); [done| |done|intros e c; apply child_putStatic_or].
      apply linksOk_putStatic; [done|done|done|done|congruence..]. }
    destruct (compact_links seg _ c' had Hall1) as [Hall2 Hhead2].
    split; [done|]. split; [eapply sameHead_trans; [|exact Hhead2]; by repeat split|].
    intros ->. rewrite Hsame by done. unfold compact. cbn [andb].
    apply setChildren_id. by rewrite insert_id.
  - destruct (IH pc (Hch EParam pc Hpc)) as (Hall' & (Hs & Ht & Hp & Hw) & Hsame).
    destruct (deleteSegs rest pc) as [c' had]. cbn in *.
    destruct (Hparam pc eq_refl) as (Hty & Hsg & Hne).
    assert (Hall1 : allNodes linksOk (setParamChild cur (Some c'))).
    { apply (allNodes_put cur _ c'); [done| |done|intros e c; apply child_putParam_or].
      apply linksOk_putParam; [done|apply Hexcl; eauto|congruence..]. }
    destruct (compact_links (String colon (paramName pc)) _ c' had Hall1) as [Hall2 Hhead2].
    split; [done|]. split; [eapply sameHead_trans; [|exact Hhead2]; by repeat split|].
    intros ->. rewrite Hsame by done. unfold compact. cbn [andb].
    by apply setParamChild_id.
  - destruct (clearValue_links wc (Hch EWild wc Hwc)) as (Hall' & (Hs & Ht & Hp & Hw) & Hsame).
    destruct (Hwild wc eq_refl) as (? & ? & ? & ? & ? & ?).
    destruct (clearValue wc) as [c' had] eqn:Hclear. cbn in *.
    assert (Hc' : c' = setValue wc None "") by (by injection Hclear as <- _).
    assert (Hall1 : allNodes linksOk (setWildChild cur (Some c'))).
    { apply (allNodes_put cur _ c'); [done| |done|intros e c; apply child_putWild_or].
      apply linksOk_putWild; [done|done|by rewrite Hc'..|congruence|congruence|congruence]. }
    destruct (compact_links (String star (wildName wc)) _ c' had Hall1) as [Hall2 Hhead2].
    split; [done|]. split; [eapply sameHead_trans; [|exact Hhead2]; by repeat split|].
    intros ->. rewrite Hsame by done. unfold compact. cbn [andb].
    by apply setWildChild_id.
  - cbn. split; [done|]. split; [apply sameHead_refl|done].
Qed.

Lemma updateValue_links (updater : T → T * bool) cur :
  allNodes linksOk cur →
  allNodes linksOk (updateValue updater cur).1
  ∧ sameHead cur (updateValue updater cur).1
  ∧ children (updateValue updater cur).1 = children cur
  ∧ paramChild (updateValue updater cur).1 = paramChild cur
  ∧ wildChild (updateValue updater cur).1 = wildChild cur.
Proof.
  intros Hall. unfold updateValue.
  destruct (value cur) as [old|]; [|by split; [|split; [apply sameHead_refl|]]].
  destruct (updater old) as [newVal [|]]; cbn.
  - split; [by apply allNodes_setValue|]. by repeat split.
  - split; [done|]. split; [apply sameHead_refl|done].
Qed.

(** [Update] keeps the links in shape. *)
Lemma updateSegs_links (updater : T → T * bool) segs :
  ∀ cur, allNodes linksOk cur →
         allNodes linksOk (updateSegs updater segs cur).1
         ∧ sameHead cur (updateSegs updater segs cur).1.
Proof.
  induction segs as [|seg rest IH]; intros cur Hall; cbn [updateSegs].
  { destruct (updateValue_links updater cur Hall) as (? & ? & _). by split. }
  case_bool_decide as Hseg; [by apply IH|].
  pose proof (proj1 (allNodes_inv _ _ Hall)) as Hcur.
  destruct (allNodes_inv _ _ Hall) as [(Hval & Hexcl & Hwild & Hparam & Hstatic) Hch].
  destruct (children cur !! seg) as [c0|] eqn:Hc0;
    [|destruct (paramChild cur) as [pc|] eqn:Hpc;
      [|destruct (wildChild cur) as [wc|] eqn:Hwc]].
  - destruct (IH c0 (Hch (EStatic seg) c0 Hc0)) as (Hall' & (Hs & Ht & Hp & Hw)).
    destruct (updateSegs updater rest c0) as [c' ok]. cbn in *.
    destruct (Hstatic seg c0 Hc0) as (Hty & Hsg & Hne & Hcolon & Hstar).
    split; [|by repeat split].
    apply (allNodes_put cur _ c'); [done| |done|intros e c; apply child_putStatic_or].
    apply linksOk_putStatic; [done|done|done|done|congruence..].
  - destruct (IH pc (Hch EParam pc Hpc)) as (Hall' & (Hs & Ht & Hp & Hw)).
    destruct (updateSegs updater rest pc) as [c' ok]. cbn in *.
    destruct (Hparam pc eq_refl) as (Hty & Hsg & Hne).
    split; [|by repeat split].
    apply (allNodes_put cur _ c'); [done| |done|intros e c; apply child_putParam_or].
    apply linksOk_putParam; [done|apply Hexcl; eauto|congruence..].
  - destruct (updateValue_links updater wc (Hch EWild wc Hwc))
      as (Hall' & (Hs & Ht & Hp & Hw) & Hc & Hp' & Hw').
    destruct (Hwild wc eq_refl) as (? & ? & ? & ? & ? & ?).
    destruct (updateValue updater wc) as [c' ok]. cbn in *.
    split; [|by repeat split].
    apply (allNodes_put cur _ c'); [done| |done|intros e c; apply child_putWild_or].
    apply linksOk_putWild; [done|done|congruence..].
  - cbn. split; [done|apply sameHead_refl].
Qed.

Lemma reached_links t : reached t → allNodes linksOk t.
Proof.
  induction 1 as [|t path val _ IH|t path _ IH|t path updater _ IH].
  - apply linksOk_newNode.
  - unfold Insert. destruct (badPath path); [done|]. by apply insertSegs_links.
  - unfold Delete. destruct (badPath path); [done|]. by apply deleteSegs_links.
  - unfold Update. destruct (badPath path); [done|]. by apply updateSegs_links.
Qed.

(** X3. In every tree reached from the empty tree by [Insert] (accepted or
    refused), [Delete] and [Update], every node is linked in shape: no node
    has both a parameter child and a wildcard child, a wildcard child is a
    leaf, every child has the type and the segment it is linked under, a
    static child is never keyed like a parameter or a wildcard, and a node
    without a value has an empty full path. *)
Theorem reached_tree_shape t (p : list edge) n :
  reached t → nodeAt p t = Some n → linksOk n.
Proof. intros Hreached. by apply reached_links. Qed.

Lemma nodeFor_leaf segs (wc n : node T) :
  children wc = ∅ → paramChild wc = None → wildChild wc = None →
  nodeFor segs wc = Some n → n = wc.
Proof.
  intros Hc Hp Hw. induction segs as [|seg rest IH]; cbn [nodeFor].
  - by intros [= <-].
  - case_bool_decide; [done|]. unfold stepTo.
    rewrite Hc, Hp, Hw, lookup_empty. by destruct (headIs colon seg), (headIs star seg).
Qed.

(** On a tree in shape the walk of [Lookup] reaches the node that [Insert]
    assigns for the segments, whatever else the tree holds. *)
Lemma lookupSegs_nodeFor segs :
  ∀ cur (params : gmap string string) n,
    allNodes linksOk cur → nodeFor segs cur = Some n →
    ∃ params', lookupSegs segs params cur = Some (n, params').
Proof.
  induction segs as [|seg rest IH]; intros cur params n Hall;
    cbn [nodeFor lookupSegs].
  { intros [= <-]. by exists params. }
  case_bool_decide as Hseg; [by apply IH|].
  destruct (allNodes_inv _ _ Hall) as [(Hval & Hexcl & Hwild & Hparam & Hstatic) Hch].
  assert (Hheaded : headIs colon seg || headIs star seg = true → children cur !! seg = None).
  { intros Hh. destruct (children cur !! seg) as [c|] eqn:Hc; [|done].
    destruct (Hstatic seg c Hc) as (_ & _ & _ & Hcolon & Hstar).
    by rewrite Hcolon, Hstar in Hh. }
  unfold stepTo.
  destruct (headIs colon seg) eqn:Hcolon; [|destruct (headIs star seg) eqn:Hstar].
  - rewrite Hheaded by done.
    destruct (paramChild cur) as [pc|] eqn:Hpc; [|done].
    intros Hn. by apply IH; [apply (Hch EParam)|].
  - rewrite Hheaded by done.
    destruct (wildChild cur) as [wc|] eqn:Hwc; [|done].
    destruct (paramChild cur) as [pc|] eqn:Hpc.
    { assert (Hno : Some wc = None) by (apply Hexcl; eauto). done. }
    intros Hn. destruct (Hwild wc eq_refl) as (Hc & Hp & Hw & _).
    rewrite (nodeFor_leaf rest wc n Hc Hp Hw Hn). by eexists.
  - destruct (children cur !! seg) as [c|] eqn:Hc; [|done].
    intros Hn. by apply IH; [apply (Hch (EStatic seg))|].
Qed.

(** X2. On a reached tree, [Lookup] of a key finds the value stored under
    that key: no static, parameter or wildcard sibling takes the walk
    away from the node that [Insert] has assigned for the key. *)
Theorem Lookup_finds_stored t (path : string) n (v : T) :
  reached t → badPath path = false →
  nodeFor (splitPath path) t = Some n → value n = Some v →
  ∃ params, Lookup path t = Some (v, params).
Proof.
  intros Hreached Hpath Hn Hv. unfold Lookup. rewrite Hpath.
  destruct (lookupSegs_nodeFor (splitPath path) t ∅ n (reached_links t Hreached) Hn)
    as [params ->].
  rewrite Hv. by exists params.
Qed.

(** An accepted [Insert] leaves its value at the node of its segments. *)
Lemma nodeFor_insertSegs (path : string) (v : T) segs :
  ∀ cur cur', insertSegs path v segs cur = (cur', None) →
              ∃ n, nodeFor segs cur' = Some n ∧ value n = Some v.
Proof.
  induction segs as [|seg rest IH]; intros cur cur' Hins;
    cbn [insertSegs] in Hins; cbn [nodeFor].
  { injection Hins as <-. by eexists. }
  case_bool_decide as Hseg; [by eapply IH|].
  unfold stepTo.
  destruct (headIs colon seg) eqn:Hcolon; [|destruct (headIs star seg) eqn:Hstar].
  - case_bool_decide; [done|]. case_bool_decide; [done|]. case_bool_decide; [|done].
    destruct (insertSegs path v rest _) as [pc' err] eqn:Hrec.
    injection Hins as <- ->. cbn. by eapply IH.
  - case_bool_decide; [done|]. case_bool_decide; [|done].
    destruct ((0 <? lenChildren cur)%nat || _); [done|].
    destruct (insertSegs path v rest _) as [wc' err] eqn:Hrec.
    injection Hins as <- ->. cbn. by eapply IH.
  - destruct (insertSegs path v rest _) as [c' err] eqn:Hrec.
    injection Hins as <- ->. cbn. rewrite lookup_insert_eq. by eapply IH.
Qed.

(** X1. Insert and Lookup round trip: on a reached tree, [Lookup] of a key
    that [Insert] has just accepted returns the inserted value. *)
Theorem Lookup_after_Insert t t' (path : string) (v : T) :
  reached t → Insert path v t = (t', None) →
  ∃ params, Lookup path t' = Some (v, params).
Proof.
  intros Hreached Hins.
  assert (Hreached' : reached t').
  { replace t' with (Insert path v t).1 by (by rewrite Hins). by apply reached_insert. }
  unfold Insert in Hins. unfold Lookup.
  destruct (badPath path); [done|].
  destruct (nodeFor_insertSegs path v (splitPath path) t t' Hins) as (n & Hn & Hv).
  destruct (lookupSegs_nodeFor (splitPath path) t' ∅ n (reached_links t' Hreached') Hn)
    as [params ->].
  rewrite Hv. by exists params.
Qed.

(** [Delete] walks as [Lookup] does. *)
Lemma deleteSegs_lookupSegs segs :
  ∀ cur (params : gmap string string),
    (deleteSegs segs cur).2 =
      match lookupSegs segs params cur with
      | Some (n, _) => bool_decide (is_Some (value n))
      | None => false
      end.
Proof.
  induction segs as [|seg rest IH]; intros cur params; cbn [deleteSegs lookupSegs].
  { reflexivity. }
  case_bool_decide; [by apply IH|].
  destruct (children cur !! seg) as [c|];
    [|destruct (paramChild cur) as [pc|]; [|destruct (wildChild cur) as [wc|]]].
  - rewrite <-(IH c params). by destruct (deleteSegs rest c).
  - rewrite <-(IH pc (<[paramName pc := seg]> params)). by destruct (deleteSegs rest pc).
  - reflexivity.
  - reflexivity.
Qed.

(** X5. A [Delete] that returns false leaves a reached tree exactly as it
    was. *)
Theorem Delete_false_unchanged t (path : string) :
  reached t → (Delete path t).2 = false → (Delete path t).1 = t.
Proof.
  intros Hreached. unfold Delete. destruct (badPath path); [done|].
  by apply deleteSegs_links, reached_links.
Qed.

(** [Update] walks as [Lookup] does, and the node it writes is the node
    that [Lookup] reads. *)
Lemma updateSegs_lookupSegs (updater : T → T * bool) segs :
  ∀ cur (params : gmap string string),
    sameHead cur (updateSegs updater segs cur).1
    ∧ match lookupSegs segs params cur with
      | Some (n, params') =>
          match value n with
          | Some v =>
              if (updater v).2
              then (updateSegs updater segs cur).2 = true
                   ∧ ∃ n', lookupSegs segs params (updateSegs updater segs cur).1
                           = Some (n', params')
                           ∧ value n' = Some (updater v).1
              else updateSegs updater segs cur = (cur, false)
          | None => updateSegs updater segs cur = (cur, false)
          end
      | None => updateSegs updater segs cur = (cur, false)
      end.
Proof.
  assert (Hend : ∀ cur : node T,
    sameHead cur (updateValue updater cur).1
    ∧ match value cur with
      | Some v =>
          if (updater v).2
          then (updateValue updater cur).2 = true
               ∧ value (updateValue updater cur).1 = Some (updater v).1
          else updateValue updater cur = (cur, false)
      | None => updateValue updater cur = (cur, false)
      end).
  { intros cur. unfold updateValue. destruct (value cur) as [v|]; [|by split].
    destruct (updater v) as [newVal [|]]; cbn; by repeat split. }
  induction segs as [|seg rest IH]; intros cur params; cbn [updateSegs lookupSegs].
  { destruct (Hend cur) as [Hhead Hval]. split; [done|].
    destruct (value cur) as [v|]; [|done].
    destruct ((updater v).2); [|done].
    destruct Hval as [Hok Hv]. split; [done|]. by eexists. }
  case_bool_decide as Hseg; [by apply IH|].
  destruct (children cur !! seg) as [c|] eqn:Hc;
    [|destruct (paramChild cur) as [pc|] eqn:Hpc;
      [|destruct (wildChild cur) as [wc|] eqn:Hwc]].
  - destruct (IH c params) as [_ Hrec].
    destruct (updateSegs updater rest c) as [c' ok] eqn:Hupd. cbn in Hrec |- *.
    split; [by repeat split|].
    assert (Hsame : (setChildren cur (<[seg := c]> (children cur)), false) = (cur, false)).
    { f_equal. apply setChildren_id. by apply insert_id. }
    destruct (lookupSegs rest params c) as [[n params']|];
      [destruct (value n) as [v|]; [destruct ((updater v).2)|]|];
      try (by injection Hrec as -> ->).
    destruct Hrec as [-> (n' & Hn' & Hv')]. split; [done|].
    exists n'. by rewrite lookup_insert_eq.
  - destruct (IH pc (<[paramName pc := seg]> params)) as [Hhead Hrec].
    destruct (updateSegs updater rest pc) as [pc' ok] eqn:Hupd. cbn in Hhead, Hrec |- *.
    split; [by repeat split|].
    assert (Hsame : (setParamChild cur (Some pc), false) = (cur, false)).
    { f_equal. by apply setParamChild_id. }
    destruct (lookupSegs rest _ pc) as [[n params']|];
      [destruct (value n) as [v|]; [destruct ((updater v).2)|]|];
      try (by injection Hrec as -> ->).
    destruct Hrec as [-> (n' & Hn' & Hv')]. split; [done|].
    exists n'. rewrite Hc.
    destruct Hhead as (_ & _ & <- & _). done.
  - destruct (Hend wc) as [Hhead Hrec].
    destruct (updateValue updater wc) as [wc' ok] eqn:Hupd. cbn in Hhead, Hrec |- *.
    split; [by repeat split|].
    assert (Hsame : (setWildChild cur (Some wc), false) = (cur, false)).
    { f_equal. by apply setWildChild_id. }
    destruct (value wc) as [v|]; [destruct ((updater v).2)|];
      try (by injection Hrec as -> ->).
    destruct Hrec as [-> Hv']. split; [done|].
    exists wc'. rewrite Hc, Hpc.
    destruct Hhead as (_ & _ & _ & <-). done.
  - split; [apply sameHead_refl|done].
Qed.

(** X6. [Update] follows [Lookup] on every tree: when [Lookup] finds the
    value [v] for the key and the updater applies, [Update] returns true
    and a further [Lookup] of the key gives the new value with the same
    captured parameters; when [Lookup] finds nothing, or the updater
    declines, [Update] returns false and the tree is as it was. *)
Theorem Update_follows_Lookup t (path : string) (updater : T → T * bool) :
  match Lookup path t with
  | Some (v, params) =>
      if (updater v).2
      then (Update path updater t).2 = true
           ∧ Lookup path (Update path updater t).1 = Some ((updater v).1, params)
      else Update path updater t = (t, false)
  | None => Update path updater t = (t, false)
  end.
Proof.
  unfold Lookup, Update. destruct (badPath path) eqn:Hbad; [done|].
  destruct (updateSegs_lookupSegs updater (splitPath path) t ∅) as [_ Hrec].
  destruct (lookupSegs (splitPath path) ∅ t) as [[n params]|]; [|done].
  destruct (value n) as [v|]; [|done].
  destruct ((updater v).2); [|done].
  destruct Hrec as [Hok (n' & -> & ->)]. by split.
Qed.

Lemma lookupSegs_dropEmpty segs (params : gmap string string) (cur : node T) :
  lookupSegs segs params cur = lookupSegs (dropEmpty segs) params cur.
Proof.
  induction segs as [|seg rest IH]; [done|]. cbn [dropEmpty].
  case_bool_decide as Hseg; [|done]. cbn [lookupSegs].
  by rewrite bool_decide_eq_true_2.
Qed.

Lemma dropEmpty_head segs (seg : string) rest :
  dropEmpty segs = seg :: rest → seg ≠ EmptyString.
Proof.
  induction segs as [|s segs IH]; [done|]. cbn [dropEmpty].
  case_bool_decide as Hs; [done|]. by intros [= <- _].
Qed.

(** The tree that [Insert] grows from a new node for one pattern holds
    the value for the instances of the pattern and for nothing else. *)
Lemma lookupSegs_single (path : string) (v : T) pat :
  ∀ (seg : string) (ty : NodeType) (pname wname : string) t,
    insertSegs path v pat (newNode seg ty pname wname) = (t, None) →
    paramName t = pname ∧ wildName t = wname
    ∧ ∀ segs params,
        found (lookupSegs segs params t) = (λ ps, (v, ps)) <$> bind pat segs params.
Proof.
  induction pat as [|p pat IH]; intros seg ty pname wname t; cbn [insertSegs bind].
  { intros [= <-]. split; [done|]. split; [done|]. intros segs params.
    rewrite lookupSegs_dropEmpty.
    destruct (dropEmpty segs) as [|s rest] eqn:Hsegs; [done|].
    cbn. rewrite bool_decide_eq_false_2 by (by eapply dropEmpty_head).
    by rewrite lookup_empty. }
  case_bool_decide as Hp; [apply IH|].
  destruct (headIs colon p) eqn:Hcolon; [|destruct (headIs star p) eqn:Hstar].
  - case_bool_decide; [done|]. case_bool_decide; [done|]. case_bool_decide; [|done].
    cbn [paramChild newNode default].
    destruct (insertSegs path v pat _) as [pc' err] eqn:Hrec. intros [= <- ->].
    destruct (IH _ _ _ _ _ Hrec) as (Hname & _ & Hlookup).
    split; [done|]. split; [done|]. intros segs params.
    rewrite lookupSegs_dropEmpty.
    destruct (dropEmpty segs) as [|s rest] eqn:Hsegs; [done|].
    cbn. rewrite bool_decide_eq_false_2 by (by eapply dropEmpty_head).
    rewrite lookup_empty, Hname. apply Hlookup.
  - case_bool_decide; [done|]. case_bool_decide as Hlast; [|done].
    cbn [negb]. unfold lenChildren.
    cbn [children paramChild wildChild newNode default].
    rewrite map_size_empty. cbn [Nat.ltb Nat.leb orb].
    rewrite bool_decide_eq_false_2 by (by intros [? ?]).
    subst pat. cbn [insertSegs]. intros [= <-].
    split; [done|]. split; [done|]. intros segs params.
    rewrite lookupSegs_dropEmpty.
    destruct (dropEmpty segs) as [|s rest] eqn:Hsegs; [done|].
    cbn. rewrite bool_decide_eq_false_2 by (by eapply dropEmpty_head).
    by rewrite lookup_empty.
  - cbn [children newNode]. rewrite lookup_empty. cbn [default].
    destruct (insertSegs path v pat _) as [c' err] eqn:Hrec. intros [= <- ->].
    destruct (IH _ _ _ _ _ Hrec) as (_ & _ & Hlookup).
    split; [done|]. split; [done|]. intros segs params.
    rewrite lookupSegs_dropEmpty.
    destruct (dropEmpty segs) as [|s rest] eqn:Hsegs; [done|].
    cbn. rewrite bool_decide_eq_false_2 by (by eapply dropEmpty_head).
    case_bool_decide as Hs.
    + subst s. rewrite lookup_insert_eq. apply Hlookup.
    + by rewrite lookup_insert_ne, lookup_empty by done.
Qed.

(** X25. The paths one route matches. In the tree that holds a single
    route, [Lookup] of a well-formed path returns the value exactly when
    the path instantiates the pattern of the route: static segments agree,
    each parameter takes one segment, a wildcard takes the whole
    remainder, which is not empty; the parameters it returns are the
    segments the parameters took and the remainder joined by '/'. *)
Theorem single_route_matches_instances (pattern path : string) (v : T) t :
  Insert pattern v NewRouteTree = (t, None) → badPath path = false →
  Lookup path t = (λ params, (v, params)) <$> bind (splitPath pattern) (splitPath path) ∅.
Proof.
  unfold Insert, Lookup. destruct (badPath pattern); [done|].
  intros Hins ->.
  destruct (lookupSegs_single pattern v (splitPath pattern) _ _ _ _ t Hins)
    as (_ & _ & Hlookup).
  apply (Hlookup (splitPath path) ∅).
Qed.

(** *** The values of a tree by address *)

Lemma valueAt_cons (e : edge) (q : list edge) (t : node T) :
  valueAt (e :: q) t = match child e t with Some c => valueAt q c | None => None end.
Proof. unfold valueAt. cbn. by destruct (child e t). Qed.

Lemma valueAt_newNode (q : list edge) (seg : string) (ty : NodeType) (pname wname : string) :
  valueAt q (newNode (T := T) seg ty pname wname) = None.
Proof.
  destruct q as [|[key| |] q]; [done|rewrite valueAt_cons; cbn..]; [|done|done].
  by rewrite lookup_empty.
Qed.

Lemma valueAt_default (e : edge) (q : list edge) (cur : node T)
    (seg : string) (ty : NodeType) (pname wname : string) :
  valueAt q (default (newNode seg ty pname wname) (child e cur)) = valueAt (e :: q) cur.
Proof.
  rewrite valueAt_cons. destruct (child e cur); [done|]. apply valueAt_newNode.
Qed.

Lemma stepTo_edgeOf (seg : string) (cur : node T) : stepTo seg cur = child (edgeOf seg) cur.
Proof.
  unfold stepTo, edgeOf. by destruct (headIs colon seg), (headIs star seg).
Qed.

(** The node of a key is the node at the address of its segments. *)
Lemma nodeFor_addrOf segs : ∀ cur : node T, nodeFor segs cur = nodeAt (addrOf segs) cur.
Proof.
  induction segs as [|seg rest IH]; intros cur; cbn [nodeFor addrOf]; [done|].
  case_bool_decide; [apply IH|]. cbn [nodeAt]. rewrite stepTo_edgeOf.
  destruct (child (edgeOf seg) cur); [apply IH|done].
Qed.

(** What [Insert] does to the values of a tree: an accepted call stores
    its value at the address of its key and changes no other value, a
    refused call changes none. *)
Lemma insertSegs_valueAt (path : string) (v : T) segs :
  ∀ (cur : node T) (q : list edge),
    valueAt q (insertSegs path v segs cur).1 =
      match (insertSegs path v segs cur).2 with
      | None => if decide (q = addrOf segs) then Some v else valueAt q cur
      | Some _ => valueAt q cur
      end.
Proof.
  induction segs as [|seg rest IH]; intros cur q; cbn [insertSegs addrOf].
  { cbn [fst snd]. destruct q as [|e q]; [done|].
    rewrite decide_False by done. rewrite !valueAt_cons. by rewrite child_setValue. }
  case_bool_decide as Hseg; [apply IH|].
  unfold edgeOf.
  destruct (headIs colon seg) eqn:Hcolon; [|destruct (headIs star seg) eqn:Hstar].
  - case_bool_decide; [done|]. case_bool_decide; [done|].
    change (paramChild cur) with (child EParam cur).
    case_bool_decide.
    + specialize (IH (default (newNode seg Param (tail1 seg) EmptyString) (child EParam cur))).
      destruct (insertSegs path v rest _) as [pc' err]. cbn [fst snd] in IH |- *.
      destruct q as [|e q]; [by destruct err; [|rewrite decide_False]|].
      rewrite valueAt_cons.
      destruct e as [key| |]; cbn [child setParamChild paramChild children wildChild];
        [by destruct err; rewrite ?decide_False by done; rewrite valueAt_cons| |
         by destruct err; rewrite ?decide_False by done; rewrite valueAt_cons].
      rewrite IH, valueAt_default. destruct err; [done|].
      destruct (decide (q = addrOf rest)) as [->|Hne].
      * by rewrite decide_True.
      * rewrite decide_False; [done|]. by intros [= ?].
    + cbn [fst snd]. destruct q as [|e q]; [done|]. rewrite !valueAt_cons.
      destruct e as [key| |]; cbn [child setParamChild paramChild children wildChild];
        [done| |done].
      change (paramChild cur) with (child EParam cur).
      by rewrite valueAt_default, valueAt_cons.
  - case_bool_decide; [done|]. case_bool_decide as Hlast; [|done]. cbn [negb].
    destruct ((0 <? lenChildren cur)%nat || _); [done|].
    change (wildChild cur) with (child EWild cur).
    specialize (IH (default (newNode seg Wildcard EmptyString (tail1 seg)) (child EWild cur))).
    destruct (insertSegs path v rest _) as [wc' err]. cbn [fst snd] in IH |- *.
    destruct q as [|e q]; [by destruct err; [|rewrite decide_False]|].
    rewrite valueAt_cons.
    destruct e as [key| |]; cbn [child setWildChild paramChild children wildChild];
      [by destruct err; rewrite ?decide_False by done; rewrite valueAt_cons|
       by destruct err; rewrite ?decide_False by done; rewrite valueAt_cons|].
    rewrite IH, valueAt_default. destruct err; [done|].
    destruct (decide (q = addrOf rest)) as [->|Hne].
    + by rewrite decide_True.
    + rewrite decide_False; [done|]. by intros [= ?].
  - change (children cur !! seg) with (child (EStatic seg) cur).
    specialize (IH (default (newNode seg Static EmptyString EmptyString) (child (EStatic seg) cur))).
    destruct (insertSegs path v rest _) as [c' err]. cbn [fst snd] in IH |- *.
    destruct q as [|e q]; [by destruct err; [|rewrite decide_False]|].
    rewrite valueAt_cons.
    destruct e as [key| |]; cbn [child setChildren paramChild children wildChild];
      [|by destruct err; rewrite ?decide_False by done; rewrite valueAt_cons|
        by destruct err; rewrite ?decide_False by done; rewrite valueAt_cons].
    destruct (decide (key = seg)) as [->|Hkey].
    + rewrite lookup_insert_eq, IH, valueAt_default. destruct err; [done|].
      destruct (decide (q = addrOf rest)) as [->|Hne].
      * by rewrite decide_True.
      * rewrite decide_False; [done|]. by intros [= ?].
    + rewrite lookup_insert_ne by done.
      destruct err; [by rewrite valueAt_cons|].
      rewrite decide_False by (by intros [= ? ?]). by rewrite valueAt_cons.
Qed.

(** The walk of [Lookup] ends at the node at the address [walk] gives. *)
Lemma walk_lookupSegs segs :
  ∀ (cur : node T) (params : gmap string string) n ps,
    lookupSegs segs params cur = Some (n, ps) →
    ∃ p, walk segs cur = Some p ∧ nodeAt p cur = Some n.
Proof.
  induction segs as [|seg rest IH]; intros cur params n ps; cbn [lookupSegs walk].
  { intros [= <- _]. by exists []. }
  case_bool_decide; [apply IH|].
  destruct (children cur !! seg) as [c|] eqn:Hc;
    [|destruct (paramChild cur) as [pc|] eqn:Hpc;
      [|destruct (wildChild cur) as [wc|] eqn:Hwc]].
  - intros (p & -> & Hp)%IH. exists (EStatic seg :: p). cbn. by rewrite Hc.
  - intros (p & -> & Hp)%IH. exists (EParam :: p). cbn. by rewrite Hpc.
  - intros [= <- _]. exists [EWild]. cbn. by rewrite Hwc.
  - done.
Qed.

(** On a tree in shape the walk for the segments of a stored key follows
    the address of the key. *)
Lemma walk_nodeFor segs :
  ∀ (cur : node T) n,
    allNodes linksOk cur → nodeFor segs cur = Some n → walk segs cur = Some (addrOf segs).
Proof.
  induction segs as [|seg rest IH]; intros cur n Hall; cbn [nodeFor walk addrOf]; [done|].
  case_bool_decide as Hseg; [by apply IH|].
  destruct (allNodes_inv _ _ Hall) as [(Hval & Hexcl & Hwild & Hparam & Hstatic) Hch].
  assert (Hheaded : headIs colon seg || headIs star seg = true → children cur !! seg = None).
  { intros Hh. destruct (children cur !! seg) as [c|] eqn:Hc; [|done].
    destruct (Hstatic seg c Hc) as (_ & _ & _ & Hcolon & Hstar).
    by rewrite Hcolon, Hstar in Hh. }
  unfold stepTo, edgeOf.
  destruct (headIs colon seg) eqn:Hcolon; [|destruct (headIs star seg) eqn:Hstar].
  - rewrite Hheaded by done.
    destruct (paramChild cur) as [pc|] eqn:Hpc; [|done].
    intros Hn. by rewrite (IH pc n (Hch EParam pc Hpc) Hn).
  - rewrite Hheaded by done.
    destruct (wildChild cur) as [wc|] eqn:Hwc; [|done].
    destruct (paramChild cur) as [pc|] eqn:Hpc.
    { assert (Hno : Some wc = None) by (apply Hexcl; eauto). done. }
    intros Hn. destruct (Hwild wc eq_refl) as (Hc & Hp & Hw & _).
    assert (Hrest : addrOf rest = []).
    { clear -Hc Hp Hw Hn. induction rest as [|s rest IH]; [done|].
      cbn [nodeFor addrOf] in Hn |- *. case_bool_decide; [by apply IH|].
      unfold stepTo in Hn. rewrite Hc, Hp, Hw, lookup_empty in Hn.
      by destruct (headIs colon s), (headIs star s). }
    by rewrite Hrest.
  - destruct (children cur !! seg) as [c|] eqn:Hc; [|done].
    intros Hn. by rewrite (IH c n (Hch (EStatic seg) c Hc) Hn).
Qed.

Lemma valueAt_bare (q : list edge) (c : node T) : isBare c = true → valueAt q c = None.
Proof.
  unfold isBare, lenChildren.
  intros [[[Hv Hc]%andb_prop Hp]%andb_prop Hw]%andb_prop.
  apply bool_decide_eq_true in Hv, Hp, Hw.
  apply Nat.eqb_eq, map_size_empty_iff in Hc.
  destruct q as [|[key| |] q]; [done|rewrite valueAt_cons; cbn..].
  - by rewrite Hc, lookup_empty.
  - by rewrite Hp.
  - by rewrite Hw.
Qed.

Lemma valueAt_clearValue (q : list edge) (cur : node T) :
  valueAt q (clearValue cur).1 = if decide (q = []) then None else valueAt q cur.
Proof.
  unfold clearValue. cbn [fst]. destruct q as [|e q]; [done|].
  rewrite decide_False by done. by rewrite !valueAt_cons, child_setValue.
Qed.

(** The compaction step drops a child without values only. *)
Lemma valueAt_compact (key : string) (e : edge) (cur c : node T) (had : bool)
    (q : list edge) :
  child e cur = Some c →
  (∀ e', child e' (unlink key cur) = (if decide (e' = e) then None else child e' cur)) →
  value (unlink key cur) = value cur →
  valueAt q (compact key cur c had) = valueAt q cur.
Proof.
  intros Hc Hunlink Hvalue. unfold compact.
  destruct (had && isBare c) eqn:Hbare; [|done].
  apply andb_prop in Hbare as [_ Hbare].
  destruct q as [|e' q]; [done|]. rewrite !valueAt_cons, (Hunlink e').
  case_decide as He; [|done]. subst e'. rewrite Hc. by rewrite valueAt_bare.
Qed.

Lemma unlink_static (key : string) (cur : node T) :
  headIs colon key = false → headIs star key = false →
  value (unlink key cur) = value cur
  ∧ ∀ e' : edge,
      child e' (unlink key cur) = (if decide (e' = EStatic key) then None else child e' cur).
Proof.
  intros Hcolon Hstar. unfold unlink. rewrite !HasPrefix_byte, Hcolon, Hstar.
  split; [done|]. intros [k| |]; cbn; [|done..].
  destruct (decide (k = key)) as [->|Hne].
  - rewrite decide_True by done. apply lookup_delete_eq.
  - rewrite decide_False by (by intros [= ?]). by apply lookup_delete_ne.
Qed.

Lemma unlink_param (name : string) (cur : node T) :
  value (unlink (String colon name) cur) = value cur
  ∧ ∀ e' : edge,
      child e' (unlink (String colon name) cur)
      = (if decide (e' = EParam) then None else child e' cur).
Proof.
  unfold unlink. rewrite HasPrefix_byte. cbn [headIs].
  rewrite bool_decide_eq_true_2 by done. split; [done|]. by intros [k| |].
Qed.

Lemma unlink_wild (name : string) (cur : node T) :
  value (unlink (String star name) cur) = value cur
  ∧ ∀ e' : edge,
      child e' (unlink (String star name) cur)
      = (if decide (e' = EWild) then None else child e' cur).
Proof.
  unfold unlink. rewrite !HasPrefix_byte. cbn [headIs].
  rewrite bool_decide_eq_false_2 by done. rewrite bool_decide_eq_true_2 by done.
  split; [done|]. by intros [k| |].
Qed.

(** What [Delete] does to the values of a tree in shape: a call that
    returns true removes the value at the end of its walk and changes no
    other value. *)
Lemma deleteSegs_valueAt segs :
  ∀ cur : node T,
    allNodes linksOk cur → (deleteSegs segs cur).2 = true →
    ∃ p, walk segs cur = Some p
         ∧ ∀ q, valueAt q (deleteSegs segs cur).1
                = if decide (q = p) then None else valueAt q cur.
Proof.
  induction segs as [|seg rest IH]; intros cur Hall; cbn [deleteSegs walk].
  { intros _. exists []. split; [done|]. intros q. rewrite valueAt_clearValue.
    by destruct q. }
  case_bool_decide as Hseg; [by apply IH|].
  destruct (allNodes_inv _ _ Hall) as [(Hval & Hexcl & Hwild & Hparam & Hstatic) Hch].
  destruct (children cur !! seg) as [c|] eqn:Hc;
    [|destruct (paramChild cur) as [pc|] eqn:Hpc;
      [|destruct (wildChild cur) as [wc|] eqn:Hwc]].
  - specialize (IH c (Hch (EStatic seg) c Hc)).
    destruct (deleteSegs rest c) as [c' had]. cbn [fst snd] in IH |- *.
    intros Hhad. destruct (IH Hhad) as (p & -> & Heffect).
    exists (EStatic seg :: p). split; [done|]. intros q.
    destruct (Hstatic seg c Hc) as (_ & _ & _ & Hcolon & Hstar).
    destruct (unlink_static seg (setChildren cur (<[seg := c']> (children cur))) Hcolon Hstar)
      as [Hvalue Hunlink].
    rewrite (valueAt_compact seg (EStatic seg) _ c' had q);
      [|by cbn; rewrite lookup_insert_eq|done|done].
    destruct q as [|e q]; [done|]. rewrite !valueAt_cons.
    destruct e as [key| |]; cbn [child setChildren children paramChild wildChild];
      [|by rewrite decide_False|by rewrite decide_False].
    destruct (decide (key = seg)) as [->|Hkey].
    + rewrite lookup_insert_eq, Hc, Heffect.
      destruct (decide (q = p)) as [->|Hne]; [by rewrite decide_True|].
      rewrite decide_False; [done|]. by intros [= ?].
    + rewrite lookup_insert_ne by done. rewrite decide_False; [done|]. by intros [= ? ?].
  - specialize (IH pc (Hch EParam pc Hpc)).
    destruct (deleteSegs rest pc) as [pc' had]. cbn [fst snd] in IH |- *.
    intros Hhad. destruct (IH Hhad) as (p & -> & Heffect).
    exists (EParam :: p). split; [done|]. intros q.
    destruct (unlink_param (paramName pc) (setParamChild cur (Some pc'))) as [Hvalue Hunlink].
    rewrite (valueAt_compact _ EParam _ pc' had q); [|done|done|done].
    destruct q as [|e q]; [done|]. rewrite !valueAt_cons.
    destruct e as [key| |]; cbn [child setParamChild children paramChild wildChild];
      [by rewrite decide_False| |by rewrite decide_False].
    rewrite Hpc, Heffect.
    destruct (decide (q = p)) as [->|Hne]; [by rewrite decide_True|].
    rewrite decide_False; [done|]. by intros [= ?].
  - pose proof (valueAt_clearValue) as Hclear.
    destruct (clearValue wc) as [wc' had] eqn:Hcv. cbn [fst snd].
    intros Hhad. exists [EWild]. split; [done|]. intros q.
    destruct (unlink_wild (wildName wc) (setWildChild cur (Some wc'))) as [Hvalue Hunlink].
    rewrite (valueAt_compact _ EWild _ wc' had q); [|done|done|done].
    destruct q as [|e q]; [done|]. rewrite !valueAt_cons.
    destruct e as [key| |]; cbn [child setWildChild children paramChild wildChild];
      [by rewrite decide_False|by rewrite decide_False|].
    rewrite Hwc. specialize (Hclear q wc). rewrite Hcv in Hclear. cbn [fst] in Hclear.
    rewrite Hclear. destruct (decide (q = [])) as [->|Hne]; [by rewrite decide_True|].
    rewrite decide_False; [done|]. by intros [= ?].
  - done.
Qed.

Lemma Insert_valueAt t (path : string) (v : T) (q : list edge) :
  valueAt q (Insert path v t).1 =
    match (Insert path v t).2 with
    | None => if decide (q = addrOf (splitPath path)) then Some v else valueAt q t
    | Some _ => valueAt q t
    end.
Proof. unfold Insert. destruct (badPath path); [done|]. apply insertSegs_valueAt. Qed.

Lemma stored_valueAt t (path : string) :
  stored path t ↔ is_Some (valueAt (addrOf (splitPath path)) t).
Proof.
  unfold stored, valueAt. rewrite <-nodeFor_addrOf. split.
  - by intros (n & -> & Hv).
  - destruct (nodeFor (splitPath path) t) as [n|]; [|by intros [? ?]]. intros Hv. by exists n.
Qed.

(** On a tree in shape, [Lookup] of the text of a key returns the value
    stored under the key. *)
Lemma Lookup_valueAt t (path : string) (v : T) :
  allNodes linksOk t → badPath path = false →
  valueAt (addrOf (splitPath path)) t = Some v →
  ∃ params, Lookup path t = Some (v, params).
Proof.
  intros Hall Hpath. unfold valueAt. rewrite <-nodeFor_addrOf.
  destruct (nodeFor (splitPath path) t) as [n|] eqn:Hn; [|done]. intros Hv.
  unfold Lookup. rewrite Hpath.
  destruct (lookupSegs_nodeFor (splitPath path) t ∅ n Hall Hn) as [params ->].
  rewrite Hv. by exists params.
Qed.

(** On a tree in shape, [Delete] of a key leaves no value under the key,
    and [Delete] of any key adds no value. *)
Lemma Delete_valueAt t (path : string) :
  allNodes linksOk t →
  (badPath path = false → valueAt (addrOf (splitPath path)) (Delete path t).1 = None)
  ∧ (∀ q, valueAt q t = None → valueAt q (Delete path t).1 = None)
  ∧ allNodes linksOk (Delete path t).1.
Proof.
  intros Hall. unfold Delete.
  destruct (badPath path) eqn:Hbad; [by split; [|split]|].
  destruct (deleteSegs_links (splitPath path) t Hall) as (Hall' & _ & Hsame).
  split; [|split; [|done]].
  - intros _.
    destruct (valueAt (addrOf (splitPath path)) t) as [v|] eqn:Hv; last first.
    { destruct (deleteSegs (splitPath path) t).2 eqn:Hhad.
      - destruct (deleteSegs_valueAt _ t Hall Hhad) as (p & _ & ->).
        by case_decide.
      - by rewrite (Hsame eq_refl). }
    unfold valueAt in Hv. rewrite <-nodeFor_addrOf in Hv.
    destruct (nodeFor (splitPath path) t) as [n|] eqn:Hn; [|done].
    assert (Hhad : (deleteSegs (splitPath path) t).2 = true).
    { rewrite (deleteSegs_lookupSegs _ t ∅).
      destruct (lookupSegs_nodeFor (splitPath path) t ∅ n Hall Hn) as [params ->].
      apply bool_decide_eq_true_2. eauto. }
    destruct (deleteSegs_valueAt _ t Hall Hhad) as (p & Hwalk & ->).
    rewrite (walk_nodeFor _ t n Hall Hn) in Hwalk. injection Hwalk as <-.
    by rewrite decide_True.
  - intros q Hq. destruct (deleteSegs (splitPath path) t).2 eqn:Hhad.
    + destruct (deleteSegs_valueAt _ t Hall Hhad) as (p & _ & ->). by case_decide.
    + by rewrite (Hsame eq_refl).
Qed.

(** X4. [Delete] removes what [Lookup] finds, and nothing else. On every
    tree, [Delete] returns true exactly when [Lookup] finds a route for
    the key. On a reached tree, when [Lookup] finds the value [v], the
    walk of the key ends at a node that stores [v], and in the tree that
    [Delete] leaves the value at that address is gone while the value at
    every other address is as before: no other route is removed or
    changed, and none is added. *)
Theorem Delete_removes_what_Lookup_finds t (path : string) :
  ((Delete path t).2 = true ↔ is_Some (Lookup path t))
  ∧ (reached t →
     ∀ v params, Lookup path t = Some (v, params) →
       ∃ p, walk (splitPath path) t = Some p
            ∧ valueAt p t = Some v
            ∧ ∀ q, valueAt q (Delete path t).1
                   = if decide (q = p) then None else valueAt q t).
Proof.
  assert (Hiff : (Delete path t).2 = true ↔ is_Some (Lookup path t)).
  { unfold Delete, Lookup. destruct (badPath path).
    { cbn. split; [done|by intros [? ?]]. }
    rewrite (deleteSegs_lookupSegs (splitPath path) t ∅).
    destruct (lookupSegs (splitPath path) ∅ t) as [[n params]|];
      [|split; [done|by intros [? ?]]].
    destruct (value n) as [v|].
    - rewrite bool_decide_eq_true_2 by eauto. split; eauto.
    - rewrite bool_decide_eq_false_2 by (by intros [? ?]). split; [done|by intros [? ?]]. }
  split; [done|]. intros Hreached v params Hlookup.
  assert (Hhad : (Delete path t).2 = true) by (apply Hiff; eauto).
  unfold Delete, Lookup in *. destruct (badPath path); [done|].
  destruct (deleteSegs_valueAt (splitPath path) t (reached_links t Hreached) Hhad)
    as (p & Hwalk & Heffect).
  exists p. split; [done|]. split; [|done].
  destruct (lookupSegs (splitPath path) ∅ t) as [[n ps]|] eqn:Hn; [|done].
  destruct (walk_lookupSegs _ _ _ _ _ Hn) as (p' & Hwalk' & Hp').
  rewrite Hwalk in Hwalk'. injection Hwalk' as <-.
  unfold valueAt. rewrite Hp'. destruct (value n) as [v0|]; [|done].
  by injection Hlookup as -> _.
Qed.

(** X23. A refused [Insert] changes no stored value. When [Insert]
    returns an error, the tree it leaves behind stores at every address
    the value it stored before: none is lost, changed or added (the call
    may link new nodes, which hold no value). On a reached tree, every key
    that held a value is therefore still found by [Lookup] of that key,
    with that value. What other paths match can change: a node left
    behind can stand in front of a parameter route. *)
Theorem refused_Insert_changes_no_value t (path : string) (v : T) :
  is_Some (Insert path v t).2 →
  (∀ q, valueAt q (Insert path v t).1 = valueAt q t)
  ∧ (reached t →
     ∀ (key : string) n (v' : T),
       badPath key = false →
       nodeFor (splitPath key) t = Some n → value n = Some v' →
       ∃ params, Lookup key (Insert path v t).1 = Some (v', params)).
Proof.
  intros [e He].
  assert (Hvalues : ∀ q, valueAt q (Insert path v t).1 = valueAt q t).
  { intros q. unfold Insert in He |- *. destruct (badPath path); [done|].
    rewrite insertSegs_valueAt. by rewrite He. }
  split; [done|]. intros Hreached key n v' Hkey Hn Hv.
  assert (Hreached' : reached (Insert path v t).1) by (by apply reached_insert).
  assert (Hat : valueAt (addrOf (splitPath key)) (Insert path v t).1 = Some v').
  { rewrite Hvalues. unfold valueAt. by rewrite <-nodeFor_addrOf, Hn. }
  unfold valueAt in Hat. rewrite <-nodeFor_addrOf in Hat.
  destruct (nodeFor (splitPath key) (Insert path v t).1) as [n'|] eqn:Hn'; [|done].
  unfold Lookup. rewrite Hkey.
  destruct (lookupSegs_nodeFor (splitPath key) _ ∅ n' (reached_links _ Hreached') Hn')
    as [params ->].
  rewrite Hat. by exists params.
Qed.

End tree_more_facts.

(** ** The service pool: what a call returns, and successive calls *)
Section pool_more_facts.
Import Pool PoolMore.
Context {Invoker : Type}.
Implicit Types pool : ServicePool Invoker.

Lemma scan_Found pool (start : Z) (n : nat) (ixs : list nat) visited (inv : Invoker) :
  scan pool start n ixs = (visited, Found inv) →
  ∃ inst, inst ∈ instances pool ∧ invokers pool !! Addr inst = Some (Some inv).
Proof.
  revert visited. induction ixs as [|i ixs IH]; intros visited; cbn [scan]; [done|].
  unfold instanceAt.
  destruct ((0 <=? slot start n i) && _); [|done].
  destruct (instances pool !! Z.to_nat (slot start n i)) as [inst|] eqn:Hinst; [|done].
  unfold liveInvoker.
  destruct (invokers pool !! Addr inst) as [[inv'|]|] eqn:Hinv.
  - intros [= _ ->]. exists inst. split; [by eapply list_elem_of_lookup_2|done].
  - destruct (scan pool start n ixs) as [visited' out]. intros [= _ ->]. by eapply IH.
  - destruct (scan pool start n ixs) as [visited' out]. intros [= _ ->]. by eapply IH.
Qed.

(** X7. Whatever the counter holds, wrapped around or not, an invoker that
    [getNextInvoker] returns is the non-nil invoker stored under the
    address of an instance of the pool, and the call changes nothing of
    the pool but its counter. *)
Theorem getNextInvoker_returns_live pool pool' visited (inv : Invoker) :
  getNextInvoker pool = (pool', (visited, Found inv)) →
  (∃ inst, inst ∈ instances pool ∧ invokers pool !! Addr inst = Some (Some inv))
  ∧ instances pool' = instances pool ∧ invokers pool' = invokers pool
  ∧ serviceName pool' = serviceName pool.
Proof.
  unfold getNextInvoker. destruct (instances pool) as [|inst0 insts] eqn:Hinsts; [done|].
  rewrite <-Hinsts. intros [= <- Hscan]. split; [|done].
  by apply scan_Found in Hscan.
Qed.

(** A call whose first slot holds a live invoker returns it at once. *)
Lemma getNextInvoker_first pool (inv : Invoker) :
  let n := length (instances pool) in
  let c := counter pool in
  0 ≤ c → c + 1 < 2 ^ 63 →
  liveAt pool ((c + 1) mod Z.of_nat n) = Some inv →
  getNextInvoker pool = (setCounter pool (c + 1), ([(c + 1) mod Z.of_nat n], Found inv)).
Proof.
  intros n c Hc Hc1 Hlive. unfold getNextInvoker.
  destruct (instances pool) as [|inst0 insts] eqn:Hinsts.
  { unfold liveAt, instanceAt in Hlive. rewrite Hinsts in Hlive. cbn in Hlive.
    by destruct ((0 <=? _) && _). }
  assert (Hn : n = S (length insts)) by done.
  assert (Hlen : length (instances pool) = n) by (by rewrite Hinsts).
  rewrite <-Hinsts, Hlen. fold c.
  rewrite wrap64_small by lia. f_equal.
  rewrite Hn. cbn [seq scan]. rewrite <-Hn.
  assert (Hslot : slot (c + 1) n 0 = (c + 1) mod Z.of_nat n).
  { unfold slot. rewrite Z.add_0_r, wrap64_small by lia.
    apply Z.rem_mod_nonneg; lia. }
  rewrite Hslot. unfold liveAt in Hlive.
  change (instanceAt (setCounter pool (c + 1))) with (instanceAt pool).
  destruct (instanceAt pool ((c + 1) mod Z.of_nat n)) as [inst|]; [|done].
  change (liveInvoker (setCounter pool (c + 1))) with (liveInvoker pool).
  by rewrite Hlive.
Qed.

Lemma calls_rotate (k : nat) :
  ∀ pool (j : nat),
    0 ≤ counter pool → counter pool + Z.of_nat k < 2 ^ 63 →
    (∀ idx, 0 ≤ idx < Z.of_nat (length (instances pool)) → is_Some (liveAt pool idx)) →
    (0 < length (instances pool))%nat → (j < k)%nat →
    calls k pool !! j =
      Found <$> liveAt pool
                  ((counter pool + 1 + Z.of_nat j) mod Z.of_nat (length (instances pool))).
Proof.
  induction k as [|k IH]; intros pool j Hc Hk Hlive Hn Hj; [lia|].
  cbn [calls].
  destruct (Hlive ((counter pool + 1) mod Z.of_nat (length (instances pool))))
    as [inv Hinv]; [apply Z.mod_pos_bound; lia|].
  rewrite (getNextInvoker_first pool inv) by (done || lia).
  destruct j as [|j].
  - cbn. by rewrite Z.add_0_r, Hinv.
  - cbn [lookup list_lookup]. rewrite IH; cbn [counter instances setCounter]; try lia.
    + rewrite liveAt_setCounter. do 3 f_equal. lia.
    + intros idx Hidx. rewrite liveAt_setCounter. by apply Hlive.
Qed.

(** X8. Rotation. In a pool of [n > 0] instances that all have a live
    invoker, whose counter holds [c ≥ 0] with [c + k] below [2^63], the
    [j]-th of [k] successive calls (counted from 0) returns the invoker of
    the instance in slot [(c + 1 + j) mod n]: the calls go round the
    instance list one instance at a time, in order. *)
Theorem successive_calls_rotate pool (k j : nat) :
  let n := length (instances pool) in
  let c := counter pool in
  (0 < n)%nat → 0 ≤ c → c + Z.of_nat k < 2 ^ 63 →
  (∀ inst, inst ∈ instances pool → is_Some (liveInvoker pool (Addr inst))) →
  (j < k)%nat →
  ∃ inst inv,
    instances pool !! Z.to_nat ((c + 1 + Z.of_nat j) mod Z.of_nat n) = Some inst
    ∧ liveInvoker pool (Addr inst) = Some inv
    ∧ calls k pool !! j = Some (Found inv).
Proof.
  intros n c Hn Hc Hk Hlive Hj.
  assert (Hall : ∀ idx, 0 ≤ idx < Z.of_nat n →
            ∃ inst inv, instances pool !! Z.to_nat idx = Some inst
                        ∧ liveInvoker pool (Addr inst) = Some inv
                        ∧ liveAt pool idx = Some inv).
  { intros idx Hidx.
    destruct (lookup_lt_is_Some_2 (instances pool) (Z.to_nat idx)) as [inst Hinst];
      [fold n; lia|].
    destruct (Hlive inst) as [inv Hinv]; [by eapply list_elem_of_lookup_2|].
    exists inst, inv. split; [done|]. split; [done|].
    unfold liveAt, instanceAt. fold n.
    rewrite (proj2 (Z.leb_le _ _)), (proj2 (Z.ltb_lt _ _)) by lia. cbn.
    by rewrite Hinst. }
  destruct (Hall ((c + 1 + Z.of_nat j) mod Z.of_nat n)) as (inst & inv & Hinst & Hinv & Hat);
    [apply Z.mod_pos_bound; lia|].
  exists inst, inv. split; [done|]. split; [done|].
  rewrite (calls_rotate k pool j) by (done || (intros idx Hidx;
    destruct (Hall idx Hidx) as (? & ? & _ & _ & ->); eauto)).
  fold n c. by rewrite Hat.
Qed.

Lemma wrap64_range (z : Z) : - 2 ^ 63 ≤ wrap64 z < 2 ^ 63.
Proof.
  unfold wrap64.
  pose proof (Z.mod_pos_bound (z + 2 ^ 63) (2 ^ 64) ltac:(lia)). lia.
Qed.

(** X24. When the call panics. Once the increment of the counter has
    wrapped around to a negative value that the number of instances does
    not divide, [getNextInvoker] panics on its first index, which is the
    negative remainder; no instance is visited and nothing is returned.
    (A negative multiple of the number of instances still gives index 0.) *)
Theorem getNextInvoker_panics_on_negative_start pool :
  let n := Z.of_nat (length (instances pool)) in
  let start := wrap64 (counter pool + 1) in
  instances pool ≠ [] → start < 0 → Z.rem start n ≠ 0 →
  (getNextInvoker pool).2 = ([Z.rem start n], PanicIndex (Z.rem start n))
  ∧ Z.rem start n < 0.
Proof.
  intros n start Hne Hneg Hrem.
  assert (Hn : 0 < n) by (subst n; destruct (instances pool); [done|cbn; lia]).
  assert (Hidx : Z.rem start n < 0).
  { pose proof (Z.rem_bound_pos_neg start n Hn ltac:(lia)). lia. }
  split; [|done].
  unfold getNextInvoker. destruct (instances pool) as [|inst0 insts] eqn:Hinsts; [done|].
  rewrite <-Hinsts. fold start.
  assert (Hlen : length (instances pool) = S (length insts)) by (by rewrite Hinsts).
  rewrite Hlen at 2. cbn [seq scan fst snd].
  assert (Hslot : slot start (length (instances pool)) 0 = Z.rem start n).
  { unfold slot. rewrite Z.add_0_r. unfold start at 1.
    rewrite wrap64_small by apply wrap64_range. subst n start. by rewrite Hinsts. }
  rewrite Hslot. unfold instanceAt.
  by rewrite (proj2 (Z.leb_gt _ _)) by lia.
Qed.

End pool_more_facts.

(** ** The watcher: keys, instance values, instance events, loading *)
Section discovery_more_facts.
Import GoStrings Discovery DiscoveryMore.
Context {FileDescriptorSet : Type}.
Variable jsonUnmarshal : string → option (ServiceMetadata FileDescriptorSet).
Variable protoUnmarshal : string → option FileDescriptorSet.
Variable scanInt : string → option Z.
Implicit Types w : Watcher FileDescriptorSet.
Implicit Types instance inst : Pool.ServiceInstance.

#[local] Abbreviation parse := (parseServiceInstance scanInt).
#[local] Abbreviation onInstance := (handleInstanceEvent (FileDescriptorSet := FileDescriptorSet) scanInt).
#[local] Abbreviation onMetadata := (handleMetadataEvent jsonUnmarshal protoUnmarshal).

Lemma SplitOn_without (c : ascii) (s : string) : without c s → SplitOn c s = [s].
Proof.
  induction s as [|a r IH]; [done|]. intros [Ha Hr]. cbn.
  rewrite bool_decide_eq_false_2 by done. by rewrite IH.
Qed.

Lemma SplitOn_one (c : ascii) (s a : string) : SplitOn c s = [a] → s = a ∧ without c a.
Proof.
  revert a. induction s as [|x r IH]; intros a; cbn.
  { by intros [= <-]. }
  case_bool_decide as Hx.
  { destruct r; cbn; [done|]. case_bool_decide; [done|]. by destruct (SplitOn c r). }
  destruct (SplitOn c r) as [|h t] eqn:Hsplit.
  { destruct r; cbn in Hsplit; [done|]. case_bool_decide; [done|].
    by destruct (SplitOn c r). }
  intros [= <- ->]. destruct (IH h eq_refl) as [-> Hh]. done.
Qed.

(** A string splits in two at [c] exactly when it has one [c]. *)
Lemma SplitOn_two (c : ascii) (s a b : string) :
  SplitOn c s = [a; b] ↔ s = a +:+ String c b ∧ without c a ∧ without c b.
Proof.
  split.
  - revert a. induction s as [|x r IH]; intros a; cbn; [done|].
    case_bool_decide as Hx.
    { intros [= <- Hr]. apply SplitOn_one in Hr as [-> Hb]. by subst x. }
    destruct (SplitOn c r) as [|h t] eqn:Hsplit; [done|].
    intros [= <- ->]. destruct (IH h eq_refl) as (-> & Hh & Hb). done.
  - intros (-> & Ha & Hb). induction a as [|x a IH].
    { change (SplitOn c (String c b) = [EmptyString; b]). cbn [SplitOn].
      rewrite bool_decide_eq_true_2 by done. by rewrite SplitOn_without. }
    change (SplitOn c (String x (a +:+ String c b)) = [String x a; b]). cbn [SplitOn].
    destruct Ha as [Hx Ha]. rewrite bool_decide_eq_false_2 by done. by rewrite IH.
Qed.

(** X9. [parseServiceInstance] accepts exactly the values of the form
    host:port with one ':' in which the port scans as a number; the
    instance has the host as [Address], the number as [Port] and the whole
    value as [Addr]. A value with no ':' or with more than one (an IPv6
    literal, say) gives nil. *)
Theorem parseServiceInstance_format (value : string) instance :
  parse value = Some instance ↔
  ∃ portText,
    value = Pool.Address instance +:+ String colon portText
    ∧ without colon (Pool.Address instance) ∧ without colon portText
    ∧ scanInt portText = Some (Pool.Port instance)
    ∧ Pool.Addr instance = value.
Proof.
  unfold parseServiceInstance. split.
  - destruct (SplitOn colon value) as [|a [|b [|]]] eqn:Hsplit; try done.
    destruct (scanInt b) as [port|] eqn:Hport; [|done].
    intros [= <-]. cbn. exists b.
    apply SplitOn_two in Hsplit as (-> & Ha & Hb). done.
  - intros (portText & Hvalue & Ha & Hb & Hport & Haddr).
    rewrite (proj2 (SplitOn_two colon value (Pool.Address instance) portText)) by done.
    rewrite Hport. destruct instance. cbn in *. by subst.
Qed.

Lemma parse_Addr (value : string) instance : parse value = Some instance → Pool.Addr instance = value.
Proof.
  unfold parseServiceInstance.
  destruct (SplitOn colon value) as [|a [|b [|]]]; try done.
  destruct (scanInt b); [|done]. by intros [= <-].
Qed.

Lemma HasPrefix_app (p x : string) : HasPrefix (p +:+ x) p = true.
Proof.
  unfold HasPrefix. induction p as [|a p IH]; [by destruct x|].
  change (String a p +:+ x) with (String a (p +:+ x)). cbn.
  by destruct (ascii_dec a a).
Qed.

Lemma substring_all (x : string) : String.substring 0 (String.length x) x = x.
Proof. induction x as [|a x IH]; [done|]. cbn. by rewrite IH. Qed.

Lemma substring_app (p x : string) :
  String.substring (String.length p) (String.length (p +:+ x) - String.length p) (p +:+ x) = x.
Proof.
  induction p as [|a p IH].
  - change (EmptyString +:+ x) with x. cbn [String.length].
    rewrite Nat.sub_0_r. apply substring_all.
  - change (String a p +:+ x) with (String a (p +:+ x)). cbn. apply IH.
Qed.

Lemma Split_head (name rest : string) :
  without slash name → Split (name +:+ String slash rest) = name :: Split rest.
Proof.
  induction name as [|a name IH].
  - intros _. change (Split (String slash rest) = EmptyString :: Split rest).
    cbn [Split]. by rewrite bool_decide_eq_true_2.
  - intros [Ha Hname].
    change (Split (String a (name +:+ String slash rest)) = String a name :: Split rest).
    cbn [Split]. rewrite bool_decide_eq_false_2 by done. by rewrite IH.
Qed.

Lemma TrimSuffixSlash_without (name : string) :
  without slash name → TrimSuffixSlash name = name.
Proof.
  induction name as [|a name IH]; [done|]. intros [Ha Hname]. cbn.
  destruct name as [|b name]; [by rewrite bool_decide_eq_false_2|].
  by rewrite IH.
Qed.

Lemma TrimSuffixSlash_app (name : string) :
  TrimSuffixSlash (name +:+ String slash EmptyString) = name.
Proof.
  induction name as [|a name IH]; [done|].
  change (String a name +:+ String slash EmptyString)
    with (String a (name +:+ String slash EmptyString)).
  cbn. rewrite IH. by destruct name.
Qed.

(** X10. Keys of the two layouts give the service name back: for a name
    without '/', the metadata key prefix + name (with or without one
    trailing '/') and the instance key prefix + name + "/" + instance id
    are both read as that name, whatever the prefixes and the id. *)
Theorem service_name_of_keys w (name id : string) :
  without slash name →
  extractServiceNameFromMetadata w (serviceMetadataPrefix w +:+ name) = name
  ∧ extractServiceNameFromMetadata w
      (serviceMetadataPrefix w +:+ name +:+ String slash EmptyString) = name
  ∧ extractServiceNameFromInstance w
      (serviceDiscoveryPrefix w +:+ name +:+ String slash id) = name.
Proof.
  intros Hname.
  unfold extractServiceNameFromMetadata, extractServiceNameFromInstance.
  rewrite !HasPrefix_app, !substring_app. cbn [negb].
  split; [by apply TrimSuffixSlash_without|].
  split; [by apply TrimSuffixSlash_app|].
  by rewrite Split_head.
Qed.

Lemma replaceByAddr_Some instance (l l' : list Pool.ServiceInstance) :
  replaceByAddr instance l = Some l' →
  Pool.Addr <$> l' = Pool.Addr <$> l
  ∧ Pool.Addr instance ∈ Pool.Addr <$> l
  ∧ instance ∈ l'
  ∧ (∀ inst, inst ∈ l → Pool.Addr inst ≠ Pool.Addr instance → inst ∈ l')
  ∧ (∀ inst, inst ∈ l' → inst = instance ∨ inst ∈ l)
  ∧ ((∀ inst, inst ∈ l → Pool.Addr inst = Pool.Addr instance → inst = instance) → l' = l).
Proof.
  revert l'. induction l as [|inst0 l IH]; intros l'; cbn [replaceByAddr]; [done|].
  case_bool_decide as Haddr.
  - intros [= <-]. rewrite !fmap_cons, Haddr.
    split; [done|]. split; [apply list_elem_of_here|]. split; [apply list_elem_of_here|].
    split; [|split].
    + intros inst [->|Hin]%elem_of_cons Hne; [done|by apply list_elem_of_further].
    + intros inst [->|Hin]%elem_of_cons; [by left|right; by apply list_elem_of_further].
    + intros Hsame. f_equal. symmetry. apply Hsame; [apply list_elem_of_here|done].
  - destruct (replaceByAddr instance l) as [l0|]; [|done]. intros [= <-].
    destruct (IH l0 eq_refl) as (Haddrs & Hin & Hnew & Hold & Hfrom & Hsame).
    rewrite !fmap_cons, Haddrs.
    split; [done|]. split; [by apply list_elem_of_further|].
    split; [by apply list_elem_of_further|]. split; [|split].
    + intros inst [->|Hinst]%elem_of_cons Hne;
        [apply list_elem_of_here|apply list_elem_of_further; by apply Hold].
    + intros inst [->|Hinst]%elem_of_cons; [right; apply list_elem_of_here|].
      destruct (Hfrom inst Hinst) as [->|Hl]; [by left|right; by apply list_elem_of_further].
    + intros Hall. f_equal. apply Hsame. intros inst Hinst. apply Hall.
      by apply list_elem_of_further.
Qed.

Lemma replaceByAddr_None instance (l : list Pool.ServiceInstance) :
  replaceByAddr instance l = None → Pool.Addr instance ∉ Pool.Addr <$> l.
Proof.
  induction l as [|inst0 l IH]; cbn [replaceByAddr].
  { intros _ Hin. by apply elem_of_nil in Hin. }
  case_bool_decide as Haddr; [done|].
  destruct (replaceByAddr instance l); [done|]. intros _.
  rewrite fmap_cons. intros [Heq|Hin]%elem_of_cons; [by rewrite Heq in Haddr|].
  by apply IH.
Qed.

(** What the Put case does to the instance list of the service. *)
Lemma upsert_spec instance (l : list Pool.ServiceInstance) :
  instance ∈ upsert instance l
  ∧ (∀ inst, inst ∈ l → Pool.Addr inst ≠ Pool.Addr instance → inst ∈ upsert instance l)
  ∧ Pool.Addr <$> upsert instance l =
      (if decide (Pool.Addr instance ∈ Pool.Addr <$> l)
       then Pool.Addr <$> l else (Pool.Addr <$> l) ++ [Pool.Addr instance])
  ∧ (∀ inst, inst ∈ upsert instance l → inst = instance ∨ inst ∈ l)
  ∧ ((∀ inst, inst ∈ l → Pool.Addr inst = Pool.Addr instance → inst = instance) →
     Pool.Addr instance ∈ Pool.Addr <$> l → upsert instance l = l).
Proof.
  unfold upsert. destruct (replaceByAddr instance l) as [l'|] eqn:Hrep; cbn [default].
  - destruct (replaceByAddr_Some instance l l' Hrep)
      as (Haddrs & Hin & Hnew & Hold & Hfrom & Hsame).
    change (id l') with l'. rewrite decide_True by done.
    repeat split; try done. intros Hall _. by apply Hsame.
  - pose proof (replaceByAddr_None instance l Hrep) as Hnot.
    rewrite decide_False by done.
    split; [apply elem_of_app; right; apply list_elem_of_here|].
    split; [intros inst Hinst _; apply elem_of_app; by left|].
    split; [by rewrite fmap_app|].
    split; [|done].
    intros inst [Hl | ->%list_elem_of_singleton]%elem_of_app; [by right|by left].
Qed.

(** The Put case of [handleInstanceEvent] once the key and the value are
    accepted. *)
Lemma onInstance_Put (get : string → option (list string)) w (event : StoreEvent) instance :
  extractServiceNameFromInstance w (evKey event) ≠ EmptyString →
  evType event = EventTypePut → parse (evValue event) = Some instance →
  (onInstance get w event).1 =
    setInstancesMap w
      (<[extractServiceNameFromInstance w (evKey event) :=
           upsert instance (instancesOf w (extractServiceNameFromInstance w (evKey event)))]>
         (instancesMap w)).
Proof.
  intros Hname Hput Hparse. unfold handleInstanceEvent.
  rewrite bool_decide_eq_false_2 by done. rewrite Hput, Hparse.
  destruct (metadataMap w !! _); [|done]. by destruct (initialLoading w).
Qed.

(** X11. An instance Put keeps one entry per address. After a Put whose
    key names the service and whose value parses, the instance list of the
    service holds the new instance, keeps every instance of another
    address, and has the same addresses in the same order, with the new
    address at the end when it was not there; addresses that were distinct
    stay distinct. The lists of the other services and the metadata are
    untouched. *)
Theorem instance_put_one_per_address (get : string → option (list string)) w
    (event : StoreEvent) instance :
  let name := extractServiceNameFromInstance w (evKey event) in
  let w' := (onInstance get w event).1 in
  name ≠ EmptyString → evType event = EventTypePut →
  parse (evValue event) = Some instance →
  instance ∈ instancesOf w' name
  ∧ (∀ inst, inst ∈ instancesOf w name → Pool.Addr inst ≠ Pool.Addr instance →
             inst ∈ instancesOf w' name)
  ∧ Pool.Addr <$> instancesOf w' name =
      (if decide (Pool.Addr instance ∈ Pool.Addr <$> instancesOf w name)
       then Pool.Addr <$> instancesOf w name
       else (Pool.Addr <$> instancesOf w name) ++ [Pool.Addr instance])
  ∧ (NoDup (Pool.Addr <$> instancesOf w name) → NoDup (Pool.Addr <$> instancesOf w' name))
  ∧ (∀ other, other ≠ name → instancesMap w' !! other = instancesMap w !! other)
  ∧ metadataMap w' = metadataMap w.
Proof.
  intros name w' Hname Hput Hparse. subst w'.
  rewrite (onInstance_Put get w event instance) by done. fold name.
  assert (Hnew : instancesOf (setInstancesMap w
                   (<[name := upsert instance (instancesOf w name)]> (instancesMap w))) name
                 = upsert instance (instancesOf w name)).
  { unfold instancesOf at 1. cbn. by rewrite lookup_insert_eq. }
  rewrite Hnew.
  destruct (upsert_spec instance (instancesOf w name)) as (Hin & Hold & Haddrs & _ & _).
  split; [done|]. split; [done|]. split; [done|]. split; [|split; [|done]].
  - intros Hnodup. rewrite Haddrs. case_decide as Hknown; [done|].
    apply NoDup_app. split; [done|]. split; [|apply NoDup_singleton].
    intros addr Haddr ->%list_elem_of_singleton. done.
  - intros other Hother. cbn. by rewrite lookup_insert_ne.
Qed.

(** Every instance the watcher stores is what [parseServiceInstance]
    gives for its address. *)
Lemma reachable_parsed w :
  reachable jsonUnmarshal protoUnmarshal scanInt w →
  ∀ (name : string) l inst,
    instancesMap w !! name = Some l → inst ∈ l → parse (Pool.Addr inst) = Some inst.
Proof.
  induction 1 as [w _ Hempty|w event _ IH|get w event _ IH|w b _ IH].
  - intros name l inst Hl. by rewrite Hempty, lookup_empty in Hl.
  - assert (Hsame : instancesMap (onMetadata w event).1 = instancesMap w); [|by rewrite Hsame].
    unfold handleMetadataEvent. case_bool_decide; [done|].
    destruct (evType event).
    + destruct (parseServiceMetadata _ _ _); [|done]. by destruct (initialLoading w).
    + destruct (metadataMap w !! _); [|done]. by destruct (_ =? _)%nat.
  - assert (Hof : ∀ name inst, inst ∈ instancesOf w name → parse (Pool.Addr inst) = Some inst).
    { intros name inst. unfold instancesOf.
      destruct (instancesMap w !! name) as [l|] eqn:Hl; cbn; [by eapply IH|].
      intros Hin. by apply elem_of_nil in Hin. }
    unfold handleInstanceEvent. case_bool_decide as Hname; [done|].
    set (name := extractServiceNameFromInstance w (evKey event)) in *.
    assert (Hput : ∀ l0, (∀ inst, inst ∈ l0 → parse (Pool.Addr inst) = Some inst) →
              ∀ (key : string) l inst,
                <[name := l0]> (instancesMap w) !! key = Some l → inst ∈ l →
                parse (Pool.Addr inst) = Some inst).
    { intros l0 Hl0 key l inst Hl Hin. destruct (decide (key = name)) as [->|Hne].
      - rewrite lookup_insert_eq in Hl. injection Hl as <-. by apply Hl0.
      - rewrite lookup_insert_ne in Hl by done. by eapply IH. }
    destruct (evType event).
    + destruct (parse (evValue event)) as [instance|] eqn:Hparse; [|done].
      assert (Hl0 : ∀ inst, inst ∈ upsert instance (instancesOf w name) →
                parse (Pool.Addr inst) = Some inst).
      { intros inst Hin.
        destruct (upsert_spec instance (instancesOf w name)) as (_ & _ & _ & Hfrom & _).
        destruct (Hfrom inst Hin) as [->|Hold]; [|by eapply Hof].
        by rewrite (parse_Addr _ _ Hparse). }
      destruct (metadataMap w !! name); [|by apply Hput].
      destruct (initialLoading w); by apply Hput.
    + destruct (instancesMap w !! name) as [l1|] eqn:Hl1; [|done].
      destruct (get _) as [values|]; [|done].
      assert (Hl0 : ∀ inst, inst ∈ omap parse values → parse (Pool.Addr inst) = Some inst).
      { intros inst (value & Hvalue & Hp)%list_elem_of_omap.
        by rewrite (parse_Addr value inst Hp). }
      destruct (metadataMap w !! name); [|by apply Hput].
      destruct (_ =? _)%nat; [by apply Hput|].
      destruct (initialLoading w); by apply Hput.
  - done.
Qed.

(** X12. A Put that repeats a known address changes nothing. In every
    state the watcher reaches, a Put whose value parses to an address the
    service already lists leaves the watcher exactly as it was (the write
    [instances[i] = instance] stores an equal instance), and the Update it
    sends, when the metadata of the service is known and the loading is
    over, carries the list as it was. *)
Theorem instance_put_known_address (get : string → option (list string)) w
    (event : StoreEvent) instance :
  let name := extractServiceNameFromInstance w (evKey event) in
  reachable jsonUnmarshal protoUnmarshal scanInt w →
  name ≠ EmptyString → evType event = EventTypePut →
  parse (evValue event) = Some instance →
  Pool.Addr instance ∈ Pool.Addr <$> instancesOf w name →
  onInstance get w event =
    (w, match metadataMap w !! name with
        | Some metadata =>
            if initialLoading w then []
            else [ {| Type_ := EventUpdate;
                      Service := {| Meta := metadata; Instances := instancesOf w name |} |} ]
        | None => []
        end).
Proof.
  intros name Hreach Hname Hput Hparse Hknown.
  assert (Hl : instancesMap w !! name = Some (instancesOf w name)).
  { unfold instancesOf in *. destruct (instancesMap w !! name); [done|].
    cbn in Hknown. by apply elem_of_nil in Hknown. }
  assert (Hsame : upsert instance (instancesOf w name) = instancesOf w name).
  { apply upsert_spec; [|done]. intros inst Hin Haddr.
    pose proof (reachable_parsed w Hreach name _ inst Hl Hin) as Hinst.
    rewrite Haddr, (parse_Addr _ _ Hparse), Hparse in Hinst. by injection Hinst. }
  assert (Hw : setInstancesMap w (<[name := instancesOf w name]> (instancesMap w)) = w).
  { rewrite insert_id by done. by destruct w. }
  unfold handleInstanceEvent. fold name.
  rewrite bool_decide_eq_false_2 by done. rewrite Hput, Hparse, Hsame, Hw.
  destruct (metadataMap w !! name); [|done]. by destruct (initialLoading w).
Qed.

(** X13. Instances of a service without metadata are never announced: an
    instance event, Put or Delete, for a service whose metadata the
    watcher does not hold sends no event, whatever the store answers, and
    leaves the metadata as it is. So once the metadata of a service is
    gone, the changes of its instances stay silent until the metadata is
    put again. *)
Theorem instance_event_without_metadata (get : string → option (list string)) w
    (event : StoreEvent) :
  metadataMap w !! extractServiceNameFromInstance w (evKey event) = None →
  (onInstance get w event).2 = []
  ∧ metadataMap (onInstance get w event).1 = metadataMap w.
Proof.
  intros Hnone. unfold handleInstanceEvent. rewrite Hnone.
  case_bool_decide; [done|].
  destruct (evType event).
  - by destruct (parse (evValue event)).
  - destruct (instancesMap w !! _); [|done]. by destruct (get _).
Qed.

(** X14. An Update event carries what [GetService] answers. Whenever one
    of the two handlers sends an Update event, the service information in
    it is what [GetService] returns, in the state after the call, for the
    service named by the key of the store event. *)
Theorem update_event_is_GetService (get : string → option (list string)) w
    (event : StoreEvent) (sent : ServiceEvent FileDescriptorSet) :
  Type_ sent = EventUpdate →
  (sent ∈ (onMetadata w event).2 →
   GetService (onMetadata w event).1 (extractServiceNameFromMetadata w (evKey event))
     = Some (Service sent))
  ∧ (sent ∈ (onInstance get w event).2 →
     GetService (onInstance get w event).1 (extractServiceNameFromInstance w (evKey event))
       = Some (Service sent)).
Proof.
  intros Hupdate. split.
  - unfold handleMetadataEvent.
    set (name := extractServiceNameFromMetadata w (evKey event)).
    case_bool_decide; [by intros ?%elem_of_nil|].
    destruct (evType event).
    + destruct (parseServiceMetadata _ _ _) as [metadata|]; [|by intros ?%elem_of_nil].
      destruct (initialLoading w); [by intros ?%elem_of_nil|].
      intros ->%list_elem_of_singleton. unfold GetService, instancesOf. cbn.
      rewrite lookup_insert_eq. by destruct (instancesMap w !! name).
    + destruct (metadataMap w !! name); [|by intros ?%elem_of_nil].
      destruct (_ =? _)%nat; [|by intros ?%elem_of_nil].
      intros ->%list_elem_of_singleton. done.
  - unfold handleInstanceEvent.
    set (name := extractServiceNameFromInstance w (evKey event)).
    case_bool_decide; [by intros ?%elem_of_nil|].
    destruct (evType event).
    + destruct (parse (evValue event)) as [instance|]; [|by intros ?%elem_of_nil].
      destruct (metadataMap w !! name) as [metadata|] eqn:Hmeta; [|by intros ?%elem_of_nil].
      destruct (initialLoading w); [by intros ?%elem_of_nil|].
      intros ->%list_elem_of_singleton. unfold GetService. cbn.
      by rewrite Hmeta, lookup_insert_eq.
    + destruct (instancesMap w !! name); [|by intros ?%elem_of_nil].
      destruct (get _) as [values|]; [|by intros ?%elem_of_nil].
      destruct (metadataMap w !! name) as [metadata|] eqn:Hmeta; [|by intros ?%elem_of_nil].
      destruct (_ =? _)%nat; [by intros ->%list_elem_of_singleton|].
      destruct (initialLoading w); [by intros ?%elem_of_nil|].
      intros ->%list_elem_of_singleton. unfold GetService. cbn.
      by rewrite Hmeta, lookup_insert_eq.
Qed.

Lemma sendAll_room (buf events : list (ServiceEvent FileDescriptorSet)) :
  (length buf ≤ eventChanCapacity)%nat →
  sendAll buf events =
    (buf ++ take (eventChanCapacity - length buf) events,
     bool_decide (length buf + length events ≤ eventChanCapacity)%nat).
Proof.
  revert buf. induction events as [|event rest IH]; intros buf Hbuf; cbn [sendAll].
  { rewrite take_nil, (right_id_L [] (++)). cbn [length].
    by rewrite bool_decide_eq_true_2 by lia. }
  destruct (length buf <? eventChanCapacity)%nat eqn:Hroom.
  - apply Nat.ltb_lt in Hroom. rewrite IH by (rewrite length_app; cbn; lia).
    rewrite length_app. cbn [length].
    replace (eventChanCapacity - length buf)%nat
      with (S (eventChanCapacity - (length buf + 1)))%nat by lia.
    cbn [take]. rewrite <-(assoc_L (++)). f_equal.
    apply bool_decide_ext. lia.
  - apply Nat.ltb_ge in Hroom.
    replace (eventChanCapacity - length buf)%nat with 0%nat by lia.
    rewrite take_0, (right_id_L [] (++)). cbn [length].
    by rewrite bool_decide_eq_false_2 by lia.
Qed.

(** While the initial loading runs, a loop of Puts sends nothing. *)
Lemma putAll_loading
    (handle : Watcher FileDescriptorSet → StoreEvent →
              Watcher FileDescriptorSet * list (ServiceEvent FileDescriptorSet))
    (buf : list (ServiceEvent FileDescriptorSet)) (kvs : list (string * string)) :
  (∀ w event, initialLoading w = true → evType event = EventTypePut →
              (handle w event).2 = [] ∧ initialLoading (handle w event).1 = true) →
  ∀ w, initialLoading w = true →
       ∃ w', putAll handle w buf kvs = (w', buf, true) ∧ initialLoading w' = true.
Proof.
  intros Hhandle. unfold putAll.
  induction kvs as [|kv kvs IH] using rev_ind; intros w Hw; [by exists w|].
  rewrite foldl_app. cbn [foldl].
  destruct (IH w Hw) as (w1 & -> & Hload).
  destruct (Hhandle w1 {| evType := EventTypePut; evKey := kv.1; evValue := kv.2 |}
              Hload eq_refl) as [Hevs Hload'].
  destruct (handle w1 _) as [w2 evs]. cbn in Hevs, Hload'. subst evs.
  by exists w2.
Qed.

Lemma onMetadata_loading w (event : StoreEvent) :
  initialLoading w = true → evType event = EventTypePut →
  (onMetadata w event).2 = [] ∧ initialLoading (onMetadata w event).1 = true.
Proof.
  intros Hload Hput. unfold handleMetadataEvent. case_bool_decide; [done|].
  rewrite Hput. destruct (parseServiceMetadata _ _ _); [|done]. by rewrite Hload.
Qed.

Lemma onInstance_loading (get : string → option (list string)) w (event : StoreEvent) :
  initialLoading w = true → evType event = EventTypePut →
  (onInstance get w event).2 = [] ∧ initialLoading (onInstance get w event).1 = true.
Proof.
  intros Hload Hput. unfold handleInstanceEvent. case_bool_decide; [done|].
  rewrite Hput. destruct (parse (evValue event)); [|done].
  destruct (metadataMap w !! _); [|done]. by rewrite Hload.
Qed.

(** X15. The loading announces every service once, as far as the
    channel has room. The loading runs while nobody reads the event
    channel, which holds 100 events. When both queries of the store
    succeed, the Puts it replays send nothing, the loading flag ends off,
    and the call sends, in the order of the [range], one Add event for
    each entry of the metadata mirror, with the instances loaded for it:
    when the channel has room for all of them the call returns no error;
    when it has not, the call fills the channel and then blocks on the
    next send and never returns. When a query fails, the call returns the
    error, nothing is sent and the loading flag stays on. *)
Theorem loading_announces_each_service_once
    (get : string → option (list string))
    (rangeOrder : gmap string (ServiceMetadata FileDescriptorSet) →
                  list (string * ServiceMetadata FileDescriptorSet))
    (metadataKvs instanceKvs : option (list (string * string))) w
    (buf : list (ServiceEvent FileDescriptorSet)) :
  (∀ m, rangeOrder m ≡ₚ map_to_list m) →
  (length buf ≤ eventChanCapacity)%nat →
  let '(w', buf', outcome) :=
    loadExistingServicesAndInstances jsonUnmarshal protoUnmarshal scanInt
      get rangeOrder metadataKvs instanceKvs w buf in
  if bool_decide (is_Some metadataKvs ∧ is_Some instanceKvs)
  then initialLoading w' = false
       ∧ ∃ adds, adds ≡ₚ addEvent w' <$> map_to_list (metadataMap w')
                 ∧ buf' = buf ++ take (eventChanCapacity - length buf) adds
                 ∧ outcome = (if bool_decide (length buf + size (metadataMap w')
                                              ≤ eventChanCapacity)%nat
                              then Returned None else Blocked)
  else (∃ err, outcome = Returned (Some err)) ∧ initialLoading w' = true ∧ buf' = buf.
Proof.
  intros Hrange Hbuf. unfold loadExistingServicesAndInstances.
  destruct metadataKvs as [kvs|]; last first.
  { rewrite bool_decide_eq_false_2 by (by intros [[? ?] _]). by split; [eexists|]. }
  destruct (putAll_loading onMetadata buf kvs onMetadata_loading
              (setInitialLoading w true) eq_refl) as (w2 & -> & Hload2).
  cbn [negb].
  destruct instanceKvs as [ikvs|]; last first.
  { rewrite bool_decide_eq_false_2 by (by intros [_ [? ?]]). by split; [eexists|]. }
  destruct (putAll_loading (onInstance get) buf ikvs (onInstance_loading get) w2 Hload2)
    as (w3 & -> & Hload3).
  cbn [negb].
  rewrite bool_decide_eq_true_2 by (split; eauto).
  rewrite sendAll_room by done.
  split; [done|].
  exists (addEvent (setInitialLoading w3 false)
            <$> rangeOrder (metadataMap (setInitialLoading w3 false))).
  split; [by rewrite (Hrange _)|]. split; [done|].
  rewrite length_fmap, (Permutation_length (Hrange _)), length_map_to_list.
  by case_bool_decide.
Qed.

End discovery_more_facts.

(** ** The registry under the gateway's events *)
Section router_more_facts.
Import RouteTree RouteTreeMore Router RouterMore.
Context {FileDescriptorSet Invoker : Type}.
Context {FileDescriptor ServiceDescriptor MethodDescriptor : Type}.
Variable GetServices : FileDescriptor → list ServiceDescriptor.
Variable GetMethods : ServiceDescriptor → list MethodDescriptor.
Variable GetFullyQualifiedName : ServiceDescriptor → string.
Variable GetName : MethodDescriptor → string.
Variable ExtractHTTPRules : MethodDescriptor → option (list HTTPRule).
Variable NewGRPCInvoker :
  string → option FileDescriptorSet → option (Invoker * list FileDescriptor).
Variable TrimSpace : string → string.
Variable ToUpper : string → string.
Variable pathClean : string → string.
Variable rangeOrder : gset string → list string.

#[local] Abbreviation router := (HTTPRouter Invoker MethodDescriptor).
#[local] Abbreviation info := (Discovery.ServiceInfo FileDescriptorSet).
#[local] Abbreviation nameOf i := (Discovery.ServiceName (Discovery.Meta i)).
#[local] Abbreviation registerRule :=
  (Router.registerRule GetFullyQualifiedName GetName TrimSpace ToUpper pathClean).
#[local] Abbreviation registerMethod :=
  (Router.registerMethod GetFullyQualifiedName GetName ExtractHTTPRules
     TrimSpace ToUpper pathClean).
#[local] Abbreviation registerRoutes :=
  (Router.registerRoutes GetServices GetMethods GetFullyQualifiedName GetName
     ExtractHTTPRules TrimSpace ToUpper pathClean).
#[local] Abbreviation RegisterService :=
  (Router.RegisterService GetServices GetMethods GetFullyQualifiedName GetName
     ExtractHTTPRules NewGRPCInvoker TrimSpace ToUpper pathClean).
#[local] Abbreviation handleEvent :=
  (RouterMore.handleEvent GetServices GetMethods GetFullyQualifiedName GetName
     ExtractHTTPRules NewGRPCInvoker TrimSpace ToUpper pathClean rangeOrder).
#[local] Abbreviation reachable :=
  (RouterMore.reachable GetServices GetMethods GetFullyQualifiedName GetName
     ExtractHTTPRules NewGRPCInvoker TrimSpace ToUpper pathClean rangeOrder).

Lemma grows_refl (serviceName : string) (r : router) : grows serviceName r r.
Proof. unfold grows. by repeat (split; [done|]). Qed.

Lemma grows_trans (serviceName : string) (r1 r2 r3 : router) :
  grows serviceName r1 r2 → grows serviceName r2 r3 → grows serviceName r1 r3.
Proof.
  intros (Hp1 & Hr1 & Hi1 & Hs1 & Hok1 & Ht1) (Hp2 & Hr2 & Hi2 & Hs2 & Hok2 & Ht2).
  split; [by rewrite Hp2|]. split; [intros s Hs; by rewrite Hr2, Hr1|].
  split; [by etrans|]. split; [by etrans|]. split; eauto.
Qed.

Lemma grows_foldl {A : Type} (serviceName : string) (f : router → A → router) (l : list A) :
  (∀ r x, grows serviceName r (f r x)) → ∀ r, grows serviceName r (foldl f r l).
Proof.
  intros Hf. induction l as [|x l IH]; intros r; cbn [foldl]; [apply grows_refl|].
  eapply grows_trans; [apply Hf|apply IH].
Qed.

Lemma registerRule_grows (serviceName : string) (svc : ServiceDescriptor)
    (method : MethodDescriptor) (r : router) (rule : HTTPRule) :
  grows serviceName r (registerRule serviceName svc method r rule).
Proof.
  unfold Router.registerRule.
  set (key := normalizePath TrimSpace ToUpper pathClean (RuleMethod rule) (RulePath rule)).
  case_bool_decide as Hknown; [apply grows_refl|].
  set (route := Router.routeOf GetFullyQualifiedName GetName serviceName svc method rule).
  assert (Htree : reached (routerTree r) → reached (Insert key route (routerTree r)).1)
    by apply reached_insert.
  destruct (Insert key route (routerTree r)) as [tree [err|]]; cbn in Htree.
  { unfold grows. by repeat (split; [done|]). }
  assert (Hpaths : ∀ s, pathsOf {| routerTree := tree; servicePools := servicePools r;
                     routeIndex := <[serviceName := {[key]} ∪ default ∅ (routeIndex r !! serviceName)]>
                                     (routeIndex r);
                     pathIndex := {[key]} ∪ pathIndex r |} s
                   = if decide (s = serviceName) then {[key]} ∪ pathsOf r serviceName
                     else pathsOf r s).
  { intros s. unfold pathsOf. cbn. case_decide as Hs.
    - subst s. by rewrite lookup_insert_eq.
    - by rewrite lookup_insert_ne. }
  split; [done|]. split; [intros s Hs; cbn; by rewrite lookup_insert_ne|].
  split; [cbn; apply union_subseteq_r|].
  split; [rewrite Hpaths, decide_True by done; apply union_subseteq_r|].
  split; [|done].
  intros [Hindex Huniq].
  assert (Hfresh : ∀ s, key ∉ pathsOf r s).
  { intros s Hin. apply Hknown, Hindex. by exists s. }
  split.
  - intros k. cbn [pathIndex]. rewrite elem_of_union, elem_of_singleton, Hindex. split.
    + intros [->|[s Hs]].
      * exists serviceName. rewrite Hpaths, decide_True by done.
        apply elem_of_union. left. by apply elem_of_singleton.
      * exists s. rewrite Hpaths. case_decide as Heq; [|done].
        subst s. apply elem_of_union. by right.
    + intros [s Hs]. rewrite Hpaths in Hs. case_decide as Heq; [|right; by exists s].
      apply elem_of_union in Hs as [->%elem_of_singleton|Hs]; [by left|].
      right. by exists serviceName.
  - intros s1 s2 k. rewrite !Hpaths.
    destruct (decide (s1 = serviceName)) as [->|H1], (decide (s2 = serviceName)) as [->|H2];
      try done.
    + intros [->%elem_of_singleton|Hk1]%elem_of_union Hk2; [by destruct (Hfresh s2)|].
      by apply (Huniq _ _ k).
    + intros Hk1 [->%elem_of_singleton|Hk2]%elem_of_union; [by destruct (Hfresh s1)|].
      by apply (Huniq _ _ k).
    + apply Huniq.
Qed.

Lemma registerRoutes_grows (serviceName : string) (r : router)
    (fileDescs : list FileDescriptor) :
  grows serviceName r (registerRoutes serviceName r fileDescs).
Proof.
  unfold Router.registerRoutes. revert r. apply grows_foldl. intros r fileDesc.
  revert r. apply grows_foldl. intros r svc.
  revert r. apply grows_foldl. intros r method.
  unfold Router.registerMethod. destruct (ExtractHTTPRules method) as [rules|];
    [|apply grows_refl].
  revert r. apply grows_foldl. intros r rule. apply registerRule_grows.
Qed.

(** The invokers that the creation loop has built: one under the address
    of every instance of [toCreate] for which [NewGRPCInvoker] succeeds. *)
Lemma createInvokers_lookup (need : bool) (descriptor : option FileDescriptorSet)
    (toCreate : list Pool.ServiceInstance) (addr : string) :
  (createInvokers NewGRPCInvoker need descriptor toCreate).1 !! addr =
    if decide (addr ∈ Pool.Addr <$> toCreate)
    then match NewGRPCInvoker addr descriptor with
         | Some (invoker, _) => Some (Some invoker)
         | None => None
         end
    else None.
Proof.
  unfold createInvokers.
  induction toCreate as [|inst l IH] using rev_ind.
  { cbn. rewrite lookup_empty. rewrite decide_False; [done|]. by intros ?%elem_of_nil. }
  rewrite foldl_app. cbn [foldl].
  destruct (foldl _ (∅, []) l) as [created firstFileDescs]. cbn [fst] in IH.
  rewrite fmap_app. cbn [fmap list_fmap].
  destruct (decide (addr = Pool.Addr inst)) as [->|Hne].
  - rewrite (decide_True (P := _ ∈ _ ++ _))
      by (apply elem_of_app; right; apply list_elem_of_here).
    destruct (NewGRPCInvoker (Pool.Addr inst) descriptor) as [[invoker fileDescs]|] eqn:Hnew.
    + cbn. by rewrite lookup_insert_eq.
    + cbn. rewrite IH. by case_decide.
  - assert (Hiff : addr ∈ (Pool.Addr <$> l) ++ [Pool.Addr inst] ↔ addr ∈ Pool.Addr <$> l).
    { rewrite elem_of_app, list_elem_of_singleton. split; [|by left].
      intros [Hl|Heq]; [done|by destruct Hne]. }
    assert (Hcreated : ∀ c : gmap string (option Invoker),
              c !! addr = created !! addr →
              c !! addr = if decide (addr ∈ (Pool.Addr <$> l) ++ [Pool.Addr inst])
                          then match NewGRPCInvoker addr descriptor with
                               | Some (invoker, _) => Some (Some invoker)
                               | None => None
                               end
                          else None).
    { intros c ->. rewrite IH.
      destruct (decide (addr ∈ Pool.Addr <$> l)) as [Hl|Hl].
      - by rewrite decide_True by (by apply Hiff).
      - by rewrite decide_False by (by rewrite Hiff). }
    destruct (NewGRPCInvoker (Pool.Addr inst) descriptor) as [[invoker fileDescs]|]; cbn.
    + apply Hcreated. by rewrite lookup_insert_ne.
    + by apply Hcreated.
Qed.

(** The registry that [RegisterService] returns for a valid service:
    the registry with the pool of the service replaced, and then grown by
    the routes of the service, which are left alone when the service has
    routes already. *)
Lemma RegisterService_steps (r : router) (i : info) :
  TrimSpace (nameOf i) ≠ EmptyString →
  ∃ pool : Pool.ServicePool Invoker,
    let r1 := {| routerTree := routerTree r;
                 servicePools := <[nameOf i := pool]> (servicePools r);
                 routeIndex := routeIndex r; pathIndex := pathIndex r |} in
    grows (nameOf i) r1 (RegisterService r (Some i)).1
    ∧ (pathsOf r (nameOf i) ≠ ∅ → (RegisterService r (Some i)).1 = r1)
    ∧ Pool.instances pool = Discovery.Instances i
    ∧ Pool.counter pool = Pool.counter (poolOf r (nameOf i))
    ∧ Pool.serviceName pool = Pool.serviceName (poolOf r (nameOf i))
    ∧ ∀ addr,
        Pool.invokers pool !! addr =
          if decide (addr ∈ Pool.Addr <$> Discovery.Instances i)
          then match Pool.invokers (poolOf r (nameOf i)) !! addr with
               | Some invoker => Some invoker
               | None =>
                   match NewGRPCInvoker addr (Discovery.Descriptor (Discovery.Meta i)) with
                   | Some (invoker, _) => Some (Some invoker)
                   | None => None
                   end
               end
          else None.
Proof.
  intros Hvalid. unfold Router.RegisterService, invalidService.
  rewrite bool_decide_eq_false_2 by done.
  fold (poolOf r (nameOf i)). fold (pathsOf r (nameOf i)).
  set (old := poolOf r (nameOf i)).
  set (toCreate := filter _ (Discovery.Instances i)).
  pose proof (createInvokers_lookup
                (size (pathsOf r (nameOf i)) =? 0)%nat
                (Discovery.Descriptor (Discovery.Meta i)) toCreate) as Hcreated.
  destruct (createInvokers _ _ _ toCreate) as [created firstFileDescs]. cbn [fst] in Hcreated.
  exists {| Pool.serviceName := Pool.serviceName old;
            Pool.invokers :=
              filter (λ kv, kv.1 ∈ (list_to_set (Pool.Addr <$> Discovery.Instances i)
                                      : gset string))
                     (created ∪ Pool.invokers old);
            Pool.instances := Discovery.Instances i;
            Pool.counter := Pool.counter old |}.
  split; [|split; [|split; [reflexivity|split; [reflexivity|split; [reflexivity|]]]]].
  - destruct (size (pathsOf r (nameOf i)) =? 0)%nat; [|apply grows_refl].
    destruct (length firstFileDescs =? 0)%nat; [apply grows_refl|].
    apply registerRoutes_grows.
  - intros Hroutes.
    destruct (size (pathsOf r (nameOf i)) =? 0)%nat eqn:Hsize; [|done].
    apply Nat.eqb_eq, size_empty_iff in Hsize. by apply leibniz_equiv in Hsize.
  - intros addr. cbn [Pool.invokers].
    assert (Hset : addr ∈ (list_to_set (Pool.Addr <$> Discovery.Instances i) : gset string)
                   ↔ addr ∈ Pool.Addr <$> Discovery.Instances i)
      by apply elem_of_list_to_set.
    case_decide as Hin; last first.
    { apply map_lookup_filter_None_2. right. intros x _. cbn. by rewrite Hset. }
    assert (Hunion : (created ∪ Pool.invokers old) !! addr =
              match Pool.invokers old !! addr with
              | Some invoker => Some invoker
              | None =>
                  match NewGRPCInvoker addr (Discovery.Descriptor (Discovery.Meta i)) with
                  | Some (invoker, _) => Some (Some invoker)
                  | None => None
                  end
              end).
    { rewrite lookup_union, Hcreated.
      destruct (Pool.invokers old !! addr) as [x|] eqn:Hold.
      - rewrite decide_False; [done|].
        intros (inst & -> & [Hnone _]%list_elem_of_filter)%list_elem_of_fmap.
        by rewrite Hold in Hnone.
      - rewrite decide_True.
        + by destruct (NewGRPCInvoker addr _) as [[? ?]|].
        + apply list_elem_of_fmap in Hin as (inst & -> & Hinst).
          apply list_elem_of_fmap. exists inst. split; [done|].
          by apply list_elem_of_filter. }
    rewrite <-Hunion.
    destruct ((created ∪ Pool.invokers old) !! addr) as [x|] eqn:Hx.
    + apply map_lookup_filter_Some_2; [done|]. cbn. by rewrite Hset.
    + apply map_lookup_filter_None_2. by left.
Qed.

(** X16. [RegisterService] brings the pool of the service in line with
    the instances of the event. For a valid service, the pool stored under
    its name afterwards lists exactly the instances of the event and keeps
    its counter; under every address of these instances it keeps the
    invoker it had, or else holds the invoker that [NewGRPCInvoker] builds
    for the address, or nothing when that fails; and it holds no invoker
    under any other address. *)
Theorem RegisterService_syncs_pool (r : router) (i : info) :
  TrimSpace (nameOf i) ≠ EmptyString →
  ∃ pool : Pool.ServicePool Invoker,
    servicePools (RegisterService r (Some i)).1 !! nameOf i = Some pool
    ∧ Pool.instances pool = Discovery.Instances i
    ∧ Pool.counter pool = Pool.counter (poolOf r (nameOf i))
    ∧ ∀ addr,
        Pool.invokers pool !! addr =
          if decide (addr ∈ Pool.Addr <$> Discovery.Instances i)
          then match Pool.invokers (poolOf r (nameOf i)) !! addr with
               | Some invoker => Some invoker
               | None =>
                   match NewGRPCInvoker addr (Discovery.Descriptor (Discovery.Meta i)) with
                   | Some (invoker, _) => Some (Some invoker)
                   | None => None
                   end
               end
          else None.
Proof.
  intros Hvalid.
  destruct (RegisterService_steps r i Hvalid)
    as (pool & (Hpools & _) & _ & Hinstances & Hcounter & _ & Hinvokers).
  exists pool. split; [|done].
  rewrite Hpools. cbn. by rewrite lookup_insert_eq.
Qed.

(** X17. [RegisterService] of a service touches nothing of the other
    services, and installs routes once. The pools and the route sets of
    all other services are as before, and no key leaves the path index or
    the route set of the service. When the service has routes already, the
    tree, the route index and the path index are exactly as before,
    whatever the descriptor of the event says. *)
Theorem RegisterService_frame (r : router) (i : info) :
  let r' := (RegisterService r (Some i)).1 in
  (∀ s, s ≠ nameOf i →
        servicePools r' !! s = servicePools r !! s ∧ routeIndex r' !! s = routeIndex r !! s)
  ∧ pathIndex r ⊆ pathIndex r'
  ∧ pathsOf r (nameOf i) ⊆ pathsOf r' (nameOf i)
  ∧ (pathsOf r (nameOf i) ≠ ∅ →
     routerTree r' = routerTree r ∧ routeIndex r' = routeIndex r
     ∧ pathIndex r' = pathIndex r).
Proof.
  intros r'. subst r'.
  destruct (decide (TrimSpace (nameOf i) = EmptyString)) as [Hblank|Hvalid].
  { unfold Router.RegisterService, invalidService.
    rewrite bool_decide_eq_true_2 by done. cbn [fst]. done. }
  destruct (RegisterService_steps r i Hvalid)
    as (pool & (Hpools & Hroutes & Hindex & Hpaths & _) & Hsame & _).
  split; [|split; [done|split; [done|]]].
  - intros s Hs. rewrite Hpools, Hroutes by done. cbn.
    by rewrite lookup_insert_ne.
  - intros Hhas. by rewrite (Hsame Hhas).
Qed.

Lemma foldl_dropRoute (order : list string) :
  ∀ r : router,
    servicePools (foldl dropRoute r order) = servicePools r
    ∧ routeIndex (foldl dropRoute r order) = routeIndex r
    ∧ pathIndex (foldl dropRoute r order) = pathIndex r ∖ list_to_set order
    ∧ (reached (routerTree r) → reached (routerTree (foldl dropRoute r order))).
Proof.
  induction order as [|key order IH]; intros r; cbn [foldl].
  { split; [done|]. split; [done|]. split; [|done].
    apply set_eq. intros x. rewrite elem_of_difference, list_to_set_nil, elem_of_empty.
    split; [intros Hx; split; [done|by intros ?]|by intros [? _]]. }
  destruct (IH (dropRoute r key)) as (Hpools & Hroutes & Hindex & Htree).
  split; [done|]. split; [done|]. split.
  - rewrite Hindex. cbn. apply set_eq. intros x.
    rewrite !elem_of_difference, elem_of_union, elem_of_singleton, elem_of_list_to_set.
    split.
    + intros [[Hx Hne] Hno]. split; [done|]. by intros [->|?].
    + intros [Hx Hno]. split; [split; [done|]|].
      * intros ->. apply Hno. by left.
      * intros Hin. apply Hno. by right.
  - intros Hreached. apply Htree. cbn. by apply reached_delete.
Qed.

(** The registry that [UnRegisterService] returns for a valid service. *)
Lemma UnRegisterService_steps (order : list string) (r : router) (i : info) :
  TrimSpace (nameOf i) ≠ EmptyString →
  order ≡ₚ elements (pathsOf r (nameOf i)) →
  ∃ r', UnRegisterService TrimSpace order r (Some i) = (r', None)
        ∧ servicePools r' = delete (nameOf i) (servicePools r)
        ∧ routeIndex r' = delete (nameOf i) (routeIndex r)
        ∧ pathIndex r' = pathIndex r ∖ pathsOf r (nameOf i)
        ∧ (reached (routerTree r) → reached (routerTree r')).
Proof.
  intros Hvalid Horder. unfold UnRegisterService, invalidService.
  rewrite bool_decide_eq_false_2 by done.
  destruct (foldl_dropRoute order r) as (Hpools & Hroutes & Hindex & Htree).
  assert (Hset : (list_to_set order : gset string) = pathsOf r (nameOf i)).
  { rewrite <-(list_to_set_elements_L (pathsOf r (nameOf i))).
    by apply list_to_set_perm_L. }
  eexists. split; [reflexivity|]. cbn.
  rewrite Hpools, Hroutes, Hindex, Hset. done.
Qed.

(** X18. [UnRegisterService] takes a service out and leaves the others
    in. For a valid service, in whatever order the [range] yields its
    keys, the call returns no error; afterwards the service has no pool
    and no route set, the path index has lost exactly the keys of the
    service, and the pools and route sets of all other services are as
    before. When the indexes agreed before the call, every key of another
    service is still in the path index. *)
Theorem UnRegisterService_removes_service (order : list string) (r : router) (i : info) :
  TrimSpace (nameOf i) ≠ EmptyString →
  order ≡ₚ elements (pathsOf r (nameOf i)) →
  ∃ r', UnRegisterService TrimSpace order r (Some i) = (r', None)
        ∧ servicePools r' !! nameOf i = None
        ∧ routeIndex r' !! nameOf i = None
        ∧ pathIndex r' = pathIndex r ∖ pathsOf r (nameOf i)
        ∧ (∀ s, s ≠ nameOf i →
                servicePools r' !! s = servicePools r !! s
                ∧ routeIndex r' !! s = routeIndex r !! s)
        ∧ (indexOk r →
           ∀ s key, s ≠ nameOf i → key ∈ pathsOf r s → key ∈ pathIndex r').
Proof.
  intros Hvalid Horder.
  destruct (UnRegisterService_steps order r i Hvalid Horder)
    as (r' & Hcall & Hpools & Hroutes & Hindex & _).
  exists r'. split; [done|]. rewrite Hpools, Hroutes, Hindex.
  split; [apply lookup_delete_eq|]. split; [apply lookup_delete_eq|]. split; [done|].
  split; [intros s Hs; by rewrite !lookup_delete_ne|].
  intros [Hkeys Huniq] s key Hs Hkey. apply elem_of_difference. split.
  - apply Hkeys. by exists s.
  - intros Hin. apply Hs. by apply (Huniq _ _ key).
Qed.

(** What every registry of a running gateway satisfies. *)
Lemma reachable_invariant (r : router) :
  reachable r →
  ((∀ X, rangeOrder X ≡ₚ elements X) → indexOk r)
  ∧ reached (routerTree r)
  ∧ (∀ s pool, servicePools r !! s = Some pool →
       Pool.serviceName pool = s
       ∧ ∀ addr, is_Some (Pool.invokers pool !! addr) →
                 addr ∈ Pool.Addr <$> Pool.instances pool).
Proof.
  induction 1 as [|r event _ (Hindex & Htree & Hpool)|r s0 _ (Hindex & Htree & Hpool)].
  { split; [|split; [apply reached_new|]].
    - intros _. split.
      + intros key. cbn. split; [by intros ?%elem_of_empty|].
        intros [s Hs]. unfold pathsOf in Hs. cbn in Hs.
        by rewrite lookup_empty in Hs.
      + intros s1 s2 key Hs. unfold pathsOf in Hs. cbn in Hs.
        by rewrite lookup_empty in Hs.
    - intros s pool Hs. cbn in Hs. by rewrite lookup_empty in Hs. }
  2: {
    unfold served. destruct (servicePools r !! s0) as [pool0|] eqn:Hpool0; [|done].
    split; [done|]. split; [done|]. cbn. intros s pool.
    destruct (decide (s = s0)) as [->|Hs]; [|rewrite lookup_insert_ne by done; apply Hpool].
    rewrite lookup_insert_eq. intros [= <-].
    assert (Hsame : ∀ p : Pool.ServicePool Invoker,
              Pool.serviceName (Pool.getNextInvoker p).1 = Pool.serviceName p
              ∧ Pool.invokers (Pool.getNextInvoker p).1 = Pool.invokers p
              ∧ Pool.instances (Pool.getNextInvoker p).1 = Pool.instances p).
    { intros p. unfold Pool.getNextInvoker.
      destruct (Pool.instances p) eqn:Hp; cbn; by rewrite ?Hp. }
    destruct (Hsame pool0) as (-> & -> & ->). by apply Hpool. }
  unfold RouterMore.handleEvent.
  set (i := Discovery.Service event).
  destruct (decide (TrimSpace (nameOf i) = EmptyString)) as [Hblank|Hvalid].
  { assert (Hreg : (RegisterService r (Some i)).1 = r).
    { unfold Router.RegisterService, invalidService.
      by rewrite bool_decide_eq_true_2 by done. }
    assert (Hunreg : ∀ order, (UnRegisterService TrimSpace order r (Some i)).1 = r).
    { intros order. unfold UnRegisterService, invalidService.
      by rewrite bool_decide_eq_true_2 by done. }
    destruct (Discovery.Type_ event); by rewrite ?Hreg, ?Hunreg. }
  assert (Hregister :
    ((∀ X, rangeOrder X ≡ₚ elements X) → indexOk (RegisterService r (Some i)).1)
    ∧ reached (routerTree (RegisterService r (Some i)).1)
    ∧ (∀ s pool, servicePools (RegisterService r (Some i)).1 !! s = Some pool →
         Pool.serviceName pool = s
         ∧ ∀ addr, is_Some (Pool.invokers pool !! addr) →
                   addr ∈ Pool.Addr <$> Pool.instances pool)).
  { destruct (RegisterService_steps r i Hvalid)
      as (pool & (Hpools & _ & _ & _ & Hok & Hreached) & _ & Hinstances & _ & Hname & Hinvokers).
    split; [intros Hrange; apply Hok; by apply Hindex|].
    split; [by apply Hreached|].
    intros s pool'. rewrite Hpools. cbn.
    destruct (decide (s = nameOf i)) as [->|Hs].
    - rewrite lookup_insert_eq. intros [= <-]. split.
      + rewrite Hname. unfold poolOf.
        destruct (servicePools r !! nameOf i) as [old|] eqn:Hold; [|done].
        by apply (Hpool _ _ Hold).
      + intros addr. rewrite Hinvokers, Hinstances. case_decide; [done|]. by intros [? ?].
    - rewrite lookup_insert_ne by done. apply Hpool. }
  destruct (Discovery.Type_ event); [exact Hregister| |exact Hregister].
  split; [|split].
  - intros Hrange.
    destruct (UnRegisterService_steps (rangeOrder (pathsOf r (nameOf i))) r i Hvalid
                (Hrange _)) as (r' & -> & _ & Hroutes & Hpaths & _).
    cbn [fst]. destruct (Hindex Hrange) as [Hkeys Huniq].
    assert (Hof : ∀ s, pathsOf r' s = if decide (s = nameOf i) then ∅ else pathsOf r s).
    { intros s. unfold pathsOf. rewrite Hroutes. case_decide as Hs.
      - subst s. by rewrite lookup_delete_eq.
      - by rewrite lookup_delete_ne. }
    split.
    + intros key. rewrite Hpaths, elem_of_difference, Hkeys. split.
      * intros [[s Hs] Hno]. exists s. rewrite Hof. case_decide as Heq; [|done].
        subst s. done.
      * intros [s Hs]. rewrite Hof in Hs. case_decide as Heq; [by apply elem_of_empty in Hs|].
        split; [by exists s|]. intros Hin. apply Heq. by apply (Huniq _ _ key).
    + intros s1 s2 key. rewrite !Hof.
      repeat case_decide; try (by intros ?%elem_of_empty); try (by intros _ ?%elem_of_empty).
      apply Huniq.
  - unfold UnRegisterService, invalidService.
    rewrite bool_decide_eq_false_2 by done. cbn.
    by apply foldl_dropRoute.
  - unfold UnRegisterService, invalidService.
    rewrite bool_decide_eq_false_2 by done. cbn.
    destruct (foldl_dropRoute (rangeOrder (pathsOf r (nameOf i))) r) as (-> & _).
    intros s pool [_ Hs]%lookup_delete_Some. by apply Hpool.
Qed.

(** X19. The indexes of a running gateway agree. In every registry that
    the gateway reaches from the empty one through the events of the
    watcher, with requests served in between, the path index holds
    exactly the keys of the services' route
    sets, and no key belongs to two services; and the route tree is one
    that [Insert], [Delete] and [Update] calls build, so that it has the
    shape of such trees. *)
Theorem reachable_indexes_agree (r : router) :
  (∀ X, rangeOrder X ≡ₚ elements X) →
  reachable r →
  (∀ key, key ∈ pathIndex r ↔ ∃ serviceName, key ∈ pathsOf r serviceName)
  ∧ (∀ s1 s2 key, key ∈ pathsOf r s1 → key ∈ pathsOf r s2 → s1 = s2)
  ∧ reached (routerTree r).
Proof.
  intros Hrange Hreach.
  destruct (reachable_invariant r Hreach) as (Hindex & Htree & _).
  destruct (Hindex Hrange) as [Hkeys Huniq]. done.
Qed.

(** X20. No pool of a running gateway keeps a connection to an instance
    that is gone: in every registry the gateway reaches, a pool is stored
    under its own service name and holds invokers only under addresses of
    the instances it lists. *)
Theorem reachable_pools_hold_listed_addresses (r : router) (s : string)
    (pool : Pool.ServicePool Invoker) (addr : string) :
  reachable r → servicePools r !! s = Some pool →
  Pool.serviceName pool = s
  ∧ (is_Some (Pool.invokers pool !! addr) → addr ∈ Pool.Addr <$> Pool.instances pool).
Proof.
  intros Hreach Hpool.
  destruct (reachable_invariant r Hreach) as (_ & _ & Hpools).
  destruct (Hpools s pool Hpool) as [Hname Hinvokers]. split; [done|apply Hinvokers].
Qed.

(** *** Two services and one key *)

#[local] Abbreviation publishes :=
  (RouterMore.publishes GetServices GetMethods ExtractHTTPRules NewGRPCInvoker).
#[local] Abbreviation keyOf rule :=
  (normalizePath TrimSpace ToUpper pathClean (RuleMethod rule) (RulePath rule)).

Lemma foldl_preserves {A : Type} (P : router → Prop) (f : router → A → router) (l : list A) :
  (∀ r0 x, x ∈ l → P r0 → P (f r0 x)) → ∀ r, P r → P (foldl f r l).
Proof.
  induction l as [|x l IH]; intros Hf r Hr; cbn [foldl]; [done|].
  apply IH.
  - intros r0 y Hy. apply Hf. by apply list_elem_of_further.
  - apply Hf; [apply list_elem_of_here|done].
Qed.

(** What holds before the registration of the routes and is kept by
    the step for every rule of the descriptors holds after it. *)
Lemma registerRoutes_preserves (P : router → Prop) (serviceName : string)
    (fileDescs : list FileDescriptor) :
  (∀ r0 fileDesc svc method rules rule,
     fileDesc ∈ fileDescs → svc ∈ GetServices fileDesc → method ∈ GetMethods svc →
     ExtractHTTPRules method = Some rules → rule ∈ rules →
     P r0 → P (registerRule serviceName svc method r0 rule)) →
  ∀ r, P r → P (registerRoutes serviceName r fileDescs).
Proof.
  intros Hstep r Hr. unfold Router.registerRoutes.
  apply foldl_preserves; [|done]. intros r1 fileDesc HfileDesc Hr1.
  apply foldl_preserves; [|done]. intros r2 svc Hsvc Hr2.
  apply foldl_preserves; [|done]. intros r3 method Hmethod Hr3.
  unfold Router.registerMethod.
  destruct (ExtractHTTPRules method) as [rules|] eqn:Hrules; [|done].
  apply foldl_preserves; [|done]. intros r4 rule Hrule Hr4.
  by eapply Hstep.
Qed.

(** The descriptors the creation loop captures are those that a
    connection to one of the instances has delivered. *)
Lemma createInvokers_files (need : bool) (descriptor : option FileDescriptorSet)
    (toCreate : list Pool.ServiceInstance) :
  (createInvokers NewGRPCInvoker need descriptor toCreate).2 = []
  ∨ ∃ inst invoker,
      inst ∈ toCreate
      ∧ NewGRPCInvoker (Pool.Addr inst) descriptor
        = Some (invoker, (createInvokers NewGRPCInvoker need descriptor toCreate).2).
Proof.
  unfold createInvokers.
  induction toCreate as [|inst l IH] using rev_ind; [by left|].
  rewrite foldl_app. cbn [foldl].
  destruct (foldl _ (∅, []) l) as [created firstFileDescs]. cbn [snd] in IH.
  assert (Hkeep : firstFileDescs = [] ∨
            ∃ inst0 invoker, inst0 ∈ l ++ [inst]
              ∧ NewGRPCInvoker (Pool.Addr inst0) descriptor = Some (invoker, firstFileDescs)).
  { destruct IH as [?|(inst0 & invoker & Hin & Hnew)]; [by left|right].
    exists inst0, invoker. split; [|done]. apply elem_of_app. by left. }
  destruct (NewGRPCInvoker (Pool.Addr inst) descriptor) as [[invoker fileDescs]|] eqn:Hnew;
    cbn [snd]; [|done].
  destruct (need && bool_decide (firstFileDescs = []) && (0 <? length fileDescs)%nat);
    [|done].
  right. exists inst, invoker. split; [|done].
  apply elem_of_app. right. apply list_elem_of_here.
Qed.

(** What holds of a registry whatever its pools are, and is kept by
    the step for every rule the service publishes, is kept by
    [RegisterService]. *)
Lemma RegisterService_preserves (P : router → Prop) (r : router) (i : info) :
  (∀ r0 pools, P r0 →
     P {| routerTree := routerTree r0; servicePools := pools;
          routeIndex := routeIndex r0; pathIndex := pathIndex r0 |}) →
  (∀ r0 svc method rule,
     publishes i rule → P r0 → P (registerRule (nameOf i) svc method r0 rule)) →
  P r → P (RegisterService r (Some i)).1.
Proof.
  intros Hpools Hstep Hr. unfold Router.RegisterService.
  destruct (invalidService TrimSpace (Some i)); [done|].
  set (toCreate := filter _ (Discovery.Instances i)).
  pose proof (createInvokers_files
                (size (default ∅ (routeIndex r !! nameOf i)) =? 0)%nat
                (Discovery.Descriptor (Discovery.Meta i)) toCreate) as Hfiles.
  destruct (createInvokers _ _ _ toCreate) as [created firstFileDescs]. cbn [snd] in Hfiles.
  destruct (size (default ∅ (routeIndex r !! nameOf i)) =? 0)%nat; [|by apply Hpools].
  destruct (length firstFileDescs =? 0)%nat eqn:Hlen; [by apply Hpools|].
  destruct Hfiles as [->|(inst & invoker & Hinst & Hnew)]; [done|].
  apply registerRoutes_preserves; [|by apply Hpools].
  intros r0 fileDesc svc method rules rule HfileDesc Hsvc Hmethod Hrules Hrule.
  apply Hstep. exists inst, invoker, firstFileDescs, fileDesc, svc, method, rules.
  split; [|done]. by apply list_elem_of_filter in Hinst as [_ ?].
Qed.

Lemma normalizePath_rooted (method path : string) :
  badPath (normalizePath TrimSpace ToUpper pathClean method path) = false.
Proof. reflexivity. Qed.

(** The step for a rule whose key the path index does not have. *)
Lemma registerRule_new (serviceName : string) (svc : ServiceDescriptor)
    (method : MethodDescriptor) (r : router) (rule : HTTPRule) :
  keyOf rule ∉ pathIndex r →
  let ins := Insert (keyOf rule) (Router.routeOf GetFullyQualifiedName GetName
                                    serviceName svc method rule) (routerTree r) in
  routerTree (registerRule serviceName svc method r rule) = ins.1
  ∧ pathIndex (registerRule serviceName svc method r rule)
    = (if ins.2 is None then {[keyOf rule]} ∪ pathIndex r else pathIndex r).
Proof.
  intros Hnew ins. subst ins. unfold Router.registerRule.
  rewrite bool_decide_eq_false_2 by done.
  by destruct (Insert _ _ (routerTree r)) as [tree [err|]].
Qed.

(** The routes that a registration brings into the path index are stored
    in the tree, under their keys, as routes of the service. *)
Lemma RegisterService_installs (r : router) (i : info) (k : string) :
  k ∈ pathIndex (RegisterService r (Some i)).1 → k ∉ pathIndex r →
  ∃ route, valueAt (keyAddr k) (routerTree (RegisterService r (Some i)).1) = Some route
           ∧ ServiceName route = nameOf i.
Proof.
  revert k.
  apply (RegisterService_preserves
           (λ r0, ∀ k, k ∈ pathIndex r0 → k ∉ pathIndex r →
              ∃ route, valueAt (keyAddr k) (routerTree r0) = Some route
                       ∧ ServiceName route = nameOf i)).
  - intros r0 pools Hr0. exact Hr0.
  - intros r0 svc method rule _ Hr0 k.
    destruct (decide (keyOf rule ∈ pathIndex r0)) as [Hknown|Hnew].
    { rewrite registerRule_known by done. apply Hr0. }
    destruct (registerRule_new (nameOf i) svc method r0 rule Hnew) as [-> ->].
    rewrite Insert_valueAt.
    destruct (Insert _ _ (routerTree r0)).2 as [err|]; [apply Hr0|].
    intros Hk Hfresh. unfold keyAddr.
    case_decide as Haddr; [by eexists|].
    apply Hr0; [|done].
    apply elem_of_union in Hk as [->%elem_of_singleton|Hk]; [done|done].
  - intros k Hk Hfresh. done.
Qed.

(** The registration of a service changes no value that the tree stores
    under a key of the path index, unless the service publishes a rule
    with another key that has the same address in the tree. *)
Lemma RegisterService_keeps_value (r : router) (i : info) (k : string) :
  k ∈ pathIndex r →
  (∀ rule, publishes i rule → keyOf rule ≠ k → keyAddr (keyOf rule) ≠ keyAddr k) →
  valueAt (keyAddr k) (routerTree (RegisterService r (Some i)).1)
  = valueAt (keyAddr k) (routerTree r).
Proof.
  intros Hk Hapart.
  assert (Hboth : k ∈ pathIndex (RegisterService r (Some i)).1
                  ∧ valueAt (keyAddr k) (routerTree (RegisterService r (Some i)).1)
                    = valueAt (keyAddr k) (routerTree r)); [|by destruct Hboth].
  apply (RegisterService_preserves
           (λ r0, k ∈ pathIndex r0
                  ∧ valueAt (keyAddr k) (routerTree r0) = valueAt (keyAddr k) (routerTree r)));
    [done| |done].
  intros r0 svc method rule Hrule [Hin Hvalue].
  destruct (decide (keyOf rule ∈ pathIndex r0)) as [Hknown|Hnew].
  { by rewrite registerRule_known by done. }
  destruct (registerRule_new (nameOf i) svc method r0 rule Hnew) as [-> ->].
  rewrite Insert_valueAt.
  destruct (Insert _ _ (routerTree r0)).2 as [err|]; [done|].
  split; [apply elem_of_union; by right|].
  rewrite decide_False; [done|].
  intros Heq. apply (Hapart rule Hrule); [|done]. by intros <-.
Qed.

(** The keys of the path index of a running gateway start with '/'. *)
Lemma reachable_keys_rooted (r : router) (k : string) :
  reachable r → k ∈ pathIndex r → badPath k = false.
Proof.
  intros Hreach. revert k.
  induction Hreach as [|r event _ IH|r s0 _ IH].
  - intros k Hk. by apply elem_of_empty in Hk.
  - unfold RouterMore.handleEvent. destruct (Discovery.Type_ event).
    + apply (RegisterService_preserves (λ r0, ∀ k, k ∈ pathIndex r0 → badPath k = false));
        [done| |done].
      intros r0 svc method rule _ Hr0 k.
      destruct (decide (keyOf rule ∈ pathIndex r0)) as [Hknown|Hnew].
      { rewrite registerRule_known by done. apply Hr0. }
      destruct (registerRule_new (nameOf (Discovery.Service event)) svc method r0 rule Hnew)
        as [_ ->].
      destruct (Insert _ _ (routerTree r0)).2; [apply Hr0|].
      intros [->%elem_of_singleton|Hk]%elem_of_union; [apply normalizePath_rooted|by apply Hr0].
    + intros k. unfold UnRegisterService.
      destruct (invalidService _ _); [apply IH|]. cbn.
      destruct (foldl_dropRoute
                  (rangeOrder (pathsOf r (nameOf (Discovery.Service event)))) r)
        as (_ & _ & -> & _).
      intros [Hk _]%elem_of_difference. by apply IH.
    + apply (RegisterService_preserves (λ r0, ∀ k, k ∈ pathIndex r0 → badPath k = false));
        [done| |done].
      intros r0 svc method rule _ Hr0 k.
      destruct (decide (keyOf rule ∈ pathIndex r0)) as [Hknown|Hnew].
      { rewrite registerRule_known by done. apply Hr0. }
      destruct (registerRule_new (nameOf (Discovery.Service event)) svc method r0 rule Hnew)
        as [_ ->].
      destruct (Insert _ _ (routerTree r0)).2; [apply Hr0|].
      intros [->%elem_of_singleton|Hk]%elem_of_union; [apply normalizePath_rooted|by apply Hr0].
  - unfold served. by destruct (servicePools r !! s0).
Qed.

(** The loop of [UnRegisterService] leaves no value in the tree under
    the keys it deletes. *)
Lemma foldl_dropRoute_clears (order : list string) (k : string) :
  ∀ r : router,
    allNodes linksOk (routerTree r) → badPath k = false →
    (k ∈ order ∨ valueAt (keyAddr k) (routerTree r) = None) →
    valueAt (keyAddr k) (routerTree (foldl dropRoute r order)) = None.
Proof.
  induction order as [|key order IH]; intros r Hall Hk Hcase; cbn [foldl].
  { destruct Hcase as [?%elem_of_nil|?]; done. }
  destruct (Delete_valueAt (routerTree r) key Hall) as (Hclears & Hadds & Hall').
  apply IH; [done|done|].
  destruct Hcase as [[->|Hin]%elem_of_cons|Hnone].
  - right. by apply Hclears.
  - by left.
  - right. by apply Hadds.
Qed.

(** C6, as the code has it. In a registry that the gateway has reached,
    the first service registers and its registration installs a route for
    the key [k], which the path index did not have. Then the tree stores
    under [k] a route of the first service and [Lookup] of [k] returns it.
    The registration of any second service returns no error; every rule
    of it with the key [k] is skipped and leaves the registry as it is;
    [k] stays in the route set of the first service and in the path index
    and does not enter the route set of the second; and the route stored
    under [k] and returned by [Lookup] is still the one of the first
    service, as long as the second service publishes no rule with another
    key of the same address in the tree. Unregistering the first service
    then returns no error, in whatever order the keys are deleted, and
    takes [k] out of the path index, out of every route set and out of
    the tree: nothing of the second service is installed in its place. *)
Theorem first_registration_wins (r : router) (first second : info) (k : string) :
  let a := nameOf first in
  let b := nameOf second in
  let r1 := (RegisterService r (Some first)).1 in
  let r2 := (RegisterService r1 (Some second)).1 in
  let unregistered :=
    UnRegisterService TrimSpace (rangeOrder (pathsOf r2 a)) r2 (Some first) in
  (∀ X, rangeOrder X ≡ₚ elements X) →
  reachable r →
  TrimSpace a ≠ EmptyString → TrimSpace b ≠ EmptyString → a ≠ b →
  k ∉ pathIndex r → k ∈ pathsOf r1 a →
  ∃ route,
    valueAt (keyAddr k) (routerTree r1) = Some route
    ∧ ServiceName route = a
    ∧ (∃ params, Lookup k (routerTree r1) = Some (route, params))
    ∧ (RegisterService r1 (Some second)).2 = None
    ∧ (∀ svc method rule (r0 : router),
         keyOf rule = k → k ∈ pathIndex r0 → registerRule b svc method r0 rule = r0)
    ∧ k ∈ pathsOf r2 a ∧ (k ∉ pathsOf r2 b) ∧ k ∈ pathIndex r2
    ∧ ((∀ rule, publishes second rule → keyOf rule ≠ k →
                keyAddr (keyOf rule) ≠ keyAddr k) →
       valueAt (keyAddr k) (routerTree r2) = Some route
       ∧ ∃ params, Lookup k (routerTree r2) = Some (route, params))
    ∧ unregistered.2 = None
    ∧ (k ∉ pathIndex unregistered.1)
    ∧ routeIndex unregistered.1 !! a = None
    ∧ (∀ s, k ∉ pathsOf unregistered.1 s)
    ∧ valueAt (keyAddr k) (routerTree unregistered.1) = None
    ∧ ¬ stored k (routerTree unregistered.1).
Proof.
  intros a b r1 r2 unregistered Hrange Hreach Ha Hb Hab Hfresh Hinstalled.
  assert (Hreach1 : reachable r1).
  { change r1 with (handleEvent r {| Discovery.Type_ := Discovery.EventAdd;
                                      Discovery.Service := first |}).
    by constructor. }
  assert (Hreach2 : reachable r2).
  { change r2 with (handleEvent r1 {| Discovery.Type_ := Discovery.EventAdd;
                                       Discovery.Service := second |}).
    by constructor. }
  destruct (reachable_invariant r1 Hreach1) as (Hindex1 & Htree1 & _).
  destruct (reachable_invariant r2 Hreach2) as (Hindex2 & Htree2 & _).
  destruct (Hindex1 Hrange) as [Hkeys1 Huniq1].
  destruct (Hindex2 Hrange) as [Hkeys2 Huniq2].
  assert (Hk1 : k ∈ pathIndex r1) by (apply Hkeys1; by exists a).
  assert (Hrooted : badPath k = false) by (by apply (reachable_keys_rooted r1)).
  destruct (RegisterService_installs r first k Hk1 Hfresh) as (route & Hroute & Hname).
  assert (Hpaths2 : pathsOf r2 a = pathsOf r1 a).
  { destruct (RegisterService_steps r1 second Hb) as (pool & (_ & Hroutes & _) & _).
    unfold pathsOf. fold r2 in Hroutes. by rewrite Hroutes. }
  assert (Hin2 : k ∈ pathsOf r2 a) by (by rewrite Hpaths2).
  exists route. split; [done|]. split; [done|].
  split; [by apply Lookup_valueAt; [apply reached_links| |]|].
  split.
  { rewrite (RegisterService_error GetServices GetMethods GetFullyQualifiedName GetName
               ExtractHTTPRules NewGRPCInvoker TrimSpace ToUpper pathClean).
    unfold invalidService. by rewrite bool_decide_eq_false_2. }
  split; [intros svc method rule r0 <- Hknown; by apply registerRule_known|].
  split; [done|].
  split; [intros Hb2; by apply Hab, (Huniq2 _ _ k)|].
  split; [apply Hkeys2; by exists a|].
  split.
  { intros Hapart.
    assert (Hvalue2 : valueAt (keyAddr k) (routerTree r2) = Some route).
    { unfold r2. by rewrite RegisterService_keeps_value. }
    split; [done|]. by apply Lookup_valueAt; [apply reached_links| |]. }
  destruct (UnRegisterService_steps (rangeOrder (pathsOf r2 a)) r2 first Ha (Hrange _))
    as (r3 & Hcall & _ & Hroutes3 & Hpaths3 & _).
  assert (Hvalue3 : valueAt (keyAddr k) (routerTree unregistered.1) = None).
  { unfold unregistered, UnRegisterService, invalidService.
    rewrite bool_decide_eq_false_2 by done. cbn [fst routerTree].
    apply foldl_dropRoute_clears; [by apply reached_links|done|].
    left. rewrite (Hrange _). by apply elem_of_elements. }
  unfold unregistered in *. rewrite Hcall in *. cbn [fst snd] in *.
  split; [done|].
  split; [rewrite Hpaths3; intros [_ Hno]%elem_of_difference; done|].
  split; [rewrite Hroutes3; apply lookup_delete_eq|].
  split.
  { intros s Hs. unfold pathsOf in Hs. rewrite Hroutes3 in Hs.
    destruct (decide (s = a)) as [->|Hne].
    - rewrite lookup_delete_eq in Hs. by apply elem_of_empty in Hs.
    - rewrite lookup_delete_ne in Hs by done. by apply Hne, (Huniq2 _ _ k). }
  split; [done|].
  rewrite stored_valueAt. fold (keyAddr k). rewrite Hvalue3. by intros [? ?].
Qed.

End router_more_facts.

(** ** The HTTP rules of a method *)
Section rules_facts.
Import Router HttpRules.
Context {MethodDescriptor : Type}.
Variable httpOption : MethodDescriptor → option HttpRule.

Lemma parseHTTPRule_binding (rule : HttpRule) :
  parseHTTPRule (Some rule) = Some <$> bindingRule rule.
Proof.
  unfold parseHTTPRule, bindingRule.
  by destruct (GetPattern rule) as [[path|path|path|path|path|kind path]|].
Qed.

Lemma appendBindings_mapM (bindings : list (option HttpRule)) :
  ∀ rules, appendBindings rules bindings
           = (λ more, rules ++ more) <$> mapM bindingRule (omap id bindings).
Proof.
  induction bindings as [|[binding|] rest IH]; intros rules; cbn [appendBindings].
  - cbn. by rewrite (right_id_L [] (++)).
  - rewrite parseHTTPRule_binding. cbn [omap list_omap id].
    destruct (bindingRule binding) as [rule|] eqn:Hrule; cbn; rewrite Hrule; [|done].
    rewrite IH. cbn. destruct (mapM bindingRule (omap id rest)); cbn; [|done].
    by rewrite <-(assoc_L (++)).
  - cbn. apply IH.
Qed.

(** X21. [ExtractHTTPRules] is all or nothing, and keeps the order. A
    method without the HTTP option has no rules. For a method with the
    option, the bindings read are the rule itself and its additional
    bindings that are not nil, one level deep: when each of them has its
    pattern set, the result lists their rules in that order, the main rule
    first; when one of them has no pattern, the call fails and gives no
    rule at all, also none of the bindings that are in order. *)
Theorem ExtractHTTPRules_all_or_nothing (method : MethodDescriptor) :
  ExtractHTTPRules httpOption method =
    match httpOption method with
    | None => Some []
    | Some rule => mapM bindingRule (bindingsOf rule)
    end
  ∧ (∀ rule, httpOption method = Some rule →
       (ExtractHTTPRules httpOption method = None
        ↔ ∃ binding, binding ∈ bindingsOf rule ∧ GetPattern binding = None)
       ∧ (∀ rules, ExtractHTTPRules httpOption method = Some rules →
            Forall2 (λ binding httpRule, bindingRule binding = Some httpRule)
                    (bindingsOf rule) rules)).
Proof.
  assert (Heq : ExtractHTTPRules httpOption method =
                match httpOption method with
                | None => Some []
                | Some rule => mapM bindingRule (bindingsOf rule)
                end).
  { unfold ExtractHTTPRules, bindingsOf.
    destruct (httpOption method) as [rule|]; [|done].
    rewrite parseHTTPRule_binding. cbn.
    destruct (bindingRule rule) as [mainRule|]; cbn; [|done].
    rewrite appendBindings_mapM. by destruct (mapM bindingRule _). }
  split; [done|]. intros rule Hrule. rewrite Heq, Hrule. split.
  - rewrite mapM_None, Exists_exists. split.
    + intros (binding & Hin & Hnone). exists binding. split; [done|].
      unfold bindingRule in Hnone. by destruct (GetPattern binding).
    + intros (binding & Hin & Hnone). exists binding. split; [done|].
      unfold bindingRule. by rewrite Hnone.
  - intros rules. apply mapM_Some_1.
Qed.

End rules_facts.

(** ** Forwarded headers *)
Section headers_facts.
Import Headers.
Variable ToLower : string → string.
Hypothesis ToLower_idemp : ∀ s, ToLower (ToLower s) = ToLower s.

#[local] Abbreviation MD := (gmap string (list string)).

Lemma foldl_Append (md : MD) (lk : string) (vals : list string) (key : string) :
  foldl (λ md v, Append ToLower md lk v) md vals !! key =
    if decide (key = ToLower lk)
    then match vals with
         | [] => md !! key
         | _ => Some (default [] (md !! key) ++ vals)
         end
    else md !! key.
Proof.
  revert md. induction vals as [|v vals IH]; intros md; cbn [foldl].
  { by case_decide. }
  rewrite IH. unfold Append. case_decide as Hkey.
  - subst key. rewrite lookup_insert_eq. cbn.
    destruct vals; by rewrite <-?(assoc_L (++)).
  - by rewrite lookup_insert_ne.
Qed.

(** The metadata hold, under every key, the values collected for it. *)
Lemma buildOutgoingMD_lookup (order : list (string * list string)) (key : string) :
  buildOutgoingMD ToLower order !! key =
    match collected ToLower key order with
    | [] => None
    | vals => Some vals
    end.
Proof.
  unfold buildOutgoingMD, collected.
  induction order as [|[k vals] order IH] using rev_ind; [done|].
  rewrite foldl_app, filter_app, fmap_app, join_app. cbn [foldl].
  set (md := foldl (forward ToLower) ∅ order) in *.
  set (before := mjoin (snd <$> filter _ order)) in *.
  unfold forward. cbn [fst snd].
  destruct (decide (ToLower k = key ∧ key ∉ blocked)) as [[Hk Hfree]|Hno].
  - rewrite filter_cons_True, filter_nil by done. cbn [fmap list_fmap mjoin list_join snd].
    rewrite (right_id_L [] (++)). subst key.
    rewrite bool_decide_eq_false_2 by done.
    rewrite foldl_Append, ToLower_idemp, decide_True by done.
    rewrite IH. destruct vals as [|v vals].
    + by rewrite (right_id_L [] (++)).
    + destruct before; cbn; [done|]. done.
  - rewrite filter_cons_False, filter_nil by done. cbn. rewrite (right_id_L [] (++)).
    case_bool_decide as Hblocked; [done|].
    rewrite foldl_Append, ToLower_idemp. case_decide as Hkey; [|done].
    destruct Hno. split; [done|]. by rewrite Hkey.
Qed.

Lemma filter_none {A : Type} (P : A → Prop) `{∀ x, Decision (P x)} (l : list A) :
  (∀ x, x ∈ l → ¬ P x) → filter P l = [].
Proof.
  induction l as [|a l IH]; intros Hno; [done|].
  rewrite filter_cons_False by (apply Hno, list_elem_of_here).
  apply IH. intros x Hx. by apply Hno, list_elem_of_further.
Qed.

Lemma filter_only {A : Type} (P : A → Prop) `{∀ x, Decision (P x)} (l : list A) (x : A) :
  NoDup l → x ∈ l → P x → (∀ y, y ∈ l → P y → y = x) → filter P l = [x].
Proof.
  induction l as [|a l IH]; intros Hnodup Hin Hx Honly; [by apply elem_of_nil in Hin|].
  apply NoDup_cons in Hnodup as [Ha Hnodup].
  assert (Hrest : a = x → filter P l = []).
  { intros ->. destruct (filter P l) as [|y rest] eqn:Hfilter; [done|].
    assert (Hy : y ∈ filter P l) by (rewrite Hfilter; apply list_elem_of_here).
    apply list_elem_of_filter in Hy as [Hy Hyl].
    destruct Ha. rewrite <-(Honly y); [done|by apply list_elem_of_further|done]. }
  apply elem_of_cons in Hin as [->|Hin].
  - rewrite filter_cons_True by done. by rewrite Hrest.
  - destruct (decide (P a)) as [Hpa|Hpa].
    + assert (a = x) by (apply Honly; [apply list_elem_of_here|done]). subst a. done.
    + rewrite filter_cons_False by done. apply IH; try done.
      intros y Hy. apply Honly. by apply list_elem_of_further.
Qed.

(** X22. Blocked headers are never forwarded, the others are. Whatever
    order the [range] over the headers takes, the metadata built for the
    call hold no key of the blocked list (pseudo headers, hop-by-hop and
    content headers); a key they hold is the lower-cased name of a header
    of the request; and a header with values whose lower-cased name is
    not blocked and belongs to no other header of the request is
    forwarded under that name with all its values in order. *)
Theorem blocked_headers_not_forwarded (header : MD) (order : list (string * list string)) :
  order ≡ₚ map_to_list header →
  (∀ key, key ∈ blocked → buildOutgoingMD ToLower order !! key = None)
  ∧ (∀ key, is_Some (buildOutgoingMD ToLower order !! key) →
            ∃ k, is_Some (header !! k) ∧ ToLower k = key)
  ∧ (∀ k vals,
       header !! k = Some vals → vals ≠ [] → ToLower k ∉ blocked →
       (∀ k', is_Some (header !! k') → ToLower k' = ToLower k → k' = k) →
       buildOutgoingMD ToLower order !! ToLower k = Some vals).
Proof.
  intros Horder.
  assert (Hin : ∀ k vals, (k, vals) ∈ order ↔ header !! k = Some vals).
  { intros k vals. rewrite Horder. apply elem_of_map_to_list. }
  split; [|split].
  - intros key Hblocked. rewrite buildOutgoingMD_lookup. unfold collected.
    rewrite filter_none; [done|]. by intros h _ [_ ?].
  - intros key. rewrite buildOutgoingMD_lookup. unfold collected.
    destruct (filter _ order) as [|h rest] eqn:Hfilter; [by intros [? ?]|]. intros _.
    assert (Hh : h ∈ filter (λ h : string * list string,
                               ToLower h.1 = key ∧ key ∉ blocked) order)
      by (rewrite Hfilter; apply list_elem_of_here).
    apply list_elem_of_filter in Hh as [[Hkey _] Hh]. destruct h as [k vals].
    exists k. split; [|done]. exists vals. by apply Hin.
  - intros k vals Hk Hvals Hfree Honly.
    rewrite buildOutgoingMD_lookup. unfold collected.
    rewrite (filter_only _ order (k, vals)).
    + cbn. rewrite (right_id_L [] (++)). by destruct vals.
    + rewrite Horder. apply NoDup_map_to_list.
    + by apply Hin.
    + done.
    + intros [k' vals'] Hy [Hlower _]. cbn in Hlower.
      apply Hin in Hy. assert (k' = k) by (apply Honly; [eauto|done]). subst k'.
      rewrite Hk in Hy. by injection Hy as ->.
Qed.

End headers_facts.

(** ** The further properties on concrete states *)
Section more_examples.
Import GoStrings RouteTree RouteTreeMore Pool PoolMore Discovery DiscoveryMore.
Import Router RouterMore Headers Samples SamplesMore.

Lemma reached_treeA : reached (treeA 7%nat).
Proof. apply reached_insert, reached_new. Qed.

Lemma Lookup_after_Insert_witness :
  ∃ params, Lookup "/a" (treeA 7%nat) = Some (7%nat, params).
Proof.
  apply (Lookup_after_Insert NewRouteTree (treeA 7%nat) "/a" 7%nat);
    [apply reached_new|reflexivity].
Defined.

Lemma Lookup_finds_stored_witness :
  ∃ params, Lookup "/*rest" (wildTree 3%nat) = Some (3%nat, params).
Proof.
  eapply (Lookup_finds_stored (wildTree 3%nat) "/*rest").
  - apply reached_insert, reached_new.
  - reflexivity.
  - vm_compute. reflexivity.
  - reflexivity.
Defined.

Lemma reached_tree_shape_witness : linksOk (treeA 7%nat).
Proof.
  apply (reached_tree_shape (treeA 7%nat) [] (treeA 7%nat));
    [apply reached_treeA|reflexivity].
Defined.

Lemma Delete_false_unchanged_witness : (Delete "/b" (treeA 7%nat)).1 = treeA 7%nat.
Proof.
  apply (Delete_false_unchanged (treeA 7%nat) "/b"); [apply reached_treeA|reflexivity].
Defined.

(** The refused call leaves a node "b" without a value behind. *)
Lemma refused_Insert_changes_no_value_witness :
  (∀ q, valueAt q (Insert "/b/*" 9%nat (treeA 7%nat)).1 = valueAt q (treeA 7%nat))
  ∧ ∃ params, Lookup "/a" (Insert "/b/*" 9%nat (treeA 7%nat)).1 = Some (7%nat, params).
Proof.
  destruct (refused_Insert_changes_no_value (treeA 7%nat) "/b/*" 9%nat) as [Hvalues Hkeys].
  - vm_compute. eauto.
  - split; [exact Hvalues|].
    eapply (Hkeys reached_treeA "/a").
    + reflexivity.
    + vm_compute. reflexivity.
    + reflexivity.
Defined.

(** The node that a refused call leaves behind can stand in front of a
    parameter route: with "/:id" stored, "/abc" matches it; after the
    refused [Insert] of "/abc/:" the static node "abc" takes the walk
    and [Lookup] of "/abc" finds nothing, while the value is still stored
    and found under "/:id". *)
Example refused_Insert_can_shadow_a_parameter_route :
  let t := (Insert "/:id" 1%nat NewRouteTree).1 in
  let t' := (Insert "/abc/:" 2%nat t).1 in
  (Insert "/abc/:" 2%nat t).2 = Some ErrParamNameEmpty
  ∧ Lookup "/abc" t = Some (1%nat, {[ "id" := "abc" ]})
  ∧ Lookup "/abc" t' = None
  ∧ Lookup "/:id" t' = Some (1%nat, {[ "id" := ":id" ]}).
Proof. repeat split; vm_compute; reflexivity. Qed.

Lemma Delete_removes_what_Lookup_finds_witness :
  valueAt [EStatic "a"] (Delete "/a" (treeA 7%nat)).1 = None
  ∧ valueAt [] (Delete "/a" (treeA 7%nat)).1 = valueAt [] (treeA 7%nat).
Proof.
  destruct (proj2 (Delete_removes_what_Lookup_finds (treeA 7%nat) "/a")
              reached_treeA 7%nat ∅ eq_refl) as (p & Hwalk & _ & Heffect).
  vm_compute in Hwalk. injection Hwalk as <-.
  split; [apply (Heffect [EStatic "a"])|apply (Heffect [])].
Defined.

Lemma single_route_matches_instances_witness :
  Lookup "/users/42" (Insert "/users/:id" 5%nat NewRouteTree).1
  = Some (5%nat, {[ "id" := "42" ]}).
Proof.
  etrans.
  - apply (single_route_matches_instances "/users/:id" "/users/42" 5%nat
             (Insert "/users/:id" 5%nat NewRouteTree).1); reflexivity.
  - vm_compute. reflexivity.
Defined.

Lemma getNextInvoker_returns_live_witness :
  (∃ inst, inst ∈ instances (poolAB 0)
           ∧ invokers (poolAB 0) !! Addr inst = Some (Some 2%nat))
  ∧ instances (setCounter (poolAB 0) 1) = instances (poolAB 0)
  ∧ invokers (setCounter (poolAB 0) 1) = invokers (poolAB 0)
  ∧ serviceName (setCounter (poolAB 0) 1) = serviceName (poolAB 0).
Proof.
  apply (getNextInvoker_returns_live (poolAB 0) (setCounter (poolAB 0) 1) [1] 2%nat).
  vm_compute. reflexivity.
Defined.

Lemma successive_calls_rotate_witness :
  ∃ inst inv,
    instances (poolABC 0) !! Z.to_nat ((0 + 1 + Z.of_nat 1) mod Z.of_nat 3) = Some inst
    ∧ liveInvoker (poolABC 0) (Addr inst) = Some inv
    ∧ calls 3 (poolABC 0) !! 1%nat = Some (Found inv).
Proof.
  apply (successive_calls_rotate (poolABC 0) 3 1).
  - cbn. lia.
  - cbn. lia.
  - cbn. lia.
  - intros inst Hin. cbn in Hin.
    repeat (apply elem_of_cons in Hin as [->|Hin]); [| | |by apply elem_of_nil in Hin];
      vm_compute; eauto.
  - lia.
Defined.

Lemma service_name_of_keys_witness :
  extractServiceNameFromMetadata sampleWatcher "sample/metadata/user" = "user"
  ∧ extractServiceNameFromMetadata sampleWatcher "sample/metadata/user/" = "user"
  ∧ extractServiceNameFromInstance sampleWatcher "sample/discover/user/i-1" = "user".
Proof.
  apply (service_name_of_keys sampleWatcher "user" "i-1").
  cbn. repeat split; discriminate.
Defined.

Lemma instance_put_one_per_address_witness :
  instA ∈ instancesOf (onInstance emptyStore sampleWatcher putInstanceA).1 "user".
Proof.
  destruct (instance_put_one_per_address scanInt emptyStore sampleWatcher putInstanceA instA)
    as [Hin _].
  - vm_compute. discriminate.
  - reflexivity.
  - vm_compute. reflexivity.
  - exact Hin.
Defined.

Lemma instance_put_known_address_witness :
  onInstance emptyStore userWatcher putInstanceA =
    (userWatcher,
     [ {| Type_ := EventUpdate;
          Service := {| Meta := sampleMetadata; Instances := [instA] |} |} ]).
Proof.
  apply (instance_put_known_address (λ _, Some sampleMetadata) (λ _, None) scanInt
           emptyStore userWatcher putInstanceA instA).
  - apply DiscoveryMore.reachable_instance, DiscoveryMore.reachable_metadata,
      DiscoveryMore.reachable_new; reflexivity.
  - vm_compute. discriminate.
  - reflexivity.
  - vm_compute. reflexivity.
  - vm_compute. apply list_elem_of_here.
Defined.

Lemma instance_event_without_metadata_witness :
  (onInstance emptyStore sampleWatcher putInstanceA).2 = []
  ∧ metadataMap (onInstance emptyStore sampleWatcher putInstanceA).1
    = metadataMap sampleWatcher.
Proof.
  apply (instance_event_without_metadata scanInt emptyStore sampleWatcher putInstanceA).
  reflexivity.
Defined.

Lemma update_event_is_GetService_witness :
  GetService (onMetadata sampleWatcher samplePut).1 "user"
  = Some {| Meta := sampleMetadata; Instances := [] |}.
Proof.
  apply (proj1 (update_event_is_GetService (λ _, Some sampleMetadata) (λ _, None) scanInt
                  emptyStore sampleWatcher samplePut
                  {| Type_ := EventUpdate;
                     Service := {| Meta := sampleMetadata; Instances := [] |} |}
                  eq_refl)).
  vm_compute. apply list_elem_of_here.
Defined.

Lemma loading_announces_each_service_once_witness :
  let '(w', buf', outcome) :=
    loadExistingServicesAndInstances (λ _, Some sampleMetadata) (λ _, None) scanInt
      emptyStore map_to_list
      (Some [("sample/metadata/user", "{}")])
      (Some [("sample/discover/user/i-1", "10.0.0.1:50051")])
      sampleWatcher [] in
  if bool_decide (is_Some (Some [("sample/metadata/user", "{}")])
                  ∧ is_Some (Some [("sample/discover/user/i-1", "10.0.0.1:50051")]))
  then initialLoading w' = false
       ∧ ∃ adds, adds ≡ₚ addEvent w' <$> map_to_list (metadataMap w')
                 ∧ buf' = [] ++ take (eventChanCapacity - length ([] : list (ServiceEvent unit))) adds
                 ∧ outcome = (if bool_decide (length ([] : list (ServiceEvent unit))
                                              + size (metadataMap w')
                                              ≤ eventChanCapacity)%nat
                              then Returned None else Blocked)
  else (∃ err, outcome = Returned (Some err)) ∧ initialLoading w' = true ∧ buf' = [].
Proof.
  apply (loading_announces_each_service_once (λ _, Some sampleMetadata) (λ _, None) scanInt
           emptyStore map_to_list).
  - intros m. reflexivity.
  - cbn. unfold eventChanCapacity. lia.
Defined.

(** A channel that nobody reads takes one hundred events; the send of the
    next one blocks. *)
Example sendAll_blocks_on_a_full_channel :
  sendAll [] (replicate 100 (addOf "user")) = (replicate 100 (addOf "user"), true)
  ∧ sendAll [] (replicate 101 (addOf "user")) = (replicate 100 (addOf "user"), false).
Proof. split; vm_compute; reflexivity. Qed.

Lemma RegisterService_syncs_pool_witness :
  ∃ pool : ServicePool string,
    servicePools (register emptyRouter (Some userInfo)).1 !! "user" = Some pool
    ∧ instances pool = [instA]
    ∧ counter pool = counter (poolOf emptyRouter "user")
    ∧ ∀ addr,
        invokers pool !! addr =
          if decide (addr ∈ Addr <$> [instA])
          then match invokers (poolOf emptyRouter "user") !! addr with
               | Some invoker => Some invoker
               | None =>
                   match sampleInvoker addr (Some (pingFiles "user.v1.UserService" "Ping")) with
                   | Some (invoker, _) => Some (Some invoker)
                   | None => None
                   end
               end
          else None.
Proof.
  apply (RegisterService_syncs_pool
           (λ file : list SampleService, file) ssMethods ssName smName
           (λ m, Some (smRules m)) sampleInvoker
           asciiTrimSpace asciiToUpper cleanRooted emptyRouter userInfo).
  vm_compute. discriminate.
Defined.

Lemma UnRegisterService_removes_service_witness :
  ∃ r', unregister ["/[GET]/v1/ping"] userRouter (Some userInfo) = (r', None)
        ∧ servicePools r' !! "user" = None
        ∧ routeIndex r' !! "user" = None
        ∧ pathIndex r' = pathIndex userRouter ∖ pathsOf userRouter "user".
Proof.
  destruct (UnRegisterService_removes_service asciiTrimSpace
              ["/[GET]/v1/ping"] userRouter userInfo)
    as (r' & Hcall & Hpool & Hroutes & Hindex & _).
  - vm_compute. discriminate.
  - reflexivity.
  - exists r'. done.
Defined.

Lemma reachable_gatewayRouter :
  RouterMore.reachable (λ file : list SampleService, file) ssMethods ssName smName
    (λ m, Some (smRules m)) sampleInvoker
    asciiTrimSpace asciiToUpper cleanRooted elements gatewayRouter.
Proof. apply RouterMore.reachable_event, RouterMore.reachable_new. Qed.

Lemma first_registration_wins_witness :
  ∃ route,
    ServiceName route = "user"
    ∧ (∃ params, Lookup "/[GET]/v1/ping" (routerTree (register emptyRouter (Some userInfo)).1)
                 = Some (route, params))
    ∧ (register (register emptyRouter (Some userInfo)).1 (Some orderInfo)).2 = None
    ∧ ("/[GET]/v1/ping"
       ∉ pathsOf (register (register emptyRouter (Some userInfo)).1 (Some orderInfo)).1 "order")
    ∧ ¬ stored "/[GET]/v1/ping"
          (routerTree
             (unregister
                (elements
                   (pathsOf (register (register emptyRouter (Some userInfo)).1
                                      (Some orderInfo)).1 "user"))
                (register (register emptyRouter (Some userInfo)).1 (Some orderInfo)).1
                (Some userInfo)).1).
Proof.
  destruct (first_registration_wins
              (λ file : list SampleService, file) ssMethods ssName smName
              (λ m, Some (smRules m)) sampleInvoker
              asciiTrimSpace asciiToUpper cleanRooted elements
              emptyRouter userInfo orderInfo "/[GET]/v1/ping")
    as (route & _ & Hname & Hlookup & Hsecond & _ & _ & Hskipped & _ & _ & _ & _ & _ & _ & _
        & Hgone).
  - intros X. reflexivity.
  - apply RouterMore.reachable_new.
  - vm_compute. discriminate.
  - vm_compute. discriminate.
  - discriminate.
  - apply not_elem_of_empty.
  - apply elem_of_elements. vm_compute. apply list_elem_of_here.
  - exists route. done.
Defined.

(** C6 as stated fails: the service "user" registers first, before any of
    its instances is known, and installs nothing; "order" registers second
    and gets the key; when "user" registers again with an instance its
    rule is skipped. The first to register has lost the key. *)
Lemma first_to_register_can_lose :
  let r1 := (register emptyRouter (Some userWithoutInstances)).1 in
  let r2 := (register r1 (Some orderInfo)).1 in
  let r3 := (register r2 (Some userInfo)).1 in
  (register emptyRouter (Some userWithoutInstances)).2 = None
  ∧ is_Some (servicePools r1 !! "user")
  ∧ pathIndex r1 = ∅
  ∧ (register r1 (Some orderInfo)).2 = None
  ∧ (register r2 (Some userInfo)).2 = None
  ∧ elements (pathsOf r3 "order") = ["/[GET]/v1/ping"]
  ∧ routeIndex r3 !! "user" = None
  ∧ ServiceName <$> (fst <$> Lookup "/[GET]/v1/ping" (routerTree r3)) = Some "order".
Proof. repeat split; try (vm_compute; reflexivity). vm_compute. eauto. Qed.

(** Two keys of one address in the tree: "user" holds the key of
    [pingRule]; "order" registers a rule whose key ends in a query. The key
    is new to the path index, so the rule is not skipped, and its [Insert]
    overwrites the route of "user". *)
Example same_address_key_replaces_the_route :
  let r1 := (register emptyRouter (Some userInfo)).1 in
  let r2 := (register r1 (Some orderWithQuery)).1 in
  (register r1 (Some orderWithQuery)).2 = None
  ∧ ServiceName <$> (fst <$> Lookup "/[GET]/v1/ping" (routerTree r1)) = Some "user"
  ∧ elements (pathsOf r2 "user") = ["/[GET]/v1/ping"]
  ∧ elements (pathsOf r2 "order") = ["/[GET]/v1/ping?x=1"]
  ∧ ServiceName <$> (fst <$> Lookup "/[GET]/v1/ping" (routerTree r2)) = Some "order".
Proof. repeat split; vm_compute; reflexivity. Qed.

Lemma reachable_indexes_agree_witness :
  (∀ key, key ∈ pathIndex gatewayRouter ↔ ∃ serviceName, key ∈ pathsOf gatewayRouter serviceName)
  ∧ (∀ s1 s2 key, key ∈ pathsOf gatewayRouter s1 → key ∈ pathsOf gatewayRouter s2 → s1 = s2)
  ∧ reached (routerTree gatewayRouter).
Proof.
  apply (reachable_indexes_agree
           (λ file : list SampleService, file) ssMethods ssName smName
           (λ m, Some (smRules m)) sampleInvoker
           asciiTrimSpace asciiToUpper cleanRooted elements gatewayRouter).
  - intros X. reflexivity.
  - apply reachable_gatewayRouter.
Defined.

Lemma reachable_pools_hold_listed_addresses_witness :
  ∃ pool : ServicePool string,
    servicePools gatewayRouter !! "user" = Some pool
    ∧ serviceName pool = "user"
    ∧ (is_Some (invokers pool !! "10.0.0.1:50051") →
       "10.0.0.1:50051" ∈ Addr <$> instances pool).
Proof.
  eexists. split; [vm_compute; reflexivity|].
  apply (reachable_pools_hold_listed_addresses
           (λ file : list SampleService, file) ssMethods ssName smName
           (λ m, Some (smRules m)) sampleInvoker
           asciiTrimSpace asciiToUpper cleanRooted elements gatewayRouter "user").
  - apply reachable_gatewayRouter.
  - vm_compute. reflexivity.
Defined.

Lemma getNextInvoker_panics_on_negative_start_witness :
  (getNextInvoker (poolABC maxInt64)).2 = ([-2], PanicIndex (-2)) ∧ -2 < 0.
Proof.
  apply (getNextInvoker_panics_on_negative_start (poolABC maxInt64)).
  - discriminate.
  - reflexivity.
  - vm_compute. discriminate.
Defined.

Lemma lowerByte_idemp (a : ascii) : lowerByte (lowerByte a) = lowerByte a.
Proof. destruct a as [[] [] [] [] [] [] [] []]; reflexivity. Qed.

Lemma asciiToLower_idemp (s : string) : asciiToLower (asciiToLower s) = asciiToLower s.
Proof. induction s as [|a s IH]; [done|]. cbn. by rewrite lowerByte_idemp, IH. Qed.

Lemma blocked_headers_not_forwarded_witness :
  buildOutgoingMD asciiToLower (map_to_list sampleHeader) !! "content-type" = None
  ∧ buildOutgoingMD asciiToLower (map_to_list sampleHeader) !! asciiToLower "X-Request-Id"
    = Some ["42"].
Proof.
  destruct (blocked_headers_not_forwarded asciiToLower asciiToLower_idemp sampleHeader
              (map_to_list sampleHeader)) as (Hblocked & _ & Hforward); [reflexivity|].
  split.
  - apply Hblocked. vm_compute. set_solver.
  - apply Hforward.
    + reflexivity.
    + discriminate.
    + vm_compute. set_solver.
    + intros k' [vals Hk'] Hlower. unfold sampleHeader in Hk'.
      apply lookup_insert_Some in Hk' as [[<- _]|[_ Hk']]; [done|].
      apply lookup_singleton_Some in Hk' as [<- _]. vm_compute in Hlower. discriminate.
Defined.

End more_examples.
